(** * MAAS: a shallow embedding of selected region and rack components

    Each module below embeds one source file of the repository and proves
    the properties stated about it.  Python exceptions are values of [exn];
    a call that may raise returns [exn + A]; a generator is the list of the
    items it yields together with the exception that ended it, if any. *)

From Stdlib Require Import ZArith List Lia String Ascii Permutation Bool.
From Stdlib Require Import Strings.Byte DecimalString.
From stdpp Require Import base option list gmap strings sorting.

Local Open Scope Z_scope.

(** ** Python runtime: exceptions, results, generators *)

Inductive exn : Type :=
  | ZeroDivisionError
  | ValueError
  | TypeError
  | AttributeError
  | KeyError (key : string)
  | NotImplementedError
  | UnicodeEncodeError
  | BinasciiError
  | IOError (errno : Z)
  | XMLSyntaxError
  | MultipleObjectsReturned
  | Http404
  | MAASAPIValidationError
  | ValidationError
  | StaticIPAddressConflict
  | StaticIPAddressForbidden
  | StaticIPAddressUnavailable.

Definition result (A : Type) : Type := (exn + A)%type.

Definition ok {A} (a : A) : result A := inr a.
Definition raise {A} (e : exn) : result A := inl e.

Definition bind {A B} (r : result A) (k : A -> result B) : result B :=
  match r with
  | inl e => inl e
  | inr a => k a
  end.

Notation "'try!' x := r 'in' k" := (bind r (fun x => k))
  (at level 10, x pattern, r at level 100, k at level 200).

(** What a generator does when it is run to its end: the items it yields, in
    order, and the exception that stopped it ([None]: it finished). *)
Record generated (A : Type) : Type := Generated {
  yielded : list A;
  raised : option exn
}.
Arguments Generated {A} _ _.
Arguments yielded {A} _.
Arguments raised {A} _.

(** [(f(x) for x in g)]: items are produced one at a time, so an exception
    raised by [f] ends the generator after the items already yielded. *)
Fixpoint gen_items {A B} (f : A -> result B) (items : list A)
    (fin : option exn) : generated B :=
  match items with
  | [] => Generated [] fin
  | a :: rest =>
      match f a with
      | inl e => Generated [] (Some e)
      | inr b =>
          let r := gen_items f rest fin in
          Generated (b :: yielded r) (raised r)
      end
  end.

Definition gen_map {A B} (f : A -> result B) (g : generated A) : generated B :=
  gen_items f (yielded g) (raised g).

(** ** provisioningserver/tags.py: batching *)

Module Tags.

Definition DEFAULT_BATCH_SIZE : Z := 100.

(** [slice(start, None, step)]: the only shape [gen_batch_slices] builds. *)
Record slice : Type := Slice { start : Z; step : Z }.

(** Python's [divmod] on integers: floor division, the remainder takes the
    sign of the divisor; a zero divisor raises. *)
Definition divmod (a b : Z) : result (Z * Z) :=
  if b =? 0 then raise ZeroDivisionError else ok (a / b, a mod b).

(** [xrange(n)]: 0, 1, ..., n-1; empty when [n <= 0]. *)
Definition xrange (n : Z) : list Z :=
  map Z.of_nat (seq 0 (Z.to_nat n)).

Definition gen_batch_slices (count size : Z) : generated slice :=
  match divmod count size with
  | inl e => Generated [] (Some e)
  | inr (batch_count, remaining) =>
      let batch_count := batch_count + (if 0 <? remaining then 1 else 0) in
      Generated (map (fun batch => Slice batch batch_count) (xrange batch_count))
                None
  end.

(** [every k i l]: skip [i] items of [l], take one, then keep taking every
    [S k]-th item.  With [i] the start and [S k] the step this is the
    extended slice [l[i::S k]]. *)
Fixpoint every {A} (k i : nat) (l : list A) : list A :=
  match l with
  | [] => []
  | x :: l' =>
      match i with
      | O => x :: every k k l'
      | S i' => every k i' l'
      end
  end.

(** [things[s]] for [s = slice(start, None, step)], after Python's
    normalisation of the bounds: a zero step raises; a negative start counts
    from the end; a negative step walks towards the front. *)
Definition getitem {A} (things : list A) (s : slice) : result (list A) :=
  let len := Z.of_nat (length things) in
  if step s =? 0 then raise ValueError
  else if 0 <? step s then
    let lo := if start s <? 0 then Z.max (start s + len) 0
              else Z.min (start s) len in
    ok (every (Z.to_nat (step s - 1)) (Z.to_nat lo) things)
  else
    let hi := if start s <? 0 then Z.max (start s + len) (-1)
              else Z.min (start s) (len - 1) in
    ok (every (Z.to_nat (- step s - 1)) 0
              (rev (firstn (Z.to_nat (hi + 1)) things))).

Definition gen_batches {A} (things : list A) (batch_size : Z)
    : generated (list A) :=
  let slices := gen_batch_slices (Z.of_nat (length things)) batch_size in
  gen_map (getitem things) slices.

(** *** Merging the details of a node *)

(** A tag [{namespace}localname]; [None] for a tag without namespace. *)
Record QName : Type := { namespace : option string; localname : string }.

(** An XML element: tag, the namespace map declared on it, attributes, text
    and child elements.  Comments, processing instructions and tail text
    are left out. *)
Unset Elimination Schemes.
Inductive element : Type :=
  | Element (tag : QName) (nsmap : list (string * string))
            (attrib : list (string * string)) (text : string)
            (children : list element).
Set Elimination Schemes.

Definition tag (e : element) : QName :=
  match e with Element t _ _ _ _ => t end.
Definition nsmap (e : element) : list (string * string) :=
  match e with Element _ m _ _ _ => m end.
Definition attrib (e : element) : list (string * string) :=
  match e with Element _ _ a _ _ => a end.
Definition text (e : element) : string :=
  match e with Element _ _ _ x _ => x end.
Definition children (e : element) : list element :=
  match e with Element _ _ _ _ c => c end.

Record ElementTree : Type := { getroot : element }.

(** [parent.append(child)]. *)
Definition append (parent child : element) : element :=
  match parent with
  | Element t m a x c => Element t m a x (c ++ [child])
  end.

(** [child] once it has become a child of [parent]: the namespace
    declarations of [parent] are in scope on it as well. *)
Definition adopted (parent child : element) : element :=
  match child with
  | Element t m a x c =>
      Element t
        (m ++ List.filter (fun d => negb (existsb (String.eqb (fst d)) (map fst m)))
                          (nsmap parent))
        a x c
  end.

(** [elem.tag = etree.QName(namespace, elem.tag)] for the elements without
    namespace. *)
Definition qualify_tag (ns : string) (t : QName) : QName :=
  match namespace t with
  | None => {| namespace := Some ns; localname := localname t |}
  | Some _ => t
  end.

(** [for elem in detail.iter("{}*"): elem.tag = etree.QName(namespace,
    elem.tag)]: the element and all its descendants. *)
Fixpoint qualify (ns : string) (e : element) : element :=
  match e with
  | Element t m a x c => Element (qualify_tag ns t) m a x (map (qualify ns) c)
  end.

(** [detail.iter()]: the element and its descendants, in document order. *)
Fixpoint iter (e : element) : list element :=
  match e with
  | Element _ _ _ _ c =>
      e :: (fix each (c : list element) : list element :=
              match c with
              | [] => []
              | e' :: c' => iter e' ++ each c'
              end) c
  end.

(** [sorted(details)]: the keys in the order of their code points. *)
Definition sorted (details : gmap string (option string)) : list string :=
  merge_sort (fun a b => Is_true (String.leb a b)) (map fst (map_to_list details)).

Section Merge.

(** [etree.fromstring] is lxml's parser; [None] is [XMLSyntaxError]. *)
Variable fromstring : string -> option element.

(** [details.copy()] is [details] itself: maps are values here. *)
Definition _details_prepare_merge (details : gmap string (option string))
    : gmap string (option string) * element :=
  let nsmap := map (fun ns => (ns, ns)) (sorted details) in
  let root := Element {| namespace := None; localname := "list" |} nsmap [] "" [] in
  (details, root).

(** The first root keeps the parsed lshw tree as its child, and is reachable
    from the result only as the parent of the new root. *)
Definition _details_make_backwards_compatible
    (details : gmap string (option string)) (root : element)
    : gmap string (option string) * element :=
  match details !! "lshw"%string with
  | Some (Some xmldata) =>
      match fromstring xmldata with
      | None => (delete "lshw"%string details, root)
      | Some lshw => (details, adopted root lshw)
      end
  | _ => (details, root)
  end.

(** The body of the loop of [_details_do_merge] for one namespace; the
    warning logged for a document that does not parse is left out. *)
Definition merge_namespace (details : gmap string (option string))
    (root : element) (namespace : string) : element :=
  match details !! namespace with
  | Some (Some xmldata) =>
      match fromstring xmldata with
      | None => root
      | Some detail => append root (qualify namespace detail)
      end
  | _ => root
  end.

Definition _details_do_merge (details : gmap string (option string))
    (root : element) : ElementTree :=
  {| getroot := fold_left (merge_namespace details) (sorted details) root |}.

Definition merge_details (details : gmap string (option string)) : ElementTree :=
  let '(details, root) := _details_prepare_merge details in
  let '(details, root) := _details_make_backwards_compatible details root in
  _details_do_merge details root.

Definition merge_details_cleanly (details : gmap string (option string))
    : ElementTree :=
  let '(details, root) := _details_prepare_merge details in
  _details_do_merge details root.

End Merge.

End Tags.

(** ** provisioningserver/security.py: the shared secret *)

Module Security.

(** [bytes] are lists of [byte]; [str] is modelled by [string], a text whose
    characters are the code points below 256. *)
Definition byte_of (n : N) : byte :=
  match Byte.of_N n with
  | Some b => b
  | None => x00
  end.

Definition ascii_byte (c : ascii) : byte := byte_of (N_of_ascii c).
Definition byte_ascii (b : byte) : ascii := ascii_of_N (Byte.to_N b).

(** [bytes.decode("ascii")] and [str.encode("ascii")]. *)
Fixpoint decode_ascii (b : list byte) : result string :=
  match b with
  | [] => ok EmptyString
  | c :: b' =>
      if (Byte.to_N c <? 128)%N
      then try! u := decode_ascii b' in ok (String (byte_ascii c) u)
      else raise ValueError
  end.

Fixpoint encode_ascii (u : string) : result (list byte) :=
  match u with
  | EmptyString => ok []
  | String c u' =>
      if (N_of_ascii c <? 128)%N
      then try! b := encode_ascii u' in ok (ascii_byte c :: b)
      else raise UnicodeEncodeError
  end.

(** [binascii.b2a_hex]: two lower-case hexadecimal digits per byte. *)
Definition hex_digit (n : N) : byte :=
  if (n <? 10)%N then byte_of (48 + n) else byte_of (87 + n).

Fixpoint b2a_hex (b : list byte) : list byte :=
  match b with
  | [] => []
  | c :: b' =>
      hex_digit (Byte.to_N c / 16) :: hex_digit (Byte.to_N c mod 16)
      :: b2a_hex b'
  end.

(** [binascii.a2b_hex]: digits of either case; an odd number of digits or a
    character that is no hexadecimal digit raises [binascii.Error]. *)
Definition hex_value (c : byte) : option N :=
  let n := Byte.to_N c in
  if ((48 <=? n) && (n <=? 57))%N then Some (n - 48)%N
  else if ((97 <=? n) && (n <=? 102))%N then Some (n - 87)%N
  else if ((65 <=? n) && (n <=? 70))%N then Some (n - 55)%N
  else None.

Fixpoint a2b_hex (h : list byte) : result (list byte) :=
  match h with
  | [] => ok []
  | [_] => raise BinasciiError
  | hi :: lo :: h' =>
      match hex_value hi, hex_value lo with
      | Some a, Some b =>
          try! rest := a2b_hex h' in ok (byte_of (16 * a + b) :: rest)
      | _, _ => raise BinasciiError
      end
  end.

(** [bytes.strip()]: ASCII whitespace removed at both ends. *)
Definition is_space (c : byte) : bool :=
  let n := Byte.to_N c in
  ((n =? 32) || ((9 <=? n) && (n <=? 13)))%N.

Fixpoint lstrip (b : list byte) : list byte :=
  match b with
  | [] => []
  | c :: b' => if is_space c then lstrip b' else b
  end.

Definition strip (b : list byte) : list byte :=
  rev (lstrip (rev (lstrip b))).

Definition to_hex (b : list byte) : result string :=
  decode_ascii (b2a_hex b).

Definition to_bin (u : string) : result (list byte) :=
  try! b := encode_ascii u in a2b_hex (strip b).

(** *** The filesystem *)

Definition ENOENT : Z := 2.
Definition EEXIST : Z := 17.
Definition ENOTDIR : Z := 20.
Definition EISDIR : Z := 21.

(** A path is the list of its components below the root directory. *)
Abbreviation path := (list string).

Inductive node : Type :=
  | File (mode : Z) (text : string)
  | Directory.

Abbreviation filesystem := (gmap path node).

(** Mode of a file newly created by [open], before any [fchmod]. *)
Definition CREATE_MODE : Z := 420. (* 0o644 *)

Definition dirname (p : path) : path := removelast p.

(** [os.makedirs(d, exist_ok=True)]: the directories leading to [d] and [d]
    itself are created where missing; a file in the way raises, with
    [EEXIST] when it is in the place of [d] itself and with [ENOTDIR] when
    it is in the place of a directory leading to [d]. *)
Definition mkdir_exist_ok (fs : filesystem) (d : path) (last : bool)
    : result filesystem :=
  match fs !! d with
  | None => ok (<[d := Directory]> fs)
  | Some Directory => ok fs
  | Some (File _ _) => raise (IOError (if last then EEXIST else ENOTDIR))
  end.

Fixpoint makedirs_from (fs : filesystem) (done todo : path)
    : result filesystem :=
  match todo with
  | [] => ok fs
  | c :: todo' =>
      try! fs' := mkdir_exist_ok fs (done ++ [c])
                    match todo' with
                    | [] => true
                    | _ :: _ => false
                    end in
      makedirs_from fs' (done ++ [c]) todo'
  end.

Definition makedirs (fs : filesystem) (d : path) : result filesystem :=
  makedirs_from fs [] d.

(** Modelled from the spec: [provisioningserver.utils.fs.read_text_file] and
    [write_text_file] are not part of the sources at hand.  Reading returns
    the text of the file; a missing file raises [IOError] with [ENOENT], a
    directory raises it with [EISDIR].  Writing replaces the text of the file,
    creating the file when it is missing. *)
Definition read_text_file (fs : filesystem) (p : path) : result string :=
  match fs !! p with
  | None => raise (IOError ENOENT)
  | Some Directory => raise (IOError EISDIR)
  | Some (File _ text) => ok text
  end.

Definition write_text_file (fs : filesystem) (p : path) (text : string)
    : result filesystem :=
  match fs !! p with
  | None => ok (<[p := File CREATE_MODE text]> fs)
  | Some Directory => raise (IOError EISDIR)
  | Some (File mode _) => ok (<[p := File mode text]> fs)
  end.

(** [with open(p, "ab") as f: fchmod(f.fileno(), mode)]: the file is created
    empty when missing, its text is kept otherwise. *)
Definition open_append_fchmod (fs : filesystem) (p : path) (mode : Z)
    : result filesystem :=
  match fs !! p with
  | None => ok (<[p := File mode EmptyString]> fs)
  | Some Directory => raise (IOError EISDIR)
  | Some (File _ text) => ok (<[p := File mode text]> fs)
  end.

Section SharedSecret.

(** Modelled from the spec: [provisioningserver.path.get_data_path] is not
    part of the sources at hand; it places its arguments under the data
    directory of the installation, [data_root]. *)
Variable data_root : path.

Definition get_data_path (parts : path) : path := data_root ++ parts.

Definition get_shared_secret_filesystem_path : path :=
  get_data_path ["var"; "lib"; "maas"; "secret"]%string.

(** The file lock taken around the access is not modelled: the filesystem
    has a single user here. *)
Definition get_shared_secret_from_filesystem (fs : filesystem)
    : result (filesystem * option (list byte)) :=
  let secret_path := get_shared_secret_filesystem_path in
  try! fs := makedirs fs (dirname secret_path) in
  match read_text_file fs secret_path with
  | inl (IOError errno) =>
      if errno =? ENOENT then ok (fs, None) else raise (IOError errno)
  | inl e => raise e
  | inr secret_hex =>
      try! secret := to_bin secret_hex in ok (fs, Some secret)
  end.

Definition set_shared_secret_on_filesystem (fs : filesystem)
    (secret : list byte) : result filesystem :=
  let secret_path := get_shared_secret_filesystem_path in
  try! fs := makedirs fs (dirname secret_path) in
  try! secret_hex := to_hex secret in
  try! fs := open_append_fchmod fs secret_path 416 (* 0o640 *) in
  write_text_file fs secret_path secret_hex.

End SharedSecret.

(** *** The digest *)

Section Digest.

(** [hashlib.sha256], the hash function itself, is a parameter.  A hash
    object is the bytes fed to it so far; its digest is the hash of them. *)
Variable sha256 : list byte -> list byte.

Definition sha256_block_size : nat := 64.

Record hash_object : Type := HashObject { fed : list byte }.

Definition hash_update (h : hash_object) (data : list byte) : hash_object :=
  HashObject (fed h ++ data).

Definition hash_digest (h : hash_object) : list byte := sha256 (fed h).

Definition translate (pad : N) (key : list byte) : list byte :=
  map (fun b => byte_of (N.lxor (Byte.to_N b) pad)) key.

Definition ljust (key : list byte) (width : nat) : list byte :=
  key ++ repeat x00 (width - length key).

(** [hmac.HMAC]: the key is hashed when longer than a block, padded with
    zero bytes to a block, and fed to the outer and inner hash objects
    xor-ed with 0x5C and 0x36. *)
Record HMAC : Type := { outer : hash_object; inner : hash_object }.

Definition block_key (key : list byte) : list byte :=
  let key := if (sha256_block_size <? length key)%nat then sha256 key else key in
  ljust key sha256_block_size.

Definition HMAC_new (key : list byte) : HMAC :=
  {| outer := hash_update (HashObject []) (translate 92 (block_key key));
     inner := hash_update (HashObject []) (translate 54 (block_key key)) |}.

Definition HMAC_update (h : HMAC) (msg : list byte) : HMAC :=
  {| outer := outer h; inner := hash_update (inner h) msg |}.

Definition HMAC_digest (h : HMAC) : list byte :=
  hash_digest (hash_update (outer h) (hash_digest (inner h))).

Definition calculate_digest (secret message salt : list byte) : list byte :=
  let hmacr := HMAC_new secret in
  let hmacr := HMAC_update hmacr message in
  let hmacr := HMAC_update hmacr salt in
  HMAC_digest hmacr.

(** HMAC-SHA-256 as RFC 2104 defines it, in one step over the whole text:
    [H((K xor opad) ++ H((K xor ipad) ++ text))]. *)
Definition hmac_sha256 (key text : list byte) : list byte :=
  sha256 (translate 92 (block_key key)
          ++ sha256 (translate 54 (block_key key) ++ text)).

End Digest.

End Security.

(** ** maascli/config.py: the profile store *)

Module Config.

(** A row of [profiles (id INTEGER PRIMARY KEY, name TEXT NOT NULL UNIQUE,
    data BLOB)]; the table is the list of its rows in storage order. *)
Record row : Type := Row { id : Z; name : string; data : string }.

Abbreviation table := (list row).

Definition named (n : string) (r : row) : bool := String.eqb (name r) n.

(** [INTEGER PRIMARY KEY] without a value: one more than the largest id. *)
Definition next_id (t : table) : Z :=
  1 + fold_right Z.max 0 (map id t).

Section ProfileConfig.

(** [json.dumps] and [json.loads] belong to the Python library; they are
    parameters, over the documents [value] that they encode. *)
Variable value : Type.
Variable json_dumps : value -> string.
Variable json_loads : string -> result value.

(** [SELECT name FROM profiles]. *)
Definition __iter__ (t : table) : list string := map name t.

(** [SELECT data FROM profiles WHERE name = ?], first row fetched. *)
Definition __getitem__ (t : table) (n : string) : result value :=
  match find (named n) t with
  | None => raise (KeyError n)
  | Some r => json_loads (data r)
  end.

(** [INSERT OR REPLACE INTO profiles (name, data)]: the rows that clash on
    the unique [name] are deleted, then the new row is added. *)
Definition __setitem__ (t : table) (n : string) (v : value) : table :=
  List.filter (fun r => negb (named n r)) t
  ++ [Row (next_id t) n (json_dumps v)].

(** [DELETE FROM profiles WHERE name = ?]. *)
Definition __delitem__ (t : table) (n : string) : table :=
  List.filter (fun r => negb (named n r)) t.

End ProfileConfig.

End Config.

(** ** The JSON library of Python, as [maascli/config.py] uses it *)

Module Json.

(** The values that the model covers: [None], the booleans, the integers,
    lists and tuples of such values.  Texts, floats and dictionaries are
    left out. *)
Unset Elimination Schemes.
Inductive pyvalue : Type :=
  | PyNone
  | PyBool (b : bool)
  | PyInt (z : Z)
  | PyList (items : list pyvalue)
  | PyTuple (items : list pyvalue).
Set Elimination Schemes.

(** [a == b].  A boolean is the integer 0 or 1; a list is never equal to a
    tuple. *)
Fixpoint py_eq (a b : pyvalue) : bool :=
  let number (v : pyvalue) : option Z :=
    match v with
    | PyBool true => Some 1
    | PyBool false => Some 0
    | PyInt z => Some z
    | _ => None
    end in
  let all_eq :=
    fix all_eq (x y : list pyvalue) : bool :=
      match x, y with
      | [], [] => true
      | a :: x, b :: y => py_eq a b && all_eq x y
      | _, _ => false
      end in
  match a, b with
  | PyNone, PyNone => true
  | PyList x, PyList y => all_eq x y
  | PyTuple x, PyTuple y => all_eq x y
  | _, _ =>
      match number a, number b with
      | Some m, Some n => m =? n
      | _, _ => false
      end
  end.

(** [json.dumps(v)], with the separators and the other settings it has by
    default: a tuple is written as a list is. *)
Fixpoint json_dumps (v : pyvalue) : string :=
  match v with
  | PyNone => "null"
  | PyBool true => "true"
  | PyBool false => "false"
  | PyInt z => NilZero.string_of_int (Z.to_int z)
  | PyList items => "[" ++ String.concat ", " (map json_dumps items) ++ "]"
  | PyTuple items => "[" ++ String.concat ", " (map json_dumps items) ++ "]"
  end.

(** The whitespace of JSON: space, tabulation, line feed, carriage
    return. *)
Definition is_whitespace (c : ascii) : bool :=
  ((N_of_ascii c =? 32) || (N_of_ascii c =? 9) || (N_of_ascii c =? 10)
   || (N_of_ascii c =? 13))%N.

Fixpoint skip (s : string) : string :=
  match s with
  | String c rest => if is_whitespace c then skip rest else s
  | EmptyString => s
  end.

(** What follows [word] in [s], when [s] starts with it. *)
Fixpoint after (word s : string) : option string :=
  match word with
  | EmptyString => Some s
  | String c word =>
      match s with
      | String d rest => if Ascii.eqb c d then after word rest else None
      | EmptyString => None
      end
  end.

Definition is_decimal (c : ascii) : bool :=
  ((48 <=? N_of_ascii c) && (N_of_ascii c <=? 57))%N.

Fixpoint digits (acc : Z) (s : string) : Z * string :=
  match s with
  | String c rest =>
      if is_decimal c
      then digits (10 * acc + (Z.of_N (N_of_ascii c) - 48)) rest
      else (acc, s)
  | EmptyString => (acc, s)
  end.

(** The integer part of a number: [0], or digits the first of which is not
    [0]. *)
Definition integer (s : string) : option (Z * string) :=
  match s with
  | String c rest =>
      if Ascii.eqb c "0" then Some (0, rest)
      else if is_decimal c then Some (digits 0 s)
      else None
  | EmptyString => None
  end.

(** A fraction or an exponent follows: the number is a float. *)
Definition float_follows (s : string) : bool :=
  match s with
  | String c (String d rest) =>
      (Ascii.eqb c "." && is_decimal d)
      || ((Ascii.eqb c "e" || Ascii.eqb c "E")
          && (is_decimal d
              || ((Ascii.eqb d "+" || Ascii.eqb d "-")
                  && match rest with
                     | String e _ => is_decimal e
                     | EmptyString => false
                     end)))
  | _ => false
  end.

(** The scanner of the decoder, on a text that starts where a value has to
    start; [None] is for a text that is no JSON there.  A value that the
    model leaves out (a text, a float, an object) is refused in the same
    way.  [fuel] bounds the depth of the lists and the number of items of
    each. *)
Fixpoint scan_once (fuel : nat) (s : string) : option (pyvalue * string) :=
  match fuel with
  | O => None
  | S fuel =>
      let items :=
        fix items (n : nat) (s : string) (seen : list pyvalue)
            : option (pyvalue * string) :=
          match n with
          | O => None
          | S n =>
              match scan_once fuel s with
              | None => None
              | Some (v, rest) =>
                  match skip rest with
                  | String c rest =>
                      if Ascii.eqb c "]" then Some (PyList (seen ++ [v]), rest)
                      else if Ascii.eqb c "," then items n (skip rest) (seen ++ [v])
                      else None
                  | EmptyString => None
                  end
              end
          end in
      let number (negative : bool) (s : string) : option (pyvalue * string) :=
        match integer s with
        | Some (z, rest) =>
            if float_follows rest then None
            else Some (PyInt (if negative then - z else z), rest)
        | None => None
        end in
      match after "null" s, after "true" s, after "false" s, after "[" s,
            after "-" s with
      | Some rest, _, _, _, _ => Some (PyNone, rest)
      | _, Some rest, _, _, _ => Some (PyBool true, rest)
      | _, _, Some rest, _, _ => Some (PyBool false, rest)
      | _, _, _, Some rest, _ =>
          match after "]" (skip rest) with
          | Some rest => Some (PyList [], rest)
          | None => items fuel (skip rest) []
          end
      | _, _, _, _, Some rest => number true rest
      | _, _, _, _, _ => number false s
      end
  end.

(** [json.loads(s)]: whitespace, a value, whitespace, and nothing more; a
    text that is no JSON raises [ValueError].  Every list is one level of
    the text and every item one character at least, so that the length of
    the text is fuel enough. *)
Definition json_loads (s : string) : result pyvalue :=
  match scan_once (S (String.length s)) (skip s) with
  | Some (v, rest) =>
      match skip rest with
      | EmptyString => ok v
      | String _ _ => raise ValueError
      end
  | None => raise ValueError
  end.

End Json.

(** ** maasserver/api/scripts.py: download *)

Module Scripts.

(** A revision of a script's text ([VersionedTextFile]). *)
Record VersionedTextFile : Type := {
  vtf_id : Z;
  vtf_data : string;
  vtf_comment : string
}.

Record Script : Type := {
  script_id : Z;
  script_name : string;
  script : VersionedTextFile;
  default : bool
}.

Record HttpResponse : Type := {
  content : string;
  content_type : string
}.

(** A name is the list of its characters, all below 256.  Among them the
    decimal digits are [0] to [9]; [str.isdigit] holds of these and of the
    superscripts [²], [³] and [¹] (178, 179 and 185), which are digits but
    no decimal digits. *)
Definition is_decimal (c : ascii) : bool :=
  ((48 <=? N_of_ascii c) && (N_of_ascii c <=? 57))%N.

Definition is_digit (c : ascii) : bool :=
  is_decimal c
  || ((N_of_ascii c =? 178) || (N_of_ascii c =? 179) || (N_of_ascii c =? 185))%N.

Fixpoint all_digits (s : string) : bool :=
  match s with
  | EmptyString => true
  | String c s' => is_digit c && all_digits s'
  end.

(** [str.isdigit]. *)
Definition isdigit (s : string) : bool :=
  match s with
  | EmptyString => false
  | _ => all_digits s
  end.

Fixpoint all_decimal (s : string) : bool :=
  match s with
  | EmptyString => true
  | String c s' => is_decimal c && all_decimal s'
  end.

(** [str.isdecimal]. *)
Definition isdecimal (s : string) : bool :=
  match s with
  | EmptyString => false
  | _ => all_decimal s
  end.

Fixpoint int_of_digits (acc : Z) (s : string) : Z :=
  match s with
  | EmptyString => acc
  | String c s' => int_of_digits (10 * acc + (Z.of_N (N_of_ascii c) - 48)) s'
  end.

(** [int(name)] for a name of which [str.isdigit] holds: the number that
    the decimal digits write, and [ValueError] when one of the characters
    is no decimal digit. *)
Definition int (name : string) : result Z :=
  if isdecimal name then ok (int_of_digits 0 name) else raise ValueError.

(** [get_object_or_404(Script, ...)]: the one script that matches. *)
Definition get_object_or_404 (scripts : list Script) (p : Script -> bool)
    : result Script :=
  match List.filter p scripts with
  | [] => raise Http404
  | [s] => ok s
  | _ => raise MultipleObjectsReturned
  end.

Section Download.

(** [VersionedTextFile.previous_versions] (metadataserver.models) and the
    [Int] validator (formencode) are not part of the sources at hand; they
    are parameters.  The validator turns the text of a parameter into an
    integer, into [None] for an empty text, or raises. *)
Variable previous_versions : VersionedTextFile -> list VersionedTextFile.
Variable Int_to_python : string -> result (option Z).

(** Modelled from the spec: [maasserver.api.utils.get_optional_param] is not
    part of the sources at hand.  It returns the validated value of the
    parameter, and the default when the parameter is absent. *)
Definition get_optional_param (data : gmap string string) (key : string)
    (default : option Z) : result (option Z) :=
  match data !! key with
  | None => ok default
  | Some raw =>
      match Int_to_python raw with
      | inl _ => raise MAASAPIValidationError
      | inr v => ok v
      end
  end.

Definition download (scripts : list Script) (GET : gmap string string)
    (name : string) : result HttpResponse :=
  try! script :=
    (if isdigit name
     then try! id := int name in
          get_object_or_404 scripts (fun s => script_id s =? id)
     else get_object_or_404 scripts
            (fun s => String.eqb (script_name s) name)) in
  try! revision := get_optional_param GET "revision" None in
  try! revision :=
    (match revision with
     | None => get_optional_param GET "rev" None
     | Some _ => ok revision
     end) in
  match revision with
  | Some revision =>
      match find (fun rev => vtf_id rev =? revision)
                 (previous_versions (Scripts.script script)) with
      | Some rev =>
          ok {| content := vtf_data rev; content_type := "application/binary" |}
      | None => raise MAASAPIValidationError
      end
  | None =>
      ok {| content := vtf_data (Scripts.script script);
            content_type := "application/binary" |}
  end.

End Download.

End Scripts.

(** ** maasserver/models/macaddress.py: static addresses *)

Module MacAddress.

(** An address is its integer value; a network is the range of its
    addresses, and [ip in network] is membership in that range. *)
Record IPNetwork : Type := { first : Z; last : Z }.

Definition in_network (ip : Z) (net : IPNetwork) : bool :=
  (first net <=? ip) && (ip <=? last net).

(** [IPADDRESS_TYPE] (maasserver.enum). *)
Inductive IPADDRESS_TYPE : Type := AUTO | STICKY | USER_RESERVED | DHCP.

Definition is_sticky (t : IPADDRESS_TYPE) : bool :=
  match t with
  | STICKY => true
  | _ => false
  end.

Record NodeGroup : Type := {
  uuid : string;
  manages_dhcp : bool
}.

Record NodeGroupInterface : Type := {
  ngi_name : string;
  nodegroup : NodeGroup;
  network : option IPNetwork;
  subnet : option Z
}.

Record StaticIPAddress : Type := {
  sip_id : Z;
  ip : Z;
  alloc_type : IPADDRESS_TYPE;
  user : option string;
  sip_subnet : option Z
}.

(** The node of a MAC: what [get_cluster_interface] and [set_static_ip]
    read of it.  [parent], when set, gives the cluster interface of the
    parent's PXE MAC, [None] inside when the parent has no PXE MAC. *)
Record Node : Type := {
  hostname : string;
  installable : bool;
  primary_mac : option string;
  parent : option (option (option NodeGroupInterface))
}.

Record MACAddress : Type := {
  mac_address : string;
  node : option Node;
  cluster_interface : option NodeGroupInterface
}.

(** Calls made on other parts of the region, in the order made. *)
Inductive effect : Type :=
  | HostMapsUpdated (hostname : string) (ip_mapping : list (Z * string))
                    (nodegroups : list NodeGroup)
  | DnsZonesUpdated (cluster : option NodeGroup)
  | Warned (message : string).

(** The tables read and written: static addresses, the links between MACs
    (by address) and static addresses (by id), the clusters, and the dynamic
    ranges of the cluster interfaces. *)
Record database : Type := {
  static_ips : list StaticIPAddress;
  links : list (string * Z);
  nodegroups : list NodeGroup;
  dynamic_ranges : list IPNetwork;
  effects : list effect
}.

Definition with_effect (db : database) (e : effect) : database :=
  {| static_ips := static_ips db; links := links db;
     nodegroups := nodegroups db; dynamic_ranges := dynamic_ranges db;
     effects := effects db ++ [e] |}.

Definition find_cluster_interface_responsible_for_ip
    (cluster_interfaces : list NodeGroupInterface) (ip_address : Z)
    : option NodeGroupInterface :=
  find (fun interface =>
          match network interface with
          | Some net => in_network ip_address net
          | None => false
          end) cluster_interfaces.

(** Reading an attribute of [self.node] when there is no node raises. *)
Definition get_cluster_interface (self : MACAddress)
    : result (option NodeGroupInterface) :=
  match cluster_interface self with
  | Some ci => ok (Some ci)
  | None =>
      match node self with
      | None => raise AttributeError
      | Some n =>
          match installable n, parent n with
          | false, Some pxe_mac =>
              if decide (Some (mac_address self) = primary_mac n)
              then match pxe_mac with
                   | Some ci => ok ci
                   | None => raise AttributeError
                   end
              else ok None
          | _, _ => ok None
          end
      end
  end.

Definition _get_dhcp_managed_clusters (db : database) (fabric : option string)
    : result (list NodeGroup) :=
  match fabric with
  | Some _ => raise NotImplementedError
  | None => ok (List.filter manages_dhcp (nodegroups db))
  end.

(** [None] stands for the master cluster of [ensure_master]. *)
Definition _get_device_cluster_or_default (self : MACAddress)
    : result (option NodeGroup) :=
  try! cluster_interface := get_cluster_interface self in
  ok (option_map nodegroup cluster_interface).

Definition update_related_dns_zones (db : database) (self : MACAddress)
    : result database :=
  try! cluster := _get_device_cluster_or_default self in
  ok (with_effect db (DnsZonesUpdated cluster)).

(** Modelled from the spec: [raise_if_address_inside_dynamic_range]
    (maasserver.models.nodegroupinterface) is not part of the sources at
    hand.  The address must not lie within any dynamic range, else the call
    fails as forbidden. *)
Definition raise_if_address_inside_dynamic_range (db : database)
    (requested_address : Z) (fabric : option string) : result unit :=
  match fabric with
  | Some _ => raise NotImplementedError
  | None =>
      if existsb (in_network requested_address) (dynamic_ranges db)
      then raise StaticIPAddressForbidden
      else ok tt
  end.

Definition next_sip_id (db : database) : Z :=
  1 + fold_right Z.max 0 (map sip_id (static_ips db)).

(** [StaticIPAddress.objects.get_or_create(ip=..., defaults=...)]. *)
Definition get_or_create (db : database) (requested_address : Z)
    (alloc : IPADDRESS_TYPE) (owner : option string) (sub : option Z)
    : result (database * StaticIPAddress * bool) :=
  match List.filter (fun s => ip s =? requested_address) (static_ips db) with
  | [] =>
      let new := {| sip_id := next_sip_id db; ip := requested_address;
                    alloc_type := alloc; user := owner; sip_subnet := sub |} in
      ok ({| static_ips := static_ips db ++ [new]; links := links db;
             nodegroups := nodegroups db; dynamic_ranges := dynamic_ranges db;
             effects := effects db |}, new, true)
  | [existing] => ok (db, existing, false)
  | _ => raise MultipleObjectsReturned
  end.

(** [MACStaticIPAddressLink(mac_address=self, ip_address=static_ip).save()]. *)
Definition save_link (db : database) (self : MACAddress)
    (static_ip : StaticIPAddress) : database :=
  {| static_ips := static_ips db;
     links := links db ++ [(mac_address self, sip_id static_ip)];
     nodegroups := nodegroups db; dynamic_ranges := dynamic_ranges db;
     effects := effects db |}.

(** [static_ip.macaddress_set.get(mac_address=...)]: [None] stands for
    [MACAddress.DoesNotExist]. *)
Definition macaddress_set_get (db : database) (static_ip : StaticIPAddress)
    (mac : string) : result (option string) :=
  match List.filter (fun l => String.eqb (fst l) mac && (snd l =? sip_id static_ip))
                    (links db) with
  | [] => ok None
  | [l] => ok (Some (fst l))
  | _ => raise MultipleObjectsReturned
  end.

Definition set_static_ip (db : database) (self : MACAddress)
    (requested_address : Z) (user : option string)
    (fabric : option string) (update_host_maps : bool)
    : result (database * StaticIPAddress) :=
  match fabric with
  | Some _ => raise NotImplementedError
  | None =>
  try! cluster_interface := get_cluster_interface self in
  try! _ :=
    (match cluster_interface with
     | Some ci =>
         match network ci with
         | None => raise TypeError
         | Some net =>
             if negb (in_network requested_address net)
             then raise StaticIPAddressConflict
             else ok tt
         end
     | None => ok tt
     end) in
  try! _ := raise_if_address_inside_dynamic_range db requested_address fabric in
  let '(db, sub) :=
    match cluster_interface with
    | None =>
        (with_effect db (Warned "set_static_ip called without a cluster_interface"),
         None)
    | Some ci => (db, subnet ci)
    end in
  try! (db, static_ip, created) :=
    get_or_create db requested_address STICKY user sub in
  try! db :=
    (if created : bool then ok (save_link db self static_ip)
     else if negb (is_sticky (alloc_type static_ip))
     then raise StaticIPAddressUnavailable
     else
       try! linked := macaddress_set_get db static_ip (mac_address self) in
       match linked with
       | None => raise StaticIPAddressUnavailable
       | Some _ => ok db
       end) in
  try! db :=
    (if update_host_maps then
       try! relevant_clusters :=
         (match cluster_interface with
          | Some ci => ok [nodegroup ci]
          | None => _get_dhcp_managed_clusters db fabric
          end) in
       let ip_mapping := [(ip static_ip, mac_address self)] in
       match node self with
       | None => raise AttributeError
       | Some n =>
           let db := with_effect db
                       (HostMapsUpdated (hostname n) ip_mapping relevant_clusters) in
           update_related_dns_zones db self
       end
     else ok db) in
  ok (db, static_ip)
  end.

End MacAddress.

(** ** maasserver/forms_vlan.py: the VLAN form *)

Module FormsVLAN.

(** What a request holds for a field: nothing, a blank value, or a value. *)
Inductive submitted (A : Type) : Type :=
  | Omitted
  | Blank
  | Given (a : A).
Arguments Omitted {A}.
Arguments Blank {A}.
Arguments Given {A} _.

(** A VLAN with what the form reads of its surroundings: the rack
    controllers attached to it ([racks], by system id) and whether one of
    its subnets has a configured address range. *)
Record VLAN : Type := {
  vid : Z;
  name : string;
  mtu : Z;
  primary_rack : option string;
  secondary_rack : option string;
  dhcp_on : bool;
  racks : list string;
  ranged_subnet : bool
}.

Record form_data : Type := {
  data_name : submitted string;
  data_vid : submitted Z;
  data_mtu : submitted Z;
  data_primary_rack : submitted string;
  data_secondary_rack : submitted string;
  data_dhcp_on : submitted bool
}.

(** A field left out of an update keeps its value; a blank one is cleared. *)
Definition updated {A} (current : option A) (s : submitted A) : option A :=
  match s with
  | Omitted => current
  | Blank => None
  | Given a => Some a
  end.

Definition kept {A} (current : A) (s : submitted A) : A :=
  match s with
  | Given a => a
  | _ => current
  end.

Definition on_vlan (instance : VLAN) (s : submitted string) : bool :=
  match s with
  | Given rack => bool_decide (rack ∈ racks instance)
  | _ => true
  end.

(** Modelled from the spec: [VLANForm] (maasserver.forms_vlan) is not part
    of the sources at hand; this is the update of a VLAN as the design of
    the VLAN form describes it.  A [vid] must lie between 0 and 4095.  A
    rack that is set must be attached to the VLAN.  Setting [secondary_rack]
    to the rack that is, or becomes, the primary fails.  Clearing
    [primary_rack] while a secondary is set promotes the secondary and
    clears the secondary slot; so does setting [primary_rack] to the rack
    held as secondary.  Turning [dhcp_on] on needs a primary rack and a
    subnet with a configured range. *)
Definition update (instance : VLAN) (data : form_data) : result VLAN :=
  if negb (match data_vid data with
           | Given v => (0 <=? v) && (v <=? 4095)
           | _ => true
           end)
  then raise ValidationError
  else if negb (on_vlan instance (data_primary_rack data)
                && on_vlan instance (data_secondary_rack data))
  then raise ValidationError
  else
    let primary := updated (primary_rack instance) (data_primary_rack data) in
    let secondary := updated (secondary_rack instance) (data_secondary_rack data) in
    if match data_secondary_rack data with
       | Given rack => bool_decide (primary = Some rack)
       | _ => false
       end
    then raise ValidationError
    else
      let '(primary, secondary) :=
        match data_primary_rack data, secondary_rack instance with
        | Blank, Some rack => (Some rack, None)
        | Given rack, Some held =>
            if bool_decide (rack = held) then (Some rack, None)
            else (primary, secondary)
        | _, _ => (primary, secondary)
        end in
      let dhcp := kept (dhcp_on instance) (data_dhcp_on data) in
      if match data_dhcp_on data with
         | Given true =>
             negb (bool_decide (primary <> None) && ranged_subnet instance)
         | _ => false
         end
      then raise ValidationError
      else
        ok {| vid := kept (vid instance) (data_vid data);
              name := kept (name instance) (data_name data);
              mtu := kept (mtu instance) (data_mtu data);
              primary_rack := primary;
              secondary_rack := secondary;
              dhcp_on := dhcp;
              racks := racks instance;
              ranged_subnet := ranged_subnet instance |}.

End FormsVLAN.

(** ** maasserver/region_controller.py: the region controller service *)

Module RegionController.

(** Calls made by the service on the rest of the region. *)
Inductive call : Type :=
  | register (channel : string)
  | unregister (channel : string)
  | dns_update_all_zones
  | proxy_update_config
  | log_msg (message : string)
  | log_err (message : string).

(** Modelled from the spec: [RegionControllerService]
    (maasserver.region_controller) is not part of the sources at hand; this
    is its state machine as the design of the service describes it.  The
    state holds the two dirty flags, whether the repeating timer runs, the
    tracked deferred of the processing in flight, and the calls made. *)
Record service : Type := {
  needsDNSUpdate : bool;
  needsProxyUpdate : bool;
  running : bool;
  processingDefer : option unit;
  calls : list call
}.

Definition init : service :=
  {| needsDNSUpdate := false; needsProxyUpdate := false; running := false;
     processingDefer := None; calls := [] |}.

Definition called (s : service) (c : list call) : service :=
  {| needsDNSUpdate := needsDNSUpdate s; needsProxyUpdate := needsProxyUpdate s;
     running := running s; processingDefer := processingDefer s;
     calls := calls s ++ c |}.

(** Modelled from the spec: the timer is started unless it runs already. *)
Definition startProcessing (s : service) : service :=
  if running s then s
  else {| needsDNSUpdate := needsDNSUpdate s;
          needsProxyUpdate := needsProxyUpdate s;
          running := true; processingDefer := Some tt; calls := calls s |}.

Definition markDNSForUpdate (s : service) : service :=
  startProcessing
    {| needsDNSUpdate := true; needsProxyUpdate := needsProxyUpdate s;
       running := running s; processingDefer := processingDefer s;
       calls := calls s |}.

Definition markProxyForUpdate (s : service) : service :=
  startProcessing
    {| needsDNSUpdate := needsDNSUpdate s; needsProxyUpdate := true;
       running := running s; processingDefer := processingDefer s;
       calls := calls s |}.

(** Modelled from the spec: both callbacks are registered, then both flags
    are marked dirty. *)
Definition startService (s : service) : service :=
  let s := called s [register "sys_dns"; register "sys_proxy"] in
  markProxyForUpdate (markDNSForUpdate s).

Definition stopService (s : service) : service :=
  {| needsDNSUpdate := needsDNSUpdate s; needsProxyUpdate := needsProxyUpdate s;
     running := false; processingDefer := None;
     calls := calls s ++ [unregister "sys_dns"; unregister "sys_proxy"] |}.

(** Modelled from the spec: one pass.  A dirty flag is cleared and its
    regeneration attempted, success or failure being logged; if neither flag
    is dirty after the pass, the timer stops and the tracked deferred is
    cleared.  [dns_ok] and [proxy_ok] tell whether the regeneration of the
    DNS zones and of the proxy configuration succeed when attempted. *)
Definition process (dns_ok proxy_ok : bool) (s : service) : service :=
  let s :=
    if needsDNSUpdate s then
      called {| needsDNSUpdate := false; needsProxyUpdate := needsProxyUpdate s;
                running := running s; processingDefer := processingDefer s;
                calls := calls s |}
             [dns_update_all_zones;
              if dns_ok then log_msg "Successfully configured DNS."
              else log_err "Failed configuring DNS."]
    else s in
  let s :=
    if needsProxyUpdate s then
      called {| needsDNSUpdate := needsDNSUpdate s; needsProxyUpdate := false;
                running := running s; processingDefer := processingDefer s;
                calls := calls s |}
             [proxy_update_config;
              if proxy_ok then log_msg "Successfully configured proxy."
              else log_err "Failed configuring proxy."]
    else s in
  if needsDNSUpdate s || needsProxyUpdate s then s
  else {| needsDNSUpdate := false; needsProxyUpdate := false;
          running := false; processingDefer := None; calls := calls s |}.

(** The timer fires: a pass is made when the timer runs. *)
Definition tick (dns_ok proxy_ok : bool) (s : service) : service :=
  if running s then process dns_ok proxy_ok s else s.

Definition is_call (c d : call) : bool :=
  match c, d with
  | dns_update_all_zones, dns_update_all_zones => true
  | proxy_update_config, proxy_update_config => true
  | _, _ => false
  end.

End RegionController.

(** ** provisioningserver/security.py: the two scripts *)

Module SecurityScripts.
Import Security.

(** [str.strip()]: the characters below 256 for which [str.isspace]
    holds. *)
Definition isspace (c : ascii) : bool :=
  let n := N_of_ascii c in
  (((9 <=? n) && (n <=? 13)) || ((28 <=? n) && (n <=? 32))
   || (n =? 133) || (n =? 160))%N.

Fixpoint lstrip_chars (l : list ascii) : list ascii :=
  match l with
  | [] => []
  | c :: l' => if isspace c then lstrip_chars l' else l
  end.

Definition str_strip (u : string) : string :=
  string_of_list_ascii
    (rev (lstrip_chars (rev (lstrip_chars (list_ascii_of_string u))))).

(** Standard input: a terminal, where [input] returns the line typed
    without its newline, or is ended by end-of-file or by an interrupt; or
    not a terminal, where [readline] returns the first line, newline
    included, and the empty text at end-of-file. *)
Inductive tty_answer : Type :=
  | Typed (line : string)
  | EOFError
  | KeyboardInterrupt.

Inductive stdin : Type :=
  | Terminal (answer : tty_answer)
  | NotTerminal (first_line : string).

(** What is printed, by its format. *)
Inductive message : Type :=
  | EmptyLine
  | SecretCouldNotBeDecoded
  | SecretInstalledTo (secret_path : path)
  | SharedSecretIsNotInstalled
  | SharedSecretIsInstalled.

(** A run ends with [SystemExit], or with an exception that leaves the
    script; the filesystem is given for the runs that exit. *)
Record exited : Type := Exited {
  final : filesystem;
  printed : list message;
  code : Z
}.

Inductive escaped : Type :=
  | Raised (e : exn)
  | Interrupted.

Section Scripts.
Variable data_root : path.

Definition InstallSharedSecretScript_run (fs : filesystem) (input : stdin)
    : escaped + exited :=
  let decode_and_install (secret_hex : string) : escaped + exited :=
    match to_bin (str_strip secret_hex) with
    | inl BinasciiError => inr (Exited fs [SecretCouldNotBeDecoded] 1)
    | inl e => inl (Raised e)
    | inr secret =>
        match set_shared_secret_on_filesystem data_root fs secret with
        | inl e => inl (Raised e)
        | inr fs' =>
            inr (Exited fs'
                   [SecretInstalledTo (get_shared_secret_filesystem_path data_root)]
                   0)
        end
    end in
  match input with
  | Terminal EOFError => inr (Exited fs [EmptyLine] 1)
  | Terminal KeyboardInterrupt => inl Interrupted
  | Terminal (Typed secret_hex) => decode_and_install secret_hex
  | NotTerminal secret_hex => decode_and_install secret_hex
  end.

Definition CheckForSharedSecretScript_run (fs : filesystem)
    : escaped + exited :=
  match get_shared_secret_from_filesystem data_root fs with
  | inl e => inl (Raised e)
  | inr (fs', None) => inr (Exited fs' [SharedSecretIsNotInstalled] 1)
  | inr (fs', Some _) => inr (Exited fs' [SharedSecretIsInstalled] 0)
  end.

End Scripts.

End SecurityScripts.

(** ** maasserver/api/scripts.py: delete *)

Module ScriptsAdmin.
Import Scripts.

(** [rc.DELETED] of piston. *)
Inductive rc : Type := DELETED.

(** [NodeScriptHandler.delete].  The check of [@admin_method] wraps the
    method and is not part of it.  [script.delete()] removes the row of the
    script, by its id. *)
Definition delete (scripts : list Script) (name : string)
    : result (list Script * rc) :=
  try! script :=
    (if isdigit name
     then try! id := int name in
          get_object_or_404 scripts (fun s => script_id s =? id)
     else get_object_or_404 scripts
            (fun s => String.eqb (script_name s) name)) in
  if default script then raise MAASAPIValidationError
  else ok (List.filter (fun s => negb (script_id s =? script_id script)) scripts,
           DELETED).

End ScriptsAdmin.

(** ** maasserver/models/macaddress.py: leases and allocated addresses *)

Module Leases.
Import MacAddress.

#[export] Instance IPNetwork_eq_dec : EqDecision IPNetwork.
Proof. solve_decision. Defined.
#[export] Instance NodeGroup_eq_dec : EqDecision NodeGroup.
Proof. solve_decision. Defined.
#[export] Instance NodeGroupInterface_eq_dec : EqDecision NodeGroupInterface.
Proof. solve_decision. Defined.

(** The range columns of a cluster interface; [None] is a null column. *)
Record ranges : Type := {
  ip_range_low : option Z;
  ip_range_high : option Z;
  static_ip_range_low : option Z;
  static_ip_range_high : option Z
}.

(** What ends a call early: netaddr's [AddrFormatError], or an exception of
    Python's own. *)
Inductive failure : Type :=
  | AddrFormatError
  | Python (e : exn).

(** [IPRange(low, high)] of netaddr: a lower bound above the upper bound is
    refused. *)
Definition IPRange (low high : Z) : failure + IPNetwork :=
  if high <? low then inl AddrFormatError
  else inr {| first := low; last := high |}.

(** A legacy [Network], by the address of its network, with the MACs linked
    to it. *)
Record Network : Type := { network_ip : Z; macaddress_set : list string }.

Record state : Type := {
  macs : list MACAddress;
  networks : list Network;
  logged : list (string * string * string)
}.

(** [mac_address.save()]: the row of that address is replaced. *)
Definition save (st : state) (m : MACAddress) : state :=
  {| macs := map (fun x => if String.eqb (mac_address x) (mac_address m)
                           then m else x) (macs st);
     networks := networks st; logged := logged st |}.

(** [network.macaddress_set.add(mac)] on the [Network] of that address, if
    there is one. *)
Definition link_network (st : state) (net : IPNetwork) (mac : string) : state :=
  {| macs := macs st;
     networks :=
       (fix add (found : bool) (l : list Network) : list Network :=
          match l with
          | [] => []
          | n :: l' =>
              if negb found && (network_ip n =? first net)
              then {| network_ip := network_ip n;
                      macaddress_set :=
                        if existsb (String.eqb mac) (macaddress_set n)
                        then macaddress_set n
                        else macaddress_set n ++ [mac] |} :: add true l'
              else n :: add found l'
          end) false (networks st);
     logged := logged st |}.

(** The dictionary of the ranges of the configured interfaces: those with
    both bounds of the dynamic range. *)
Fixpoint interface_ranges (interfaces : list (NodeGroupInterface * ranges))
    : failure + list (NodeGroupInterface * (IPNetwork * option IPNetwork)) :=
  match interfaces with
  | [] => inr []
  | (interface, r) :: rest =>
      match ip_range_low r, ip_range_high r with
      | Some low, Some high =>
          match IPRange low high with
          | inl e => inl e
          | inr ip_range =>
              match
                (match static_ip_range_low r, static_ip_range_high r with
                 | Some slow, Some shigh =>
                     match IPRange slow shigh with
                     | inl e => inl e
                     | inr static_range => inr (Some static_range)
                     end
                 | _, _ => inr None
                 end)
              with
              | inl e => inl e
              | inr static_range =>
                  match interface_ranges rest with
                  | inl e => inl e
                  | inr d => inr ((interface, (ip_range, static_range)) :: d)
                  end
              end
          end
      | _, _ => interface_ranges rest
      end
  end.

Definition in_range (ip : Z) (r : IPNetwork * option IPNetwork) : bool :=
  in_network ip (fst r)
  || match snd r with
     | Some static_range => in_network ip static_range
     | None => false
     end.

(** The inner loop, for one lease of a MAC that is known: the MAC object is
    the one fetched before the loop, changed as the loop goes. *)
Fixpoint over_interfaces (st : state) (m : MACAddress) (ip : Z)
    (d : list (NodeGroupInterface * (IPNetwork * option IPNetwork)))
    : failure + (state * MACAddress) :=
  match d with
  | [] => inr (st, m)
  | (interface, r) :: rest =>
      if bool_decide (cluster_interface m = Some interface)
      then over_interfaces st m ip rest
      else if negb (in_range ip r)
      then over_interfaces st m ip rest
      else
        let m := {| mac_address := mac_address m; node := node m;
                    cluster_interface := Some interface |} in
        let st := save st m in
        match node m with
        | None => inl (Python AttributeError)
        | Some n =>
            let st := {| macs := macs st; networks := networks st;
                         logged := logged st
                                   ++ [(hostname n, mac_address m, ngi_name interface)] |} in
            let st := match network interface with
                      | Some net => link_network st net (mac_address m)
                      | None => st
                      end in
            over_interfaces st m ip rest
        end
  end.

Fixpoint over_leases (st : state) (leases : list (Z * string))
    (d : list (NodeGroupInterface * (IPNetwork * option IPNetwork)))
    : failure + state :=
  match leases with
  | [] => inr st
  | (ip, mac) :: rest =>
      match find (fun m => String.eqb (mac_address m) mac) (macs st) with
      | None => over_leases st rest d
      | Some m =>
          match over_interfaces st m ip d with
          | inl e => inl e
          | inr (st, _) => over_leases st rest d
          end
      end
  end.

(** [leases] is the dictionary of leases, as the list of its items;
    [cluster] is given by its interfaces. *)
Definition update_macs_cluster_interfaces (st : state)
    (leases : list (Z * string))
    (cluster : list (NodeGroupInterface * ranges)) : failure + state :=
  match interface_ranges cluster with
  | inl e => inl e
  | inr d => over_leases st leases d
  end.

Definition update_mac_cluster_interfaces (st : state) (ip : Z) (mac : string)
    (cluster : list (NodeGroupInterface * ranges)) : failure + state :=
  update_macs_cluster_interfaces st [(ip, mac)] cluster.

(** The addresses of a MAC, [self.ip_addresses.all()]: the rows its links
    lead to. *)
Definition ip_addresses (db : database) (self : MACAddress)
    : list StaticIPAddress :=
  List.filter
    (fun s => existsb (fun l => String.eqb (fst l) (mac_address self)
                                && (snd l =? sip_id s)) (links db))
    (static_ips db).

(** [allocations[interface] = sip] on a dictionary kept as the list of its
    items. *)
Fixpoint setitem (d : list (NodeGroupInterface * option StaticIPAddress))
    (k : NodeGroupInterface) (v : option StaticIPAddress)
    : list (NodeGroupInterface * option StaticIPAddress) :=
  match d with
  | [] => [(k, v)]
  | (k', v') :: d' =>
      if bool_decide (k' = k) then (k, v) :: d' else (k', v') :: setitem d' k v
  end.

Definition _map_allocated_addresses (db : database) (self : MACAddress)
    (cluster_interfaces : list NodeGroupInterface)
    : list (NodeGroupInterface * option StaticIPAddress) :=
  let allocations :=
    fold_left (fun d interface => setitem d interface None) cluster_interfaces [] in
  fold_left
    (fun allocations sip =>
       match find_cluster_interface_responsible_for_ip cluster_interfaces (ip sip) with
       | Some interface => setitem allocations interface (Some sip)
       | None => allocations
       end)
    (ip_addresses db self) allocations.

End Leases.

(** ** maascli/snappy.py: mode, settings, secret, prompts, validation *)

Module Snappy.
Import Security SecurityScripts.

(** *** Output and prompts *)

Definition newline : string := String "010" EmptyString.

(** [not value] is false for a text that is not empty. *)
Definition truthy (value : option string) : bool :=
  match value with
  | Some (String _ _) => true
  | _ => false
  end.

(** What a function that talks to the terminal ends with: it returns, with
    the answers not yet read; or [SystemExit] is raised; or an exception is;
    or it waits for an answer that has not been given.  [out] is what has
    been written to standard output, in order.  [OutOfFuel] is the end of the
    steps given to a loop. *)
Inductive interaction (A : Type) : Type :=
  | Returned (value : A) (rest : list tty_answer) (out : list string)
  | SystemExit (code : Z) (out : list string)
  | Raised (e : exn) (out : list string)
  | Waiting (out : list string)
  | OutOfFuel.
Arguments Returned {A}.
Arguments SystemExit {A}.
Arguments Raised {A}.
Arguments Waiting {A}.
Arguments OutOfFuel {A}.

(** [print_msg(msg, newline=True)], called with [newline] left out.  [msg]
    has no default: a call without argument raises [TypeError]. *)
Definition print_msg (msg : option string) (out : list string)
    : result (list string) :=
  match msg with
  | None => raise TypeError
  | Some msg => ok (out ++ [(msg ++ newline)%string])
  end.

(** [input(prompt)] writes the prompt and reads an answer; [print()] writes
    a newline. *)
Fixpoint read_input (prompt : string) (events : list tty_answer)
    (out : list string) : interaction string :=
  match events with
  | [] => Waiting (out ++ [prompt])
  | Typed data :: rest => Returned data rest (out ++ [prompt])
  | EOFError :: rest => read_input prompt rest (out ++ [prompt; newline])
  | KeyboardInterrupt :: rest => SystemExit 1 (out ++ [prompt; newline])
  end.

(** The loop of [required_prompt], [value] being what was read last. *)
Fixpoint required_prompt_loop (fuel : nat) (prompt : string)
    (help_text : option string) (value : option string)
    (events : list tty_answer) (out : list string)
    : interaction (option string) :=
  match fuel with
  | O => OutOfFuel
  | S fuel =>
      if negb (truthy value) || bool_decide (value = Some "help"%string)
      then
        match read_input prompt events out with
        | Returned value rest out =>
            if String.eqb value "help" && truthy help_text
            then
              match print_msg help_text out with
              | inl e => Raised e out
              | inr out =>
                  required_prompt_loop fuel prompt help_text (Some value) rest out
              end
            else required_prompt_loop fuel prompt help_text (Some value) rest out
        | SystemExit code out => SystemExit code out
        | Raised e out => Raised e out
        | Waiting out => Waiting out
        | OutOfFuel => OutOfFuel
        end
      else Returned value events out
  end.

(** Every turn of the loop reads an answer: one step more than there are
    answers is enough. *)
Definition required_prompt (prompt : string) (help_text : option string)
    (events : list tty_answer) : interaction (option string) :=
  required_prompt_loop (S (length events)) prompt help_text None events [].

Fixpoint prompt_for_choices_loop (fuel : nat) (prompt : string)
    (choices : list string) (default : option string)
    (help_text : option string) (invalid_msg : string)
    (events : list tty_answer) (out : list string) : interaction string :=
  match fuel with
  | O => OutOfFuel
  | S fuel =>
      let again (first second : option string) (rest : list tty_answer)
                (out : list string) : interaction string :=
        match print_msg first out with
        | inl e => Raised e out
        | inr out =>
            match print_msg second out with
            | inl e => Raised e out
            | inr out =>
                prompt_for_choices_loop fuel prompt choices default help_text
                  invalid_msg rest out
            end
        end in
      match read_input prompt events out with
      | Returned value rest out =>
          if negb (truthy (Some value))
          then
            match default with
            | Some d =>
                if truthy default then Returned d rest out
                else again (Some invalid_msg) None rest out
            | None => again (Some invalid_msg) None rest out
            end
          else if String.eqb value "help" && truthy help_text
          then again help_text None rest out
          else if negb (existsb (String.eqb value) choices)
          then again (Some invalid_msg) None rest out
          else Returned value rest out
      | other => other
      end
  end.

Definition prompt_for_choices (prompt : string) (choices : list string)
    (default : option string) (help_text : option string)
    (events : list tty_answer) : interaction string :=
  let invalid_msg := "Invalid input, try again"%string in
  let invalid_msg :=
    if truthy help_text then (invalid_msg ++ " or type 'help'")%string
    else invalid_msg in
  let invalid_msg := (invalid_msg ++ ".")%string in
  prompt_for_choices_loop (S (length events)) prompt choices default help_text
    invalid_msg events [].

(** *** Files *)

(** [os.path.exists]. *)
Definition exists_ (fs : filesystem) (p : path) : bool :=
  match fs !! p with
  | Some _ => true
  | None => false
  end.

(** [open(p, "r")]: the file that is opened, given by the text stored in
    it. *)
Definition open_read (fs : filesystem) (p : path) : result string :=
  match fs !! p with
  | None => raise (IOError ENOENT)
  | Some Directory => raise (IOError EISDIR)
  | Some (File _ text) => ok text
  end.

Definition CR : ascii := "013"%char.
Definition LF : ascii := "010"%char.

(** [fp.read()] on a file opened for reading as text: a carriage return,
    alone or before a line feed, is read as a line feed. *)
Fixpoint read (stored : string) : string :=
  match stored with
  | EmptyString => EmptyString
  | String c rest =>
      if Ascii.eqb c CR
      then
        match rest with
        | String d rest' =>
            if Ascii.eqb d LF then String LF (read rest')
            else String LF (read rest)
        | EmptyString => String LF EmptyString
        end
      else String c (read rest)
  end.

(** [open(p, "w")] and [write]: the directory of the file has to be there;
    the root directory always is.  The text is stored as it is: a line feed
    is written as such, and the encoding of the locale is taken to hold
    every character of the text, as UTF-8 does. *)
Definition open_write (fs : filesystem) (p : path) (text : string)
    : result filesystem :=
  match dirname p, fs !! dirname p with
  | _ :: _, None => raise (IOError ENOENT)
  | _ :: _, Some (File _ _) => raise (IOError ENOTDIR)
  | _, _ =>
      match fs !! p with
      | None => ok (<[p := File CREATE_MODE text]> fs)
      | Some Directory => raise (IOError EISDIR)
      | Some (File mode _) => ok (<[p := File mode text]> fs)
      end
  end.

(** [os.remove]. *)
Definition remove (fs : filesystem) (p : path) : result filesystem :=
  match fs !! p with
  | None => raise (IOError ENOENT)
  | Some Directory => raise (IOError EISDIR)
  | Some (File _ _) => ok (delete p fs)
  end.

Section Snap.

(** The directories that the environment of the snap names: the values of
    [SNAP_COMMON] and [SNAP_DATA], both set. *)
Variable SNAP_COMMON SNAP_DATA : path.

(** What a setting holds; [yaml.safe_load] on a file opened for reading,
    that is on the text stored in it, and [yaml.safe_dump] on the mapping of
    the settings; an empty document loads as [None]. *)
Variable value : Type.
Variable safe_load : string -> result (option (gmap string value)).
Variable safe_dump : gmap string value -> string.

Definition get_mode_filepath : path := SNAP_COMMON ++ ["snap_mode"%string].

Definition get_current_mode (fs : filesystem) : result string :=
  let filepath := get_mode_filepath in
  if exists_ fs filepath
  then try! fp := open_read fs get_mode_filepath in ok (str_strip (read fp))
  else ok "none"%string.

Definition set_current_mode (fs : filesystem) (mode : string)
    : result filesystem :=
  open_write fs get_mode_filepath (str_strip mode).

Definition get_config_data (fs : filesystem) : result (gmap string value) :=
  let regiond_conf_path := SNAP_DATA ++ ["regiond.conf"%string] in
  if exists_ fs regiond_conf_path
  then
    try! fp := open_read fs regiond_conf_path in
    try! data := safe_load fp in
    match data with
    | None => ok ∅
    | Some data => ok data
    end
  else ok ∅.

Definition get_config_value (fs : filesystem) (config_name : string)
    : result (option value) :=
  try! config_data := get_config_data fs in
  ok (config_data !! config_name).

Definition write_config_data (fs : filesystem)
    (config_data : gmap string value) (config_file : string)
    : result filesystem :=
  let regiond_conf_path := SNAP_DATA ++ [config_file] in
  open_write fs regiond_conf_path (safe_dump config_data).

Definition update_config_value (fs : filesystem) (config_name : string)
    (config_value : option value) : result filesystem :=
  try! config_data := get_config_data fs in
  let config_data :=
    match config_value with
    | None => delete config_name config_data
    | Some v => <[config_name := v]> config_data
    end in
  try! fs := write_config_data fs config_data "regiond.conf" in
  if String.eqb config_name "maas_url"
  then
    let config_data : gmap string value :=
      match config_value with
      | None => ∅
      | Some v => {[ "maas_url"%string := v ]}
      end in
    write_config_data fs config_data "rackd.conf"
  else ok fs.

Definition rpc_secret_path : path :=
  SNAP_DATA ++ ["var"; "lib"; "maas"; "secret"]%string.

Definition get_rpc_secret (fs : filesystem) : result (option string) :=
  let secret_path := rpc_secret_path in
  try! secret :=
    (if exists_ fs secret_path
     then try! fp := open_read fs secret_path in ok (Some (str_strip (read fp)))
     else ok None) in
  if truthy secret then ok secret else ok None.

Definition set_rpc_secret (fs : filesystem) (secret : option string)
    : result filesystem :=
  let secret_path := rpc_secret_path in
  match secret with
  | Some (String c s) => open_write fs secret_path (String c s)
  | _ => if exists_ fs secret_path then remove fs secret_path else ok fs
  end.

(** *** The checks of [cmd_config] *)

(** The options read by the checks; a flag left out is [None]. *)
Record options : Type := {
  mode : option string;
  maas_url : option string;
  database_host : option string;
  database_name : option string;
  database_user : option string;
  database_pass : option string;
  secret : option string
}.

Definition getattr (o : options) (flag : string) : result (option string) :=
  if String.eqb flag "maas_url" then ok (maas_url o)
  else if String.eqb flag "database_host" then ok (database_host o)
  else if String.eqb flag "database_name" then ok (database_name o)
  else if String.eqb flag "database_user" then ok (database_user o)
  else if String.eqb flag "database_pass" then ok (database_pass o)
  else if String.eqb flag "secret" then ok (secret o)
  else if String.eqb flag "mode" then ok (mode o)
  else raise AttributeError.

(** [cmd_config.required_options]; a mode that is no key raises
    [KeyError]. *)
Definition required_options (m : string) : result (list string) :=
  if String.eqb m "all" then ok ["maas_url"]%string
  else if String.eqb m "region+rack" then
    ok ["maas_url"; "database_host"; "database_name"; "database_user";
        "database_pass"]%string
  else if String.eqb m "region" then
    ok ["maas_url"; "database_host"; "database_name"; "database_user";
        "database_pass"]%string
  else if String.eqb m "rack" then ok ["maas_url"; "secret"]%string
  else if String.eqb m "none" then ok []
  else raise (KeyError m).

Definition setting_flags : list string :=
  ["maas_url"; "database_host"; "database_name"; "database_user";
   "database_pass"]%string.

(** [flag.replace('_', '-')]. *)
Fixpoint dashed (flag : string) : string :=
  match flag with
  | EmptyString => EmptyString
  | String c rest =>
      String (if Ascii.eqb c "_" then "-"%char else c) (dashed rest)
  end.

(** What a check ends with when it does not return: [sys.exit] after a
    message, or an exception. *)
Inductive refused : Type :=
  | Exit (message : string) (code : Z)
  | Uncaught (e : exn).

Fixpoint missing_flags (o : options) (flags : list string)
    : result (list string) :=
  match flags with
  | [] => ok []
  | flag :: rest =>
      try! given := getattr o flag in
      try! missing := missing_flags o rest in
      ok (if negb (truthy given)
          then ("--" ++ dashed flag)%string :: missing
          else missing)
  end.

Definition _validate_mode (fs : filesystem) (o : options) : refused + unit :=
  match mode o with
  | None => inr tt
  | Some m =>
      match get_current_mode fs with
      | inl e => inl (Uncaught e)
      | inr current =>
          if negb (String.eqb m current)
          then
            match (try! flags := required_options m in missing_flags o flags) with
            | inl e => inl (Uncaught e)
            | inr missing =>
                if (0 <? length missing)%nat
                then inl (Exit ("Changing mode to '" ++ m
                                ++ "' requires parameters: "
                                ++ String.concat ", " missing) 1)
                else inr tt
            end
          else inr tt
      end
  end.

Fixpoint invalid_flags (o : options) (running_mode : string)
    (flags : list string) : result (list string) :=
  match flags with
  | [] => ok []
  | flag :: rest =>
      try! required := required_options running_mode in
      try! given :=
        (if negb (existsb (String.eqb flag) required)
         then getattr o flag else ok None) in
      try! invalid := invalid_flags o running_mode rest in
      ok (if negb (existsb (String.eqb flag) required) && truthy given
          then ("--" ++ dashed flag)%string :: invalid
          else invalid)
  end.

Definition _validate_flags (o : options) (running_mode : string)
    : refused + unit :=
  match invalid_flags o running_mode (setting_flags ++ ["secret"%string]) with
  | inl e => inl (Uncaught e)
  | inr invalid =>
      if (0 <? length invalid)%nat
      then inl (Exit ("Following flags are not supported in '" ++ running_mode
                      ++ "' mode: " ++ String.concat ", " invalid) 1)
      else inr tt
  end.

End Snap.

End Snappy.

(** * Properties *)

(** ** Batching *)

Section Batching.
Import Tags.
Context {A : Type}.
Implicit Types (l things : list A) (k i j : nat).

(** Item [j] of [l[i::S k]] is item [i + j * S k] of [l]. *)
Lemma every_lookup k l : forall i j,
  every k i l !! j = l !! (i + j * S k)%nat.
Proof.
  induction l as [|x l IH]; intros i j; simpl.
  - reflexivity.
  - destruct i as [|i].
    + destruct j as [|j]; simpl; [reflexivity|].
      rewrite IH. f_equal; lia.
    + rewrite IH. reflexivity.
Qed.

Lemma every_length k l : forall i,
  length (every k i l) = ((length l + k - i) / S k)%nat.
Proof.
  induction l as [|x l IH]; intros i; cbn [every length].
  - symmetry. apply Nat.div_small. lia.
  - destruct i as [|i]; cbn [every length].
    + rewrite IH.
      replace (S (length l) + k - 0)%nat with (1 * S k + length l)%nat by lia.
      rewrite Nat.div_add_l by lia.
      replace (length l + k - k)%nat with (length l) by lia. lia.
    + rewrite IH. f_equal.
Qed.

Lemma every_short k l : forall i, (length l <= i)%nat -> every k i l = [].
Proof.
  induction l as [|x l IH]; intros i Hi; cbn [every length] in *.
  - reflexivity.
  - destruct i as [|i]; [lia|]. apply IH. lia.
Qed.

Lemma every_clamped k i l : every k (Nat.min i (length l)) l = every k i l.
Proof.
  destruct (Nat.le_gt_cases i (length l)) as [H|H].
  - rewrite Nat.min_l by exact H. reflexivity.
  - rewrite Nat.min_r by lia. rewrite !every_short by lia. reflexivity.
Qed.

(** The [S k] slices [l[0::S k]], ..., [l[k::S k]]. *)
Definition strides k l : list (list A) :=
  map (fun b => every k b l) (seq 0 (S k)).

Lemma strides_cons k x l :
  strides k (x :: l) =
  (x :: every k k l) :: map (fun b => every k b l) (seq 0 k).
Proof.
  unfold strides. cbn [seq map every]. f_equal.
  rewrite <- seq_shift, map_map. reflexivity.
Qed.

Lemma strides_snoc k l :
  strides k l = map (fun b => every k b l) (seq 0 k) ++ [every k k l].
Proof. unfold strides. rewrite seq_S, map_app. reflexivity. Qed.

(** Prepending an item rotates the slices, so their concatenation is a
    rearrangement of the list. *)
Lemma strides_Permutation k l : concat (strides k l) ≡ₚ l.
Proof.
  induction l as [|x l IH].
  - unfold strides. induction (seq 0 (S k)); simpl; auto.
  - rewrite strides_cons. cbn [concat app].
    apply Permutation_cons; [reflexivity|].
    rewrite <- IH at 2. rewrite strides_snoc, concat_app.
    cbn [concat]. rewrite app_nil_r. apply Permutation_app_comm.
Qed.

Lemma strides_sizes k l b :
  b ∈ strides k l ->
  (length l / S k <= length b <= length l / S k + 1)%nat.
Proof.
  unfold strides. rewrite list_elem_of_In, in_map_iff.
  intros (i & <- & Hi). apply in_seq in Hi. rewrite every_length.
  split.
  - apply Nat.Div0.div_le_mono. lia.
  - replace (length l / S k + 1)%nat with ((1 * S k + length l) / S k)%nat
      by (rewrite Nat.div_add_l; lia).
    apply Nat.Div0.div_le_mono. lia.
Qed.

Lemma gen_items_total {B C} (f : B -> result C) (g : B -> C) items fin :
  (forall a, a ∈ items -> f a = ok (g a)) ->
  gen_items f items fin = Generated (map g items) fin.
Proof.
  induction items as [|a items IH]; intros Hf; cbn [gen_items map].
  - reflexivity.
  - rewrite Hf by left. rewrite IH; [reflexivity|].
    intros b Hb. apply Hf. right. exact Hb.
Qed.

(** The number of batches computed by [gen_batch_slices]. *)
Definition batch_count (count size : Z) : Z :=
  count / size + (if 0 <? count mod size then 1 else 0).

Lemma batch_count_ceil count size :
  0 < size ->
  (batch_count count size - 1) * size < count <= batch_count count size * size.
Proof.
  intros Hs. unfold batch_count.
  pose proof (Z.div_mod count size ltac:(lia)) as Hdm.
  pose proof (Z.mod_pos_bound count size Hs) as Hm.
  destruct (0 <? count mod size) eqn:E.
  - apply Z.ltb_lt in E. nia.
  - apply Z.ltb_ge in E. nia.
Qed.

Lemma gen_batch_slices_yields count size :
  size <> 0 ->
  gen_batch_slices count size =
  Generated (map (fun b => Slice b (batch_count count size))
                 (xrange (batch_count count size))) None.
Proof.
  intros Hs. unfold gen_batch_slices, divmod.
  destruct (Z.eqb_spec size 0) as [|_]; [contradiction|]. reflexivity.
Qed.

Lemma getitem_stride things (b : nat) (bc : Z) :
  0 < bc ->
  getitem things (Slice (Z.of_nat b) bc) =
  ok (every (Z.to_nat (bc - 1)) b things).
Proof.
  intros Hbc. unfold getitem. cbn [start step].
  destruct (Z.eqb_spec bc 0) as [|_]; [lia|].
  destruct (Z.ltb_spec 0 bc) as [_|]; [|lia].
  destruct (Z.ltb_spec (Z.of_nat b) 0) as [|_]; [lia|].
  rewrite <- Nat2Z.inj_min, Nat2Z.id, every_clamped. reflexivity.
Qed.

Lemma gen_batches_strides things size :
  0 < size -> things <> [] ->
  gen_batches things size =
  Generated
    (strides (Z.to_nat (batch_count (Z.of_nat (length things)) size - 1)) things)
    None.
Proof.
  intros Hs Hne. unfold gen_batches, gen_map.
  rewrite gen_batch_slices_yields by lia. cbn [yielded raised].
  set (bc := batch_count _ _).
  assert (0 < bc) as Hbc.
  { pose proof (batch_count_ceil (Z.of_nat (length things)) size Hs).
    fold bc in H. destruct things; [congruence|]. cbn [length] in H. nia. }
  unfold xrange. rewrite map_map.
  rewrite (gen_items_total _
             (fun b => every (Z.to_nat (bc - 1)) (Z.to_nat (start b)) things)).
  - rewrite !map_map. unfold strides. cbn [start].
    replace (S (Z.to_nat (bc - 1))) with (Z.to_nat bc) by lia.
    f_equal. apply map_ext. intros b. rewrite Nat2Z.id. reflexivity.
  - intros s. rewrite list_elem_of_In, in_map_iff. intros (b & <- & _).
    cbn [start]. rewrite Nat2Z.id. apply getitem_stride. exact Hbc.
Qed.

Lemma gen_batches_empty size :
  gen_batches (@nil A) size =
  Generated [] (if size =? 0 then Some ZeroDivisionError else None).
Proof.
  unfold gen_batches, gen_map, gen_batch_slices, divmod. cbn [length].
  destruct (Z.eqb_spec size 0) as [->|Hs]; [reflexivity|].
  cbn [Z.of_nat]. rewrite Z.div_0_l, Z.mod_0_l by exact Hs. reflexivity.
Qed.

Lemma every_all l : every 0 0 l = l.
Proof. induction l as [|x l IH]; cbn [every]; congruence. Qed.

Lemma batch_count_small count size :
  0 < count <= size -> batch_count count size = 1.
Proof.
  intros H. unfold batch_count.
  destruct (Z.eq_dec count size) as [->|Hne].
  - rewrite Z.div_same, Z.mod_same by lia. reflexivity.
  - rewrite Z.div_small, Z.mod_small by lia.
    destruct (Z.ltb_spec 0 count); lia.
Qed.

(** C2: for a positive batch size, [gen_batch_slices] and [gen_batches] end
    normally and produce [ceil(count / size)] batches (the integer [n] with
    [(n - 1) * size < count <= n * size]); the batches concatenated are a
    rearrangement of the input, so every input item sits in exactly one
    batch, item [j] of batch [b] being item [b + j * n] of the input; the
    lengths of two batches differ by at most one; and 250 items with batch
    size 100 give three batches of 84, 83 and 83 items. *)
Theorem gen_batches_partition things size :
  0 < size ->
  let count := Z.of_nat (length things) in
  let slices := gen_batch_slices count size in
  let batches := gen_batches things size in
  raised slices = None /\ raised batches = None /\
  length (yielded batches) = length (yielded slices) /\
  (exists n : Z, Z.of_nat (length (yielded batches)) = n /\
                 (n - 1) * size < count <= n * size) /\
  concat (yielded batches) ≡ₚ things /\
  (forall b batch j,
     yielded batches !! b = Some batch ->
     batch !! j = things !! (b + j * length (yielded batches))%nat) /\
  (forall b1 b2, b1 ∈ yielded batches -> b2 ∈ yielded batches ->
                 (length b1 <= length b2 + 1)%nat) /\
  (count = 250 -> size = 100 ->
   map length (yielded batches) = [84; 83; 83]%nat).
Proof.
  intros Hs count slices batches.
  pose proof (batch_count_ceil count size Hs) as Hceil.
  subst slices batches. rewrite gen_batch_slices_yields by lia.
  cbn [yielded raised]. unfold xrange. rewrite !length_map, length_seq.
  destruct (decide (things = [])) as [Hnil|Hne].
  - subst things. rewrite gen_batches_empty. destruct (Z.eqb_spec size 0); [lia|].
    cbn [yielded raised length]. subst count. cbn [length Z.of_nat] in *.
    assert (batch_count 0 size = 0) as Hbc.
    { unfold batch_count. rewrite Z.div_0_l, Z.mod_0_l by lia. reflexivity. }
    change (Z.of_nat 0) with 0 in *.
    rewrite Hbc. repeat split; try reflexivity.
    + exists 0. cbn. lia.
    + intros b batch j Hb. inversion Hb.
    + intros b1 b2 Hb1. inversion Hb1.
    + lia.
  - rewrite gen_batches_strides by assumption.
    cbn [yielded raised]. fold count.
    set (k := Z.to_nat (batch_count count size - 1)).
    assert (0 < batch_count count size) as Hpos.
    { destruct things; [congruence|]. subst count. cbn [length] in *. nia. }
    assert (length (strides k things) = Z.to_nat (batch_count count size)) as Hlen.
    { unfold strides. rewrite length_map, length_seq. lia. }
    repeat split; try reflexivity.
    + exact Hlen.
    + exists (batch_count count size). split; [lia|exact Hceil].
    + apply strides_Permutation.
    + intros b batch j Hb. rewrite Hlen. unfold strides in Hb.
      rewrite list_lookup_fmap in Hb.
      destruct (seq 0 (S k) !! b) as [i|] eqn:Hi; [|discriminate].
      apply lookup_seq in Hi as [-> _]. injection Hb as <-.
      replace (Z.to_nat (batch_count count size)) with (S k) by (subst k; lia).
      apply every_lookup.
    + intros b1 b2 H1 H2.
      pose proof (strides_sizes _ _ _ H1). pose proof (strides_sizes _ _ _ H2). lia.
    + intros Hc ->. subst k. rewrite Hc. unfold strides.
      change (Z.to_nat (batch_count 250 100 - 1)) with 2%nat.
      cbn [seq map]. rewrite !every_length.
      assert (length things = 250%nat) as -> by lia. reflexivity.
Qed.

(** C10: when the items fit in one batch ([0 < count <= size]) the only
    batch is the input list itself, in its order; an empty input yields no
    batch, and for a non-zero batch size the generator then ends normally. *)
Theorem gen_batches_single_or_empty things size :
  let count := Z.of_nat (length things) in
  (0 < count <= size -> gen_batches things size = Generated [things] None) /\
  (count = 0 ->
   yielded (gen_batches things size) = [] /\
   yielded (gen_batch_slices count size) = [] /\
   (size <> 0 -> raised (gen_batches things size) = None)).
Proof.
  intros count. split.
  - intros H. rewrite gen_batches_strides.
    + fold count. rewrite batch_count_small by exact H.
      unfold strides. cbn [Z.to_nat Z.sub Z.opp Z.add Z.pos_sub seq map].
      rewrite every_all. reflexivity.
    + lia.
    + intros ->. subst count. cbn [length] in H. lia.
  - intros H. assert (things = []) as -> by (destruct things; [reflexivity|subst count; cbn [length] in H; lia]).
    rewrite gen_batches_empty. cbn [yielded raised]. split; [reflexivity|]. split.
    + subst count. cbn [length Z.of_nat]. unfold gen_batch_slices, divmod.
      destruct (Z.eqb_spec size 0) as [->|Hs]; [reflexivity|].
      rewrite Z.div_0_l, Z.mod_0_l by exact Hs. reflexivity.
    + intros Hs. destruct (Z.eqb_spec size 0); [contradiction|reflexivity].
Qed.

End Batching.

Lemma gen_batches_partition_witness :
  concat (yielded (Tags.gen_batches [10; 20; 30; 40; 50]%nat 2)) ≡ₚ [10; 20; 30; 40; 50]%nat
  /\ map length (yielded (Tags.gen_batches [10; 20; 30; 40; 50]%nat 2)) = [2; 2; 1]%nat.
Proof.
  split.
  - apply (gen_batches_partition [10; 20; 30; 40; 50]%nat 2). lia.
  - reflexivity.
Defined.

Lemma gen_batches_single_or_empty_witness :
  Tags.gen_batches [7; 8; 9]%nat 3 = Generated [[7; 8; 9]%nat] None /\
  yielded (Tags.gen_batches (@nil nat) 3) = [].
Proof.
  split.
  - apply (gen_batches_single_or_empty [7; 8; 9]%nat 3). cbn. lia.
  - apply (gen_batches_single_or_empty (@nil nat) 3). reflexivity.
Defined.

(** ** The shared secret *)

Section SharedSecretFacts.
Import Security.

Lemma bind_ok {B C} (r : result B) (k : B -> result C) (c : C) :
  bind r k = ok c -> exists b, r = ok b /\ k b = ok c.
Proof. destruct r as [e|b]; cbn; [discriminate|eauto]. Qed.

Lemma hex_digits_of_byte (c : byte) :
  hex_value (hex_digit (Byte.to_N c / 16)) = Some (Byte.to_N c / 16)%N /\
  hex_value (hex_digit (Byte.to_N c mod 16)) = Some (Byte.to_N c mod 16)%N /\
  byte_of (16 * (Byte.to_N c / 16) + Byte.to_N c mod 16) = c.
Proof. destruct c; vm_compute; auto. Qed.

Lemma a2b_hex_b2a_hex (b : list byte) : a2b_hex (b2a_hex b) = ok b.
Proof.
  induction b as [|c b IH]; [reflexivity|].
  cbn [b2a_hex a2b_hex].
  destruct (hex_digits_of_byte c) as (-> & -> & Hc).
  rewrite IH. cbn [bind ok]. rewrite Hc. reflexivity.
Qed.

(** What [b2a_hex] emits: ASCII characters that are not whitespace. *)
Definition plain (c : byte) : Prop :=
  (Byte.to_N c <? 128)%N = true /\ is_space c = false.

Lemma hex_digit_plain (c : byte) :
  plain (hex_digit (Byte.to_N c / 16)) /\ plain (hex_digit (Byte.to_N c mod 16)).
Proof. destruct c; vm_compute; auto. Qed.

Lemma b2a_hex_plain (b : list byte) : Forall plain (b2a_hex b).
Proof.
  induction b as [|c b IH]; cbn [b2a_hex]; [constructor|].
  destruct (hex_digit_plain c).
  constructor; [assumption|]. constructor; assumption.
Qed.

Lemma ascii_byte_ascii (c : byte) : ascii_byte (byte_ascii c) = c.
Proof. destruct c; reflexivity. Qed.

Lemma N_of_byte_ascii (c : byte) : N_of_ascii (byte_ascii c) = Byte.to_N c.
Proof. destruct c; reflexivity. Qed.

Lemma decode_encode_ascii (b : list byte) :
  Forall plain b ->
  exists u, decode_ascii b = ok u /\ encode_ascii u = ok b.
Proof.
  induction 1 as [|c b [Hc _] _ (u & Hd & He)].
  - exists EmptyString. split; reflexivity.
  - exists (String (byte_ascii c) u). cbn [decode_ascii encode_ascii].
    rewrite N_of_byte_ascii, Hc, Hd, He. cbn [bind ok].
    rewrite ascii_byte_ascii. split; reflexivity.
Qed.

Lemma lstrip_plain (b : list byte) : Forall plain b -> lstrip b = b.
Proof. destruct 1 as [|c b [_ Hc] _]; cbn [lstrip]; [|rewrite Hc]; reflexivity. Qed.

Lemma strip_plain (b : list byte) : Forall plain b -> strip b = b.
Proof.
  intros H. unfold strip. rewrite (lstrip_plain b H).
  rewrite lstrip_plain by (apply Forall_rev; exact H).
  apply rev_involutive.
Qed.

(** The hexadecimal text of a secret decodes to the secret. *)
Lemma to_bin_to_hex (secret : list byte) :
  exists u, to_hex secret = ok u /\ to_bin u = ok secret.
Proof.
  destruct (decode_encode_ascii _ (b2a_hex_plain secret)) as (u & Hd & He).
  exists u. split; [exact Hd|]. unfold to_bin. rewrite He. cbn [bind ok].
  rewrite strip_plain by apply b2a_hex_plain. apply a2b_hex_b2a_hex.
Qed.

(** The directories [makedirs_from] walks through. *)
Fixpoint chain (done todo : path) : list path :=
  match todo with
  | [] => []
  | c :: todo' => (done ++ [c]) :: chain (done ++ [c]) todo'
  end.

Lemma chain_length done todo d :
  d ∈ chain done todo -> (length d <= length done + length todo)%nat.
Proof.
  revert done. induction todo as [|c todo IH]; intros done; cbn [chain].
  - intros H. inversion H.
  - rewrite elem_of_cons. intros [->|H].
    + rewrite length_app. cbn. lia.
    + apply IH in H. rewrite length_app in H. cbn in *. lia.
Qed.

Lemma mkdir_exist_ok_keeps (fs fs' : filesystem) d last p x :
  mkdir_exist_ok fs d last = ok fs' -> fs !! p = Some x -> fs' !! p = Some x.
Proof.
  unfold mkdir_exist_ok. destruct (fs !! d) as [[]|] eqn:E; intros H Hp;
    try discriminate; injection H as <-; [exact Hp|].
  destruct (decide (d = p)) as [->|Hne]; [congruence|].
  rewrite lookup_insert_ne by exact Hne. exact Hp.
Qed.

Lemma mkdir_exist_ok_there (fs fs' : filesystem) d last :
  mkdir_exist_ok fs d last = ok fs' -> fs' !! d = Some Directory.
Proof.
  unfold mkdir_exist_ok. destruct (fs !! d) as [[]|] eqn:E; intros H;
    try discriminate; injection H as <-; [exact E|].
  apply lookup_insert_eq.
Qed.

Lemma makedirs_from_keeps todo : forall (fs fs' : filesystem) done p x,
  makedirs_from fs done todo = ok fs' -> fs !! p = Some x -> fs' !! p = Some x.
Proof.
  induction todo as [|c todo IH]; intros fs fs' done p x; cbn [makedirs_from].
  - intros [= <-]. auto.
  - intros H Hp. apply bind_ok in H as (fs1 & H1 & H2).
    eapply IH; [exact H2|]. eapply mkdir_exist_ok_keeps; eassumption.
Qed.

Lemma makedirs_from_creates todo : forall (fs fs' : filesystem) done,
  makedirs_from fs done todo = ok fs' ->
  Forall (fun d => fs' !! d = Some Directory) (chain done todo).
Proof.
  induction todo as [|c todo IH]; intros fs fs' done; cbn [makedirs_from chain].
  - constructor.
  - intros H. apply bind_ok in H as (fs1 & H1 & H2). constructor.
    + eapply makedirs_from_keeps; [exact H2|].
      eapply mkdir_exist_ok_there; exact H1.
    + eapply IH; exact H2.
Qed.

Lemma makedirs_from_present todo : forall (fs : filesystem) done,
  Forall (fun d => fs !! d = Some Directory) (chain done todo) ->
  makedirs_from fs done todo = ok fs.
Proof.
  induction todo as [|c todo IH]; intros fs done; cbn [makedirs_from chain].
  - reflexivity.
  - intros H. inversion H as [|? ? Hd Hrest]; subst.
    unfold mkdir_exist_ok. rewrite Hd. cbn [bind ok]. apply IH. exact Hrest.
Qed.

Variable data_root : path.

Let secret_path := get_shared_secret_filesystem_path data_root.

Lemma dirname_secret_path :
  dirname secret_path = data_root ++ ["var"; "lib"; "maas"]%string.
Proof.
  unfold secret_path, get_shared_secret_filesystem_path, get_data_path, dirname.
  rewrite removelast_app by discriminate. reflexivity.
Qed.

Lemma secret_path_not_a_directory_of_its_own d :
  d ∈ chain [] (dirname secret_path) -> d <> secret_path.
Proof.
  intros H ->. apply chain_length in H. rewrite dirname_secret_path in H.
  unfold secret_path, get_shared_secret_filesystem_path, get_data_path in H.
  rewrite !length_app in H. cbn in H. lia.
Qed.

Lemma set_shared_secret_stores (fs fs' : filesystem) secret :
  set_shared_secret_on_filesystem data_root fs secret = ok fs' ->
  exists u, to_hex secret = ok u /\
            fs' !! secret_path = Some (File 416 u) /\
            makedirs fs' (dirname secret_path) = ok fs'.
Proof.
  unfold set_shared_secret_on_filesystem. fold secret_path. intros H.
  apply bind_ok in H as (fs1 & Hmk & H).
  apply bind_ok in H as (u & Hu & H).
  apply bind_ok in H as (fs2 & Hopen & Hwrite).
  exists u. split; [exact Hu|].
  assert (exists t, fs2 = <[secret_path := File 416 t]> fs1) as (t & ->).
  { unfold open_append_fchmod in Hopen.
    destruct (fs1 !! secret_path) as [[]|]; try discriminate;
      injection Hopen as <-; eauto. }
  unfold write_text_file in Hwrite. rewrite lookup_insert_eq in Hwrite.
  injection Hwrite as <-. rewrite insert_insert_eq.
  split; [apply lookup_insert_eq|].
  apply makedirs_from_present.
  apply makedirs_from_creates in Hmk.
  rewrite Forall_forall in Hmk |- *. intros d Hd.
  rewrite lookup_insert_ne.
  - apply Hmk. exact Hd.
  - intros Heq. eapply secret_path_not_a_directory_of_its_own; [|symmetry; exact Heq].
    exact Hd.
Qed.

(** C4: a secret written by [set_shared_secret_on_filesystem] is stored as
    its hexadecimal text and read back, byte for byte, by
    [get_shared_secret_from_filesystem]; with no secret file the read returns
    [None]; any other I/O failure of the read, and a failure to create the
    directory, is raised to the caller. *)
Theorem shared_secret_roundtrip (fs : filesystem) :
  (forall secret fs',
     set_shared_secret_on_filesystem data_root fs secret = ok fs' ->
     get_shared_secret_from_filesystem data_root fs' = ok (fs', Some secret) /\
     exists u mode, fs' !! secret_path = Some (File mode u) /\
                    to_hex secret = ok u) /\
  (forall fs1,
     makedirs fs (dirname secret_path) = ok fs1 ->
     fs1 !! secret_path = None ->
     get_shared_secret_from_filesystem data_root fs = ok (fs1, None)) /\
  (forall fs1 errno,
     makedirs fs (dirname secret_path) = ok fs1 ->
     read_text_file fs1 secret_path = raise (IOError errno) ->
     errno <> ENOENT ->
     get_shared_secret_from_filesystem data_root fs = raise (IOError errno)) /\
  (forall e,
     makedirs fs (dirname secret_path) = raise e ->
     get_shared_secret_from_filesystem data_root fs = raise e).
Proof.
  split; [|split; [|split]].
  - intros secret fs' Hset.
    destruct (set_shared_secret_stores _ _ _ Hset) as (u & Hu & Hfile & Hmk).
    split; [|eauto].
    unfold get_shared_secret_from_filesystem. fold secret_path.
    rewrite Hmk. cbn [bind ok]. unfold read_text_file. rewrite Hfile. cbn [bind ok].
    destruct (to_bin_to_hex secret) as (u' & Hu' & Hbin).
    assert (u' = u) as -> by (unfold ok in *; congruence).
    rewrite Hbin. reflexivity.
  - intros fs1 Hmk Hnone.
    unfold get_shared_secret_from_filesystem. fold secret_path.
    rewrite Hmk. cbn [bind ok]. unfold read_text_file. rewrite Hnone.
    reflexivity.
  - intros fs1 errno Hmk Hread Hne.
    unfold get_shared_secret_from_filesystem. fold secret_path.
    rewrite Hmk. cbn [bind ok]. rewrite Hread. unfold raise.
    destruct (Z.eqb_spec errno ENOENT); [contradiction|reflexivity].
  - intros e Hmk.
    unfold get_shared_secret_from_filesystem. fold secret_path.
    rewrite Hmk. reflexivity.
Qed.

End SharedSecretFacts.

Lemma shared_secret_roundtrip_witness :
  let fs' := <[ ["srv"; "var"; "lib"; "maas"; "secret"]%string := Security.File 416 "00ff10" ]>
             (<[ ["srv"; "var"; "lib"; "maas"]%string := Security.Directory ]>
             (<[ ["srv"; "var"; "lib"]%string := Security.Directory ]>
             (<[ ["srv"; "var"]%string := Security.Directory ]>
             (<[ ["srv"]%string := Security.Directory ]> ∅)))) in
  Security.set_shared_secret_on_filesystem ["srv"%string] ∅ [x00; xff; x10] = ok fs' /\
  Security.get_shared_secret_from_filesystem ["srv"%string] fs' =
    ok (fs', Some [x00; xff; x10]) /\
  Security.get_shared_secret_from_filesystem ["srv"%string]
    {[ ["srv"; "var"; "lib"; "maas"; "secret"]%string := Security.Directory ]} =
    raise (IOError Security.EISDIR).
Proof.
  intros fs'.
  assert (Security.set_shared_secret_on_filesystem ["srv"%string] ∅ [x00; xff; x10] = ok fs')
    as Hset by (vm_compute; reflexivity).
  split; [exact Hset|]. split.
  - apply (shared_secret_roundtrip ["srv"%string] ∅). exact Hset.
  - destruct (shared_secret_roundtrip ["srv"%string]
      {[ ["srv"; "var"; "lib"; "maas"; "secret"]%string := Security.Directory ]})
      as (_ & _ & Hio & _).
    eapply Hio; [vm_compute; reflexivity | vm_compute; reflexivity | ].
    vm_compute. discriminate.
Defined.

(** ** The digest *)

Section DigestFacts.
Import Security.
Variable sha256 : list byte -> list byte.

Lemma HMAC_update_update (h : HMAC) (m1 m2 : list byte) :
  HMAC_update (HMAC_update h m1) m2 = HMAC_update h (m1 ++ m2).
Proof.
  unfold HMAC_update, hash_update. cbn [inner outer fed].
  rewrite app_assoc. reflexivity.
Qed.

Lemma HMAC_update_empty (h : HMAC) : HMAC_update h [] = h.
Proof.
  destruct h as [o [i]]. unfold HMAC_update, hash_update. cbn [inner outer fed].
  rewrite app_nil_r. reflexivity.
Qed.

(** C9: the digest is HMAC-SHA-256, keyed by the secret, of the message
    followed by the salt; it is therefore the same for every way of cutting
    the same bytes into a message and a salt, the empty salt included. *)
Theorem calculate_digest_concatenation (secret m1 m2 : list byte) :
  calculate_digest sha256 secret m1 m2 = hmac_sha256 sha256 secret (m1 ++ m2) /\
  calculate_digest sha256 secret m1 m2 = calculate_digest sha256 secret (m1 ++ m2) [] /\
  (forall m1' m2', m1' ++ m2' = m1 ++ m2 ->
     calculate_digest sha256 secret m1' m2' = calculate_digest sha256 secret m1 m2).
Proof.
  assert (forall a b, calculate_digest sha256 secret a b
                      = hmac_sha256 sha256 secret (a ++ b)) as Hspec.
  { intros a b. unfold calculate_digest. rewrite HMAC_update_update.
    unfold HMAC_digest, HMAC_update, HMAC_new, hash_digest, hash_update, hmac_sha256.
    cbn [inner outer fed app]. reflexivity. }
  split; [apply Hspec|]. split.
  - rewrite !Hspec, app_nil_r. reflexivity.
  - intros m1' m2' Heq. rewrite !Hspec, Heq. reflexivity.
Qed.

End DigestFacts.

Lemma calculate_digest_concatenation_witness :
  Security.calculate_digest (fun b => b) [x01] [x02; x03] [x04]
  = Security.calculate_digest (fun b => b) [x01] [x02] [x03; x04].
Proof.
  apply (calculate_digest_concatenation (fun b => b) [x01] [x02] [x03; x04]).
  reflexivity.
Defined.

(** ** The profile store *)

Section ProfileStore.
Import Config.
Variable value : Type.
Variable json_dumps : value -> string.
Variable json_loads : string -> result value.

Lemma find_deleted (t : table) n :
  find (named n) (List.filter (fun r => negb (named n r)) t) = None.
Proof.
  induction t as [|r t IH]; cbn [List.filter find]; [reflexivity|].
  destruct (named n r) eqn:E; cbn [negb find]; [exact IH|].
  rewrite E. exact IH.
Qed.

Lemma find_app_none {B} (p : B -> bool) (l1 l2 : list B) :
  find p l1 = None -> find p (l1 ++ l2) = find p l2.
Proof.
  induction l1 as [|x l1 IH]; cbn [find app]; [reflexivity|].
  destruct (p x); [discriminate|exact IH].
Qed.

Lemma named_refl n i d : named n (Row i n d) = true.
Proof. unfold named. cbn [name]. apply String.eqb_refl. Qed.

(** C5, as amended: what is read under a name after a value was stored
    under it is what [json.loads] makes of the text that [json.dumps] made
    of the value, whatever rows the table had: it is the value stored
    whenever JSON gives that value back.  The name is among the enumerated
    names, and once the name is deleted reading it raises [KeyError]. *)
Theorem profile_roundtrip (t : table) (n : string) (v : value) :
  let stored := __setitem__ value json_dumps t n v in
  __getitem__ value json_loads stored n = json_loads (json_dumps v) /\
  (forall v', json_loads (json_dumps v) = ok v' ->
              __getitem__ value json_loads stored n = ok v') /\
  n ∈ __iter__ stored /\
  __getitem__ value json_loads (__delitem__ stored n) n = raise (KeyError n).
Proof.
  intros stored. subst stored.
  assert (__getitem__ value json_loads (__setitem__ value json_dumps t n v) n
          = json_loads (json_dumps v)) as Hread.
  { unfold __getitem__, __setitem__.
    rewrite find_app_none by apply find_deleted.
    cbn [find]. rewrite named_refl. reflexivity. }
  split; [exact Hread|]. split; [|split].
  - intros v' Hv'. rewrite Hread. exact Hv'.
  - unfold __iter__, __setitem__.
    rewrite map_app. apply elem_of_app. right. cbn [map name]. left.
  - unfold __getitem__, __delitem__, __setitem__.
    rewrite find_deleted. reflexivity.
Qed.

End ProfileStore.

Lemma profile_roundtrip_witness :
  let v := Json.PyList [Json.PyInt 1; Json.PyList [Json.PyNone; Json.PyBool true]] in
  let store := Config.__setitem__ Json.pyvalue Json.json_dumps [] "admin" v in
  Config.__getitem__ Json.pyvalue Json.json_loads store "admin" = ok v.
Proof.
  intros v store.
  destruct (profile_roundtrip Json.pyvalue Json.json_dumps Json.json_loads
              [] "admin" v) as (_ & Hsame & _).
  apply Hsame. vm_compute. reflexivity.
Defined.

(** C5, the claim as stated fails: a tuple is JSON-serializable, and what
    is read back after it was stored is a list, which is not equal to
    it. *)
Lemma profile_roundtrip_counterexample :
  let v := Json.PyTuple [Json.PyInt 1; Json.PyInt 2] in
  let store := Config.__setitem__ Json.pyvalue Json.json_dumps [] "admin" v in
  Config.__getitem__ Json.pyvalue Json.json_loads store "admin"
    = ok (Json.PyList [Json.PyInt 1; Json.PyInt 2]) /\
  Json.py_eq (Json.PyList [Json.PyInt 1; Json.PyInt 2]) v = false /\
  Config.__getitem__ Json.pyvalue Json.json_loads store "admin" <> ok v.
Proof. vm_compute. repeat split. discriminate. Qed.

(** ** Script download *)

Section ScriptDownload.
Import Scripts.
Variable previous_versions : VersionedTextFile -> list VersionedTextFile.
Variable Int_to_python : string -> result (option Z).

Abbreviation param := (get_optional_param Int_to_python).
Abbreviation download' := (download previous_versions Int_to_python).

(** The script that the name in the request designates. *)
Definition lookup (scripts : list Script) (name : string) : result Script :=
  if isdigit name
  then try! id := int name in
       get_object_or_404 scripts (fun s => script_id s =? id)
  else get_object_or_404 scripts (fun s => String.eqb (script_name s) name).

Definition binary (data : string) : HttpResponse :=
  {| content := data; content_type := "application/binary" |}.

(** The revision asked for: [revision], and [rev] only when [revision]
    gives none. *)
Definition requested (GET : gmap string string) (r : option Z) : Prop :=
  param GET "revision" None = ok r /\ r <> None \/
  param GET "revision" None = ok None /\ param GET "rev" None = ok r.

Lemma download_requested scripts GET name s r :
  lookup scripts name = ok s ->
  requested GET r ->
  download' scripts GET name =
  match r with
  | Some revision =>
      match find (fun rev => vtf_id rev =? revision) (previous_versions (script s)) with
      | Some rev => ok (binary (vtf_data rev))
      | None => raise MAASAPIValidationError
      end
  | None => ok (binary (vtf_data (script s)))
  end.
Proof.
  unfold lookup, download. intros -> Hreq. cbn [bind ok].
  destruct Hreq as [[-> Hr]|[-> ->]]; cbn [bind ok].
  - destruct r; [reflexivity|congruence].
  - reflexivity.
Qed.

(** C8, as amended: with no revision asked for, the download is the text of
    the latest revision; with a revision asked for through [revision], or
    through [rev] when [revision] gives none, it is the text of the revision
    of that id in the history, and a validation error when the history has
    none.  A value given for [revision] makes [rev] irrelevant; a [revision]
    that is there but validates to no value, as the empty text does, is as
    good as absent, and [rev] is consulted. *)
Theorem download_revision scripts GET name s :
  lookup scripts name = ok s ->
  (requested GET None ->
   download' scripts GET name = ok (binary (vtf_data (script s)))) /\
  (forall r rev,
     requested GET (Some r) ->
     rev ∈ previous_versions (script s) ->
     vtf_id rev = r ->
     exists rev',
       rev' ∈ previous_versions (script s) /\ vtf_id rev' = r /\
       download' scripts GET name = ok (binary (vtf_data rev')) /\
       (NoDup (map vtf_id (previous_versions (script s))) -> rev' = rev)) /\
  (forall r,
     requested GET (Some r) ->
     (forall rev, rev ∈ previous_versions (script s) -> vtf_id rev <> r) ->
     download' scripts GET name = raise MAASAPIValidationError) /\
  (forall r other,
     param GET "revision" None = ok (Some r) ->
     download' scripts (<["rev" := other]> GET) name = download' scripts GET name) /\
  (forall raw,
     GET !! "revision"%string = Some raw -> Int_to_python raw = ok None ->
     requested GET None \/ (exists r, requested GET (Some r))
     \/ param GET "rev" None = raise MAASAPIValidationError) /\
  (forall raw,
     GET !! "revision"%string = Some raw -> Int_to_python raw = ok None ->
     download' scripts GET name
     = download' scripts (delete "revision"%string GET) name).
Proof.
  intros Hs. split; [|split; [|split; [|split; [|split]]]].
  - intros Hreq. rewrite (download_requested _ _ _ _ _ Hs Hreq). reflexivity.
  - intros r rev Hreq Hin Hid.
    rewrite (download_requested _ _ _ _ _ Hs Hreq).
    destruct (find _ _) as [rev'|] eqn:Hfind.
    + apply find_some in Hfind as [Hin' Hid']. apply Z.eqb_eq in Hid'.
      exists rev'. split; [apply list_elem_of_In; exact Hin'|].
      split; [exact Hid'|]. split; [reflexivity|].
      intros Hnd. apply list_elem_of_In in Hin.
      revert Hnd Hin Hin' Hid Hid'. generalize (previous_versions (script s)).
      intros l. induction l as [|x l IH]; cbn [map In]; [tauto|].
      intros Hnd [->|Hin] [->|Hin'] Hid Hid'; try reflexivity.
      * exfalso. apply NoDup_cons in Hnd as [Hx _]. apply Hx.
        apply list_elem_of_In, in_map_iff. exists rev'. split; [congruence|exact Hin'].
      * exfalso. apply NoDup_cons in Hnd as [Hx _]. apply Hx.
        apply list_elem_of_In, in_map_iff. exists rev. split; [congruence|exact Hin].
      * apply NoDup_cons in Hnd as [_ Hnd]. apply IH; assumption.
    + exfalso. apply list_elem_of_In in Hin.
      eapply find_none in Hfind; [|exact Hin]. apply Z.eqb_neq in Hfind. contradiction.
  - intros r Hreq Hnone. rewrite (download_requested _ _ _ _ _ Hs Hreq).
    destruct (find _ _) as [rev'|] eqn:Hfind; [|reflexivity].
    apply find_some in Hfind as [Hin' Hid']. apply Z.eqb_eq in Hid'.
    exfalso. eapply Hnone; [apply list_elem_of_In; exact Hin'|exact Hid'].
  - intros r other Hrev.
    rewrite (download_requested scripts GET name s (Some r) Hs)
      by (left; split; [exact Hrev|discriminate]).
    apply (download_requested _ _ _ _ (Some r) Hs).
    left. split; [|discriminate].
    unfold get_optional_param in *. rewrite lookup_insert_ne by discriminate.
    exact Hrev.
  - intros raw Hraw Hnone.
    assert (param GET "revision" None = ok None) as Hrev
      by (unfold get_optional_param; rewrite Hraw, Hnone; reflexivity).
    destruct (param GET "rev" None) as [e|[r|]] eqn:Hr.
    + right. right. unfold get_optional_param in Hr.
      destruct (GET !! "rev"%string) as [raw'|]; [|discriminate].
      destruct (Int_to_python raw'); [symmetry; exact Hr|discriminate].
    + right. left. exists r. right. split; assumption.
    + left. right. split; assumption.
  - intros raw Hraw Hnone. unfold download.
    destruct (if isdigit name
              then try! id := int name in
                   get_object_or_404 scripts (fun s => script_id s =? id)
              else get_object_or_404 scripts
                     (fun s => String.eqb (script_name s) name)) as [e|sc];
      cbn [bind ok]; [reflexivity|].
    assert (param GET "revision" None = ok None) as ->
      by (unfold get_optional_param; rewrite Hraw, Hnone; reflexivity).
    assert (param (delete "revision"%string GET) "revision" None = ok None) as ->
      by (unfold get_optional_param; rewrite lookup_delete_eq; reflexivity).
    assert (param (delete "revision"%string GET) "rev" None = param GET "rev" None)
      as -> by (unfold get_optional_param; rewrite lookup_delete_ne by discriminate;
                reflexivity).
    reflexivity.
Qed.

End ScriptDownload.

Module DownloadExample.
Import Scripts.

Definition first_revision : VersionedTextFile :=
  {| vtf_id := 1; vtf_data := "echo one"; vtf_comment := "first" |}.
Definition second_revision : VersionedTextFile :=
  {| vtf_id := 2; vtf_data := "echo two"; vtf_comment := "second" |}.
Definition latest : VersionedTextFile :=
  {| vtf_id := 3; vtf_data := "echo three"; vtf_comment := "third" |}.

Definition history (v : VersionedTextFile) : list VersionedTextFile :=
  [latest; second_revision; first_revision].

Definition stored : Script :=
  {| script_id := 7; script_name := "smartctl"; script := latest;
     default := false |}.

(** The [Int] validator of formencode on the texts of the examples: the
    empty text is no value, [None]; a decimal text is its number; another
    text is refused. *)
Definition validate (raw : string) : result (option Z) :=
  if String.eqb raw "" then ok None
  else if String.eqb raw "1" then ok (Some 1)
  else if String.eqb raw "9" then ok (Some 9)
  else raise ValueError.

End DownloadExample.

Lemma download_revision_witness :
  let download := Scripts.download DownloadExample.history DownloadExample.validate
                                   [DownloadExample.stored] in
  download ∅ "smartctl"%string = ok (binary "echo three") /\
  download {[ "rev"%string := "1"%string ]} "7"%string = ok (binary "echo one") /\
  download {[ "revision"%string := "9"%string ]} "smartctl"%string
    = raise MAASAPIValidationError.
Proof.
  intros download. split; [|split].
  - apply (download_revision DownloadExample.history DownloadExample.validate
             [DownloadExample.stored] ∅ "smartctl" DownloadExample.stored);
      [reflexivity|]. right. split; reflexivity.
  - destruct (download_revision DownloadExample.history DownloadExample.validate
                [DownloadExample.stored] {[ "rev"%string := "1"%string ]} "7"
                DownloadExample.stored eq_refl) as (_ & Hrev & _).
    destruct (Hrev 1 DownloadExample.first_revision) as (rev' & _ & _ & Hd & Hsame).
    + right. split; reflexivity.
    + apply list_elem_of_In. right. right. left. reflexivity.
    + reflexivity.
    + subst download. rewrite Hd.
      rewrite Hsame; [reflexivity|].
      cbn. repeat constructor; rewrite ?elem_of_cons, ?elem_of_nil; intuition discriminate.
  - apply (download_revision DownloadExample.history DownloadExample.validate
             [DownloadExample.stored] {[ "revision"%string := "9"%string ]}
             "smartctl" DownloadExample.stored eq_refl) with (r := 9).
    + left. split; [reflexivity|discriminate].
    + intros rev Hin. apply list_elem_of_In in Hin.
      destruct Hin as [<-|[<-|[<-|[]]]]; discriminate.
Defined.

(** C8, the claim as stated fails: [revision] is there, with the empty
    text, and [rev] is consulted all the same; the revision served is the
    one that [rev] names, and the latest once [rev] is taken away. *)
Lemma download_revision_counterexample :
  let GET : gmap string string :=
    {[ "revision"%string := ""%string; "rev"%string := "1"%string ]} in
  let download := Scripts.download DownloadExample.history DownloadExample.validate
                                   [DownloadExample.stored] in
  GET !! "revision"%string = Some ""%string /\
  download GET "smartctl"%string = ok (binary "echo one") /\
  download (delete "rev"%string GET) "smartctl"%string = ok (binary "echo three").
Proof. vm_compute. repeat split. Qed.

(** ** Static addresses of a MAC *)

Section StaticIP.
Import MacAddress.

Variables (db : database) (self : MACAddress) (requested_address : Z)
          (owner : option string) (update_host_maps : bool).

Let call := set_static_ip db self requested_address owner None update_host_maps.

(** The uniqueness constraints of the tables: one row per address, one row
    per link. *)
Definition unique_rows : Prop :=
  NoDup (map ip (static_ips db)) /\ NoDup (links db).

(** The requested address passes the check against the cluster interface
    [ci] of the MAC, if it has one. *)
Definition in_cluster_network (ci : option NodeGroupInterface) : Prop :=
  get_cluster_interface self = ok ci /\
  forall i, ci = Some i ->
            exists net, network i = Some net /\
                        in_network requested_address net = true.

Definition outside_dynamic_ranges : Prop :=
  existsb (in_network requested_address) (dynamic_ranges db) = false.

(** The update of the host maps can be made: it is switched off, or the MAC
    has a node to make it on. *)
Definition host_maps_possible : Prop :=
  update_host_maps = false \/ exists n, node self = Some n.

Definition linked (s : StaticIPAddress) : Prop :=
  (mac_address self, sip_id s) ∈ links db.

Lemma filter_unique {B C} (key : B -> C) `{EqDecision C} (l : list B) (x : B) :
  NoDup (map key l) -> In x l ->
  List.filter (fun y => bool_decide (key y = key x)) l = [x].
Proof.
  induction l as [|y l IH]; cbn [map In List.filter]; [tauto|].
  intros Hnd Hin. apply NoDup_cons in Hnd as [Hy Hnd].
  assert (forall z, In z l -> key z <> key y) as Hfresh.
  { intros z Hz Heq. apply Hy. rewrite <- Heq.
    apply list_elem_of_In, in_map. exact Hz. }
  destruct Hin as [->|Hin].
  - rewrite bool_decide_eq_true_2 by reflexivity. f_equal.
    clear IH Hy Hnd. induction l as [|z l IH]; [reflexivity|].
    cbn [List.filter]. rewrite bool_decide_eq_false_2 by (apply Hfresh; left; reflexivity).
    apply IH. intros w Hw. apply Hfresh. right. exact Hw.
  - rewrite bool_decide_eq_false_2 by (intros Heq; apply (Hfresh x Hin); congruence).
    apply IH; assumption.
Qed.

Lemma filter_none {B} (p : B -> bool) (l : list B) :
  (forall y, In y l -> p y = false) -> List.filter p l = [].
Proof.
  induction l as [|y l IH]; cbn [List.filter]; [reflexivity|].
  intros H. rewrite (H y) by (left; reflexivity). apply IH.
  intros z Hz. apply H. right. exact Hz.
Qed.

Lemma existing_address (s : StaticIPAddress) :
  unique_rows -> s ∈ static_ips db -> ip s = requested_address ->
  List.filter (fun y => ip y =? requested_address) (static_ips db) = [s].
Proof.
  intros [Hu _] Hin Hip. apply list_elem_of_In in Hin.
  rewrite <- (filter_unique ip (static_ips db) s Hu Hin).
  apply filter_ext. intros y. rewrite Hip.
  destruct (Z.eqb_spec (ip y) requested_address).
  - rewrite bool_decide_eq_true_2; auto.
  - rewrite bool_decide_eq_false_2; auto.
Qed.

Lemma link_eqb (l : string * Z) (s : StaticIPAddress) :
  String.eqb (fst l) (mac_address self) && (snd l =? sip_id s)
  = bool_decide (l = (mac_address self, sip_id s)).
Proof.
  destruct l as [m i]. cbn [fst snd].
  destruct (String.eqb_spec m (mac_address self)) as [->|Hm];
    destruct (Z.eqb_spec i (sip_id s)) as [->|Hi]; cbn [andb];
    [rewrite bool_decide_eq_true_2 by reflexivity
    |rewrite bool_decide_eq_false_2 by congruence..]; reflexivity.
Qed.

Lemma macaddress_set_get_linked (d : database) (s : StaticIPAddress) :
  NoDup (links d) -> (mac_address self, sip_id s) ∈ links d ->
  macaddress_set_get d s (mac_address self) = ok (Some (mac_address self)).
Proof.
  intros Hnd Hin. unfold macaddress_set_get.
  rewrite (filter_ext _ _ (fun l => link_eqb l s)).
  rewrite (filter_unique (fun l => l) (links d) (mac_address self, sip_id s)).
  - reflexivity.
  - rewrite map_id. exact Hnd.
  - apply list_elem_of_In. exact Hin.
Qed.

Lemma macaddress_set_get_unlinked (d : database) (s : StaticIPAddress) :
  (mac_address self, sip_id s) ∉ links d ->
  macaddress_set_get d s (mac_address self) = ok None.
Proof.
  intros Hout. unfold macaddress_set_get.
  rewrite (filter_ext _ _ (fun l => link_eqb l s)).
  rewrite filter_none; [reflexivity|].
  intros l Hl. apply bool_decide_eq_false_2. intros ->.
  apply Hout, list_elem_of_In. exact Hl.
Qed.

(** The calls made after the allocation leave the tables as they are. *)
Lemma host_maps_updated (d : database) (s : StaticIPAddress) ci :
  get_cluster_interface self = ok ci ->
  host_maps_possible ->
  exists d',
    (if update_host_maps then
       try! relevant_clusters :=
         (match ci with
          | Some i => ok [nodegroup i]
          | None => _get_dhcp_managed_clusters d None
          end) in
       let ip_mapping := [(ip s, mac_address self)] in
       match node self with
       | None => raise AttributeError
       | Some n =>
           let d1 := with_effect d
                       (HostMapsUpdated (hostname n) ip_mapping relevant_clusters) in
           update_related_dns_zones d1 self
       end
     else ok d) = ok d' /\
    static_ips d' = static_ips d /\ links d' = links d.
Proof.
  intros Hci Hpos. unfold host_maps_possible in Hpos.
  destruct update_host_maps eqn:E.
  - destruct Hpos as [|[n Hn]]; [congruence|]. rewrite Hn.
    unfold update_related_dns_zones, _get_device_cluster_or_default.
    rewrite Hci. destruct ci; cbn; eexists; split; reflexivity || (split; reflexivity).
  - exists d. repeat split.
Qed.

Lemma checks_passed ci :
  in_cluster_network ci -> outside_dynamic_ranges ->
  call =
  (let '(db1, sub) :=
     match ci with
     | None =>
         (with_effect db (Warned "set_static_ip called without a cluster_interface"),
          None)
     | Some i => (db, subnet i)
     end in
   try! (db2, static_ip, created) :=
     get_or_create db1 requested_address STICKY owner sub in
   try! db3 :=
     (if created : bool then ok (save_link db2 self static_ip)
      else if negb (is_sticky (alloc_type static_ip))
      then raise StaticIPAddressUnavailable
      else
        try! linked := macaddress_set_get db2 static_ip (mac_address self) in
        match linked with
        | None => raise StaticIPAddressUnavailable
        | Some _ => ok db2
        end) in
   try! db4 :=
     (if update_host_maps then
        try! relevant_clusters :=
          (match ci with
           | Some i => ok [nodegroup i]
           | None => _get_dhcp_managed_clusters db3 None
           end) in
        let ip_mapping := [(ip static_ip, mac_address self)] in
        match node self with
        | None => raise AttributeError
        | Some n =>
            let d1 := with_effect db3
                        (HostMapsUpdated (hostname n) ip_mapping relevant_clusters) in
            update_related_dns_zones d1 self
        end
      else ok db3) in
   ok (db4, static_ip)).
Proof.
  intros [Hci Hnet] Hdyn. subst call. unfold set_static_ip.
  rewrite Hci. cbn [bind ok].
  unfold raise_if_address_inside_dynamic_range. unfold outside_dynamic_ranges in Hdyn.
  destruct ci as [i|].
  - destruct (Hnet i eq_refl) as (net & -> & ->). cbn [negb bind ok].
    rewrite Hdyn. reflexivity.
  - cbn [bind ok]. rewrite Hdyn. reflexivity.
Qed.

(** C1: with the address outside the network of the MAC's cluster interface
    the call fails as a conflict; past that check, an address inside a
    dynamic range fails as forbidden; past both, an existing row for the
    address that is not STICKY, or not linked to this MAC, fails as
    unavailable; an existing STICKY row linked to this MAC is returned, and
    the rows and links are left as they were; without a row for the address,
    a STICKY row owned by the user is added and linked to this MAC. *)
Theorem set_static_ip_outcomes :
  (forall i net,
     get_cluster_interface self = ok (Some i) ->
     network i = Some net ->
     in_network requested_address net = false ->
     call = raise StaticIPAddressConflict) /\
  (forall ci,
     in_cluster_network ci ->
     existsb (in_network requested_address) (dynamic_ranges db) = true ->
     call = raise StaticIPAddressForbidden) /\
  (forall ci s,
     in_cluster_network ci -> outside_dynamic_ranges -> unique_rows ->
     s ∈ static_ips db -> ip s = requested_address ->
     (alloc_type s <> STICKY \/ ~ linked s) ->
     call = raise StaticIPAddressUnavailable) /\
  (forall ci s,
     in_cluster_network ci -> outside_dynamic_ranges -> unique_rows ->
     host_maps_possible ->
     s ∈ static_ips db -> ip s = requested_address ->
     alloc_type s = STICKY -> linked s ->
     exists db',
       call = ok (db', s) /\
       static_ips db' = static_ips db /\ links db' = links db) /\
  (forall ci,
     in_cluster_network ci -> outside_dynamic_ranges ->
     host_maps_possible ->
     (forall s, s ∈ static_ips db -> ip s <> requested_address) ->
     exists db' new,
       call = ok (db', new) /\
       ip new = requested_address /\ alloc_type new = STICKY /\
       user new = owner /\
       static_ips db' = static_ips db ++ [new] /\
       links db' = links db ++ [(mac_address self, sip_id new)]).
Proof.
  split; [|split; [|split; [|split]]].
  - intros i net Hci Hnet Hout. subst call. unfold set_static_ip.
    rewrite Hci. cbn [bind ok]. rewrite Hnet, Hout. reflexivity.
  - intros ci [Hci Hnet] Hdyn. subst call. unfold set_static_ip.
    rewrite Hci. cbn [bind ok]. unfold raise_if_address_inside_dynamic_range.
    destruct ci as [i|].
    + destruct (Hnet i eq_refl) as (net & -> & ->). cbn [negb bind ok].
      rewrite Hdyn. reflexivity.
    + cbn [bind ok]. rewrite Hdyn. reflexivity.
  - intros ci s Hnet Hdyn Hu Hin Hip Hbad.
    rewrite (checks_passed ci Hnet Hdyn).
    assert (forall d sub, static_ips d = static_ips db -> links d = links db ->
              (try! (db2, static_ip, created) :=
                 get_or_create d requested_address STICKY owner sub in
               try! db3 :=
                 (if created : bool then ok (save_link db2 self static_ip)
                  else if negb (is_sticky (alloc_type static_ip))
                  then raise StaticIPAddressUnavailable
                  else
                    try! linked := macaddress_set_get db2 static_ip (mac_address self) in
                    match linked with
                    | None => raise StaticIPAddressUnavailable
                    | Some _ => ok db2
                    end) in
               ok db3) = raise StaticIPAddressUnavailable) as Hstep.
    { intros d sub Hs Hl. unfold get_or_create. rewrite Hs.
      rewrite (existing_address s Hu Hin Hip). cbn [bind ok].
      destruct Hbad as [Hty|Hlink].
      - destruct (alloc_type s); try contradiction; reflexivity.
      - destruct (alloc_type s); try reflexivity. cbn [is_sticky negb].
        rewrite macaddress_set_get_unlinked by (rewrite Hl; exact Hlink).
        reflexivity. }
    destruct ci as [i|].
    + specialize (Hstep db (subnet i) eq_refl eq_refl).
      destruct (get_or_create _ _ _ _ _) as [e|[[d2 s2] c2]]; cbn [bind ok] in *;
        [unfold raise in *; congruence|].
      destruct (if c2 then _ else _); cbn [bind ok] in *;
        [unfold raise in *; congruence|discriminate].
    + specialize (Hstep (with_effect db (Warned "set_static_ip called without a cluster_interface"))
                        None eq_refl eq_refl).
      destruct (get_or_create _ _ _ _ _) as [e|[[d2 s2] c2]]; cbn [bind ok] in *;
        [unfold raise in *; congruence|].
      destruct (if c2 then _ else _); cbn [bind ok] in *;
        [unfold raise in *; congruence|discriminate].
  - intros ci s Hnet Hdyn Hu Hpos Hin Hip Hty Hlink.
    rewrite (checks_passed ci Hnet Hdyn). destruct Hnet as [Hci _].
    destruct ci as [i|].
    + unfold get_or_create. rewrite (existing_address s Hu Hin Hip).
      cbn [bind ok]. rewrite Hty. cbn [is_sticky negb].
      rewrite macaddress_set_get_linked by (apply Hu || exact Hlink).
      cbn [bind ok].
      destruct (host_maps_updated db s (Some i) Hci Hpos) as (d' & Heq & Hs & Hl).
      exists d'. split; [|split; assumption].
      cbn [bind ok] in Heq |- *. rewrite Heq. reflexivity.
    + unfold get_or_create. cbn [with_effect static_ips].
      rewrite (existing_address s Hu Hin Hip).
      cbn [bind ok]. rewrite Hty. cbn [is_sticky negb].
      rewrite macaddress_set_get_linked by (apply Hu || exact Hlink).
      cbn [bind ok].
      destruct (host_maps_updated (with_effect db (Warned "set_static_ip called without a cluster_interface")) s None Hci Hpos) as (d' & Heq & Hs & Hl).
      exists d'. split; [|split; assumption].
      cbn [bind ok] in Heq |- *. rewrite Heq. reflexivity.
  - intros ci Hnet Hdyn Hpos Hfresh.
    rewrite (checks_passed ci Hnet Hdyn). destruct Hnet as [Hci _].
    assert (List.filter (fun y => ip y =? requested_address) (static_ips db) = []) as Hnone.
    { apply filter_none. intros y Hy. apply Z.eqb_neq, Hfresh, list_elem_of_In, Hy. }
    destruct ci as [i|].
    + unfold get_or_create. rewrite Hnone. cbn [bind ok].
      match goal with |- context [save_link ?d self ?s] =>
        destruct (host_maps_updated (save_link d self s) s (Some i) Hci Hpos)
          as (d' & Heq & Hs & Hl); exists d', s end.
      split; [|repeat split; assumption].
      cbn [bind ok] in Heq |- *. rewrite Heq. reflexivity.
    + unfold get_or_create. cbn [with_effect static_ips]. rewrite Hnone. cbn [bind ok].
      match goal with |- context [save_link ?d self ?s] =>
        destruct (host_maps_updated (save_link d self s) s None Hci Hpos)
          as (d' & Heq & Hs & Hl); exists d', s end.
      split; [|repeat split; assumption].
      cbn [bind ok] in Heq |- *. rewrite Heq. reflexivity.
Qed.

End StaticIP.

Module StaticIPExample.
Import MacAddress.

Definition cluster : NodeGroup := {| uuid := "cluster-1"; manages_dhcp := true |}.

Definition eth0 : NodeGroupInterface :=
  {| ngi_name := "eth0"; nodegroup := cluster;
     network := Some {| first := 100; last := 200 |}; subnet := Some 1 |}.

Definition device : Node :=
  {| hostname := "device"; installable := false; primary_mac := None;
     parent := None |}.

Definition mac : MACAddress :=
  {| mac_address := "aa:bb:cc:dd:ee:ff"; node := Some device;
     cluster_interface := Some eth0 |}.

Definition held : StaticIPAddress :=
  {| sip_id := 1; ip := 150; alloc_type := STICKY; user := Some "alice"%string;
     sip_subnet := Some 1 |}.

Definition tables : database :=
  {| static_ips := [held]; links := [("aa:bb:cc:dd:ee:ff"%string, 1)];
     nodegroups := [cluster];
     dynamic_ranges := [ {| first := 180; last := 200 |} ];
     effects := [] |}.

End StaticIPExample.

Lemma set_static_ip_outcomes_witness :
  let db := StaticIPExample.tables in
  let mac := StaticIPExample.mac in
  MacAddress.set_static_ip db mac 50 (Some "bob"%string) None true
    = raise StaticIPAddressConflict /\
  MacAddress.set_static_ip db mac 190 (Some "bob"%string) None true
    = raise StaticIPAddressForbidden /\
  (exists db',
     MacAddress.set_static_ip db mac 150 (Some "bob"%string) None true
       = ok (db', StaticIPExample.held) /\
     MacAddress.static_ips db' = MacAddress.static_ips db /\
     MacAddress.links db' = MacAddress.links db) /\
  (exists db' new,
     MacAddress.set_static_ip db mac 160 (Some "bob"%string) None true
       = ok (db', new) /\
     MacAddress.ip new = 160 /\ MacAddress.alloc_type new = MacAddress.STICKY /\
     MacAddress.user new = Some "bob"%string /\
     MacAddress.static_ips db' = MacAddress.static_ips db ++ [new] /\
     MacAddress.links db' =
       MacAddress.links db ++ [("aa:bb:cc:dd:ee:ff"%string, MacAddress.sip_id new)]).
Proof.
  intros db mac.
  assert (forall a, (100 <=? a) && (a <=? 200) = true ->
            in_cluster_network mac a (Some StaticIPExample.eth0)) as Hnet.
  { intros a Ha. split; [reflexivity|]. intros i [= <-].
    exists {| MacAddress.first := 100; MacAddress.last := 200 |}.
    split; [reflexivity|exact Ha]. }
  assert (unique_rows db) as Hu by (split; apply NoDup_singleton).
  assert (host_maps_possible mac true) as Hpos
    by (right; exists StaticIPExample.device; reflexivity).
  split; [|split; [|split]].
  - apply (set_static_ip_outcomes db mac 50 (Some "bob"%string) true)
      with (i := StaticIPExample.eth0)
           (net := {| MacAddress.first := 100; MacAddress.last := 200 |});
      reflexivity.
  - apply (set_static_ip_outcomes db mac 190 (Some "bob"%string) true)
      with (ci := Some StaticIPExample.eth0); [apply Hnet|]; reflexivity.
  - apply (set_static_ip_outcomes db mac 150 (Some "bob"%string) true)
      with (ci := Some StaticIPExample.eth0);
      try (apply Hnet); try reflexivity; try assumption; left.
  - apply (set_static_ip_outcomes db mac 160 (Some "bob"%string) true)
      with (ci := Some StaticIPExample.eth0);
      try (apply Hnet); try reflexivity; try assumption.
    intros s Hs. apply list_elem_of_In in Hs. destruct Hs as [<-|[]]. discriminate.
Defined.

(** ** Merging the details of a node *)

Section MergeDetails.
Import Tags.

(** Induction on an element, with the property known of its children. *)
Fixpoint element_ind (P : element -> Prop)
    (step : forall t m a x c, Forall P c -> P (Element t m a x c))
    (e : element) : P e :=
  match e with
  | Element t m a x c =>
      step t m a x c
        ((fix each (c : list element) : Forall P c :=
            match c with
            | [] => @List.Forall_nil _ P
            | e' :: c' => @List.Forall_cons _ P e' c' (element_ind P step e') (each c')
            end) c)
  end.

Lemma iter_unfold t m a x c :
  iter (Element t m a x c) = Element t m a x c :: concat (map iter c).
Proof.
  cbn [iter]. f_equal. induction c as [|e c IH]; [reflexivity|].
  cbn [map concat]. rewrite IH. reflexivity.
Qed.

Lemma iter_self e : e ∈ iter e.
Proof. destruct e. rewrite iter_unfold. left. Qed.

Lemma iter_child e c : c ∈ children e -> c ∈ iter e.
Proof.
  destruct e as [t m a x cs]. cbn [children]. rewrite iter_unfold. intros H.
  right. apply list_elem_of_In, in_concat. exists (iter c). split.
  - apply in_map, list_elem_of_In, H.
  - apply list_elem_of_In, iter_self.
Qed.

Lemma tag_qualify ns e : tag (qualify ns e) = qualify_tag ns (tag e).
Proof. destruct e. reflexivity. Qed.

(** Qualifying a document qualifies each of its elements, in place. *)
Lemma iter_qualify ns e : iter (qualify ns e) = map (qualify ns) (iter e).
Proof.
  induction e as [t m a x c IH] using element_ind.
  cbn [qualify]. rewrite !iter_unfold. cbn [map qualify]. f_equal.
  rewrite map_map. induction IH as [|e c He _ IHc]; [reflexivity|].
  cbn [map concat]. rewrite map_app, He, <- IHc. reflexivity.
Qed.

Variable fromstring : string -> option element.

(** The document merged in for a namespace, if it has one that parses. *)
Definition merged_detail (details : gmap string (option string)) (ns : string)
    : option element :=
  match details !! ns with
  | Some (Some xmldata) => qualify ns <$> fromstring xmldata
  | _ => None
  end.

Lemma fold_merge_namespace details keys : forall root,
  fold_left (merge_namespace fromstring details) keys root =
  Element (tag root) (nsmap root) (attrib root) (text root)
          (children root ++ omap (merged_detail details) keys).
Proof.
  induction keys as [|ns keys IH]; intros root; cbn [fold_left omap list_omap].
  - rewrite app_nil_r. destruct root; reflexivity.
  - rewrite IH. unfold merge_namespace, merged_detail.
    destruct (details !! ns) as [[xmldata|]|]; try reflexivity.
    destruct (fromstring xmldata) as [detail|]; cbn [fmap option_fmap option_map];
      [|reflexivity].
    destruct root; cbn [append tag nsmap attrib text children].
    rewrite <- app_assoc. reflexivity.
Qed.

Lemma sorted_keys details ns :
  ns ∈ sorted details <-> is_Some (details !! ns).
Proof.
  unfold sorted. rewrite merge_sort_Permutation.
  rewrite list_elem_of_fmap. split.
  - intros ([k v] & -> & Hin). apply elem_of_map_to_list in Hin. eauto.
  - intros [v Hv]. exists (ns, v). split; [reflexivity|].
    apply elem_of_map_to_list. exact Hv.
Qed.

Lemma adopted_same parent child :
  tag (adopted parent child) = tag child /\
  attrib (adopted parent child) = attrib child /\
  text (adopted parent child) = text child /\
  children (adopted parent child) = children child.
Proof. destruct child. repeat split. Qed.

Lemma merge_details_root details xmldata lshw :
  details !! "lshw"%string = Some (Some xmldata) ->
  fromstring xmldata = Some lshw ->
  let root := getroot (merge_details fromstring details) in
  tag root = tag lshw /\ attrib root = attrib lshw /\ text root = text lshw /\
  children root = children lshw ++ omap (merged_detail details) (sorted details).
Proof.
  intros Hlshw Hparse. unfold merge_details, _details_prepare_merge,
    _details_make_backwards_compatible, _details_do_merge.
  rewrite Hlshw, Hparse. cbn [getroot]. rewrite fold_merge_namespace.
  cbn [tag attrib text children].
  destruct (adopted_same
              (Element {| namespace := None; localname := "list" |}
                       (map (fun ns => (ns, ns)) (sorted details)) [] "" [])
              lshw) as (-> & -> & -> & ->).
  repeat split.
Qed.

Lemma merged_detail_spec details ns e :
  merged_detail details ns = Some e <->
  exists y u, details !! ns = Some (Some y) /\ fromstring y = Some u /\
              e = qualify ns u.
Proof.
  unfold merged_detail. split.
  - destruct (details !! ns) as [[y|]|]; try discriminate.
    destruct (fromstring y) as [u|] eqn:Hu; cbn; [|discriminate].
    intros [= <-]. eauto.
  - intros (y & u & -> & -> & ->). reflexivity.
Qed.

Definition example_details : gmap string (option string) :=
  {[ "lshw" := Some "<list><node/></list>"; "lldp" := Some "<info/>" ]}%string.

Definition plain_element (name : string) (c : list element) : element :=
  Element {| namespace := None; localname := name |} [] [] "" c.

Definition in_namespace (ns name : string) (c : list element) : element :=
  Element {| namespace := Some ns; localname := name |} [] [] "" c.

(** C3: with a well-formed lshw document among the details, the root of the
    merged document is the root of the parsed lshw tree, not the [list]
    element made first: it has the tag, attributes, text and children of
    that tree, followed by the merged documents.  The merged documents are
    those of the namespaces whose document parses, the lshw one included,
    each with its elements without a namespace moved into the namespace.
    Merging an lshw [<list><node/></list>] and an lldp [<info/>] gives a
    root tagged [list] that holds an [info] element in the lldp
    namespace. *)
Theorem merge_details_lshw_root :
  (forall details xmldata lshw,
     details !! "lshw"%string = Some (Some xmldata) ->
     fromstring xmldata = Some lshw ->
     let root := getroot (merge_details fromstring details) in
     tag root = tag lshw /\ attrib root = attrib lshw /\ text root = text lshw /\
     exists merged,
       children root = children lshw ++ merged /\
       qualify "lshw" lshw ∈ merged /\
       (forall ns y u,
          details !! ns = Some (Some y) -> fromstring y = Some u ->
          qualify ns u ∈ merged) /\
       (forall e, e ∈ merged ->
          exists ns y u, details !! ns = Some (Some y) /\
                         fromstring y = Some u /\ e = qualify ns u)) /\
  (forall ns u,
     iter (qualify ns u) = map (qualify ns) (iter u) /\
     forall e, e ∈ iter u ->
       tag (qualify ns e) =
       {| namespace := Some (default ns (namespace (tag e)));
          localname := localname (tag e) |}) /\
  (fromstring "<list><node/></list>" = Some (plain_element "list" [plain_element "node" []]) ->
   fromstring "<info/>" = Some (plain_element "info" []) ->
   let root := getroot (merge_details fromstring example_details) in
   tag root = {| namespace := None; localname := "list" |} /\
   children root =
     [plain_element "node" [];
      in_namespace "lldp" "info" [];
      in_namespace "lshw" "list" [in_namespace "lshw" "node" []]] /\
   in_namespace "lldp" "info" [] ∈ iter root).
Proof.
  split; [|split].
  - intros details xmldata lshw Hlshw Hparse root.
    destruct (merge_details_root details xmldata lshw Hlshw Hparse)
      as (Ht & Ha & Hx & Hc).
    fold root in Ht, Ha, Hx, Hc. repeat (split; [assumption|]).
    exists (omap (merged_detail details) (sorted details)).
    split; [exact Hc|].
    assert (forall ns y u,
              details !! ns = Some (Some y) -> fromstring y = Some u ->
              qualify ns u ∈ omap (merged_detail details) (sorted details)) as Hall.
    { intros ns y u Hy Hu. apply list_elem_of_omap. exists ns. split.
      - apply sorted_keys. eauto.
      - apply merged_detail_spec. eauto. }
    split; [eapply Hall; eassumption|]. split; [exact Hall|].
    intros e He. apply list_elem_of_omap in He as (ns & _ & He).
    apply merged_detail_spec in He. exact (ex_intro _ ns He).
  - intros ns u. split; [apply iter_qualify|].
    intros e _. rewrite tag_qualify. unfold qualify_tag.
    destruct (tag e) as [[other|] name]; reflexivity.
  - intros Hlshw Hlldp root.
    assert (example_details !! "lshw"%string = Some (Some "<list><node/></list>"%string))
      as Hl by (vm_compute; reflexivity).
    destruct (merge_details_root _ _ _ Hl Hlshw) as (Ht & _ & _ & Hc).
    fold root in Ht, Hc.
    assert (sorted example_details = ["lldp"; "lshw"]%string) as Hs
      by (vm_compute; reflexivity).
    rewrite Hs in Hc. cbn [omap list_omap] in Hc. unfold merged_detail in Hc.
    assert (example_details !! "lldp"%string = Some (Some "<info/>"%string))
      as Hd by (vm_compute; reflexivity).
    rewrite Hl, Hd, Hlshw, Hlldp in Hc. cbn in Hc.
    split; [exact Ht|]. split; [exact Hc|].
    apply iter_child. rewrite Hc. right. left.
Qed.

End MergeDetails.

(** A parser that knows the two documents of the example. *)
Definition example_fromstring (xmldata : string) : option Tags.element :=
  if String.eqb xmldata "<list><node/></list>"
  then Some (plain_element "list" [plain_element "node" []])
  else if String.eqb xmldata "<info/>"
  then Some (plain_element "info" [])
  else None.

Lemma merge_details_lshw_root_witness :
  let root := Tags.getroot (Tags.merge_details example_fromstring example_details) in
  Tags.tag root = {| Tags.namespace := None; Tags.localname := "list" |} /\
  Tags.children root =
    [plain_element "node" [];
     in_namespace "lldp" "info" [];
     in_namespace "lshw" "list" [in_namespace "lshw" "node" []]] /\
  in_namespace "lldp" "info" [] ∈ Tags.iter root.
Proof.
  apply (merge_details_lshw_root example_fromstring); reflexivity.
Defined.

(** ** The VLAN form *)

Section VLANForm.
Import FormsVLAN.

Definition only_primary_rack (s : submitted string) : form_data :=
  {| data_name := Omitted; data_vid := Omitted; data_mtu := Omitted;
     data_primary_rack := s; data_secondary_rack := Omitted;
     data_dhcp_on := Omitted |}.

(** C6: on a VLAN with both racks set, an update that blanks the primary
    rack succeeds and makes the secondary rack the primary, with no
    secondary left; an update that sets the primary to the rack held as
    secondary has the same result. *)
Theorem update_promotes_secondary (vlan : VLAN) (R1 R2 : string) :
  primary_rack vlan = Some R1 ->
  secondary_rack vlan = Some R2 ->
  R2 ∈ racks vlan ->
  (exists vlan',
     update vlan (only_primary_rack Blank) = ok vlan' /\
     primary_rack vlan' = Some R2 /\ secondary_rack vlan' = None) /\
  (exists vlan',
     update vlan (only_primary_rack (Given R2)) = ok vlan' /\
     primary_rack vlan' = Some R2 /\ secondary_rack vlan' = None) /\
  update vlan (only_primary_rack (Given R2)) = update vlan (only_primary_rack Blank).
Proof.
  intros Hp Hs Hin.
  assert (update vlan (only_primary_rack Blank) =
          ok {| vid := vid vlan; name := name vlan; mtu := mtu vlan;
                primary_rack := Some R2; secondary_rack := None;
                dhcp_on := dhcp_on vlan; racks := racks vlan;
                ranged_subnet := ranged_subnet vlan |}) as Hblank.
  { unfold update, only_primary_rack. cbn. rewrite Hs. reflexivity. }
  assert (update vlan (only_primary_rack (Given R2)) =
          ok {| vid := vid vlan; name := name vlan; mtu := mtu vlan;
                primary_rack := Some R2; secondary_rack := None;
                dhcp_on := dhcp_on vlan; racks := racks vlan;
                ranged_subnet := ranged_subnet vlan |}) as Hgiven.
  { unfold update, only_primary_rack. cbn.
    rewrite bool_decide_eq_true_2 by exact Hin. cbn. rewrite Hs.
    rewrite bool_decide_eq_true_2 by reflexivity. reflexivity. }
  rewrite Hblank, Hgiven. repeat split; eexists; repeat split.
Qed.

End VLANForm.

Lemma update_promotes_secondary_witness :
  let vlan := {| FormsVLAN.vid := 10; FormsVLAN.name := "vlan10"; FormsVLAN.mtu := 1500;
                 FormsVLAN.primary_rack := Some "rack-a"%string;
                 FormsVLAN.secondary_rack := Some "rack-b"%string;
                 FormsVLAN.dhcp_on := false;
                 FormsVLAN.racks := ["rack-a"; "rack-b"]%string;
                 FormsVLAN.ranged_subnet := false |} in
  exists vlan',
    FormsVLAN.update vlan (only_primary_rack FormsVLAN.Blank) = ok vlan' /\
    FormsVLAN.primary_rack vlan' = Some "rack-b"%string /\
    FormsVLAN.secondary_rack vlan' = None.
Proof.
  intros vlan.
  apply (update_promotes_secondary vlan "rack-a" "rack-b");
    [reflexivity | reflexivity | ].
  apply list_elem_of_In. right. left. reflexivity.
Defined.

(** ** The region controller service *)

Section RegionControllerService.
Import RegionController.

Definition times (c : call) (s : service) : nat :=
  length (List.filter (is_call c) (calls s)).

(** C7: starting the service marks the DNS and the proxy state dirty and
    starts the timer; the first tick then calls the regeneration of the DNS
    zones once and the regeneration of the proxy configuration once, whether
    they succeed or not, and leaves the timer halted with no processing
    tracked; later ticks call nothing. *)
Theorem start_then_tick (dns_ok proxy_ok : bool) :
  let started := startService init in
  let ticked := tick dns_ok proxy_ok started in
  (needsDNSUpdate started = true /\ needsProxyUpdate started = true /\
   running started = true /\
   times dns_update_all_zones started = 0%nat /\
   times proxy_update_config started = 0%nat) /\
  (times dns_update_all_zones ticked = 1%nat /\
   times proxy_update_config ticked = 1%nat /\
   running ticked = false /\ processingDefer ticked = None /\
   needsDNSUpdate ticked = false /\ needsProxyUpdate ticked = false) /\
  (forall dns_ok' proxy_ok', tick dns_ok' proxy_ok' ticked = ticked).
Proof.
  destruct dns_ok, proxy_ok; cbv; repeat split.
Qed.

End RegionControllerService.

(** * Further properties *)

(** ** Batching: bounds and bad sizes *)

Section BatchingBounds.
Import Tags.
Context {A : Type}.
Implicit Types (l things : list A) (k i j : nat).

Lemma every_sublist k l : forall i, every k i l `sublist_of` l.
Proof.
  induction l as [|x l IH]; intros i; cbn [every].
  - constructor.
  - destruct i as [|i].
    + apply sublist_skip, IH.
    + apply sublist_cons, IH.
Qed.

(** Each batch is non-empty, holds at most [batch_size] items, and keeps
    its items in the order they have in the input. *)
Theorem gen_batches_bounded things size batch :
  0 < size ->
  batch ∈ yielded (gen_batches things size) ->
  batch <> [] /\
  Z.of_nat (length batch) <= size /\
  batch `sublist_of` things.
Proof.
  intros Hs Hin.
  destruct (decide (things = [])) as [->|Hne].
  { rewrite gen_batches_empty in Hin. cbn [yielded] in Hin. inversion Hin. }
  rewrite gen_batches_strides in Hin by assumption. cbn [yielded] in Hin.
  pose proof (batch_count_ceil (Z.of_nat (length things)) size Hs) as Hceil.
  set (bc := batch_count (Z.of_nat (length things)) size) in *.
  assert (0 < bc) as Hbc.
  { destruct things; [congruence|]. cbn [length] in Hceil. nia. }
  unfold strides in Hin. apply list_elem_of_fmap in Hin as (i & -> & Hi).
  apply elem_of_seq in Hi.
  assert (length (every (Z.to_nat (bc - 1)) i things) =
          ((length things + Z.to_nat (bc - 1) - i) / S (Z.to_nat (bc - 1)))%nat)
    as Hlen by apply every_length.
  set (k := Z.to_nat (bc - 1)) in *.
  assert (Z.of_nat k = bc - 1) as Hk by (subst k; lia).
  assert (i <= k)%nat as Hik by lia.
  assert (Z.of_nat k < Z.of_nat (length things)) as Hkn by nia.
  split; [|split].
  - intros Hnil. rewrite Hnil in Hlen. cbn [length] in Hlen.
    symmetry in Hlen. apply Nat.div_small_iff in Hlen; [|lia].
    clearbody k bc. lia.
  - rewrite Hlen.
    assert ((length things + k - i) / S k < S (Z.to_nat size))%nat; [|lia].
    apply Nat.Div0.div_lt_upper_bound.
    assert (Z.of_nat (length things + k - i)
            < Z.of_nat (S k) * Z.of_nat (S (Z.to_nat size))); [|lia].
    clearbody k bc. nia.
  - apply every_sublist.
Qed.

(** A batch size of zero ends the generator with [ZeroDivisionError] before
    any batch; a negative batch size yields no batch and no error, whatever
    the input. *)
Theorem gen_batches_bad_size things size :
  (size = 0 -> gen_batches things size = Generated [] (Some ZeroDivisionError)) /\
  (size < 0 -> gen_batches things size = Generated [] None).
Proof.
  split.
  - intros ->. reflexivity.
  - intros Hs. unfold gen_batches, gen_map.
    rewrite gen_batch_slices_yields by lia. cbn [yielded raised].
    set (count := Z.of_nat (length things)).
    assert (0 <= count) as Hc by (subst count; lia).
    assert (batch_count count size <= 0) as Hq.
    { unfold batch_count.
      pose proof (Z.div_mod count size ltac:(lia)) as Hdm.
      pose proof (Z.mod_neg_bound count size Hs) as Hm.
      destruct (Z.ltb_spec 0 (count mod size)) as [|_]; [lia|]. nia. }
    unfold xrange. replace (Z.to_nat (batch_count count size)) with 0%nat by lia.
    reflexivity.
Qed.

End BatchingBounds.

Lemma gen_batches_bounded_witness :
  [20; 50]%nat <> [] /\
  Z.of_nat (length [20; 50]%nat) <= 2 /\
  [20; 50]%nat `sublist_of` [10; 20; 30; 40; 50]%nat.
Proof.
  apply (gen_batches_bounded [10; 20; 30; 40; 50]%nat 2 [20; 50]%nat); [lia|].
  vm_compute. right. left.
Defined.

Lemma gen_batches_bad_size_witness :
  Tags.gen_batches [1; 2; 3]%nat 0 = Generated [] (Some ZeroDivisionError) /\
  Tags.gen_batches [1; 2; 3]%nat (-2) = Generated [] None.
Proof.
  split; apply (gen_batches_bad_size [1; 2; 3]%nat); [reflexivity|lia].
Defined.

(** ** Merging details: the clean merge and the lshw fallback *)

Section StringOrder.

Definition str_le (a b : string) : Prop := Is_true (String.leb a b).

Lemma leb_cons a s b t :
  String.leb (String a s) (String b t) =
  if (N_of_ascii a <? N_of_ascii b)%N then true
  else if (N_of_ascii a =? N_of_ascii b)%N then String.leb s t
  else false.
Proof.
  unfold String.leb. cbn [String.compare]. unfold Ascii.compare.
  destruct (N.compare_spec (N_of_ascii a) (N_of_ascii b)) as [H|H|H].
  - rewrite H, N.ltb_irrefl, N.eqb_refl. reflexivity.
  - apply N.ltb_lt in H. rewrite H. reflexivity.
  - destruct (N.ltb_spec (N_of_ascii a) (N_of_ascii b)); [lia|].
    destruct (N.eqb_spec (N_of_ascii a) (N_of_ascii b)); [lia|reflexivity].
Qed.

Lemma leb_trans s1 : forall s2 s3,
  String.leb s1 s2 = true -> String.leb s2 s3 = true -> String.leb s1 s3 = true.
Proof.
  induction s1 as [|a s1 IH]; intros [|b s2] [|c s3]; try reflexivity;
    try discriminate.
  rewrite !leb_cons.
  destruct (N.ltb_spec (N_of_ascii a) (N_of_ascii b)),
           (N.ltb_spec (N_of_ascii b) (N_of_ascii c)),
           (N.ltb_spec (N_of_ascii a) (N_of_ascii c)),
           (N.eqb_spec (N_of_ascii a) (N_of_ascii b)),
           (N.eqb_spec (N_of_ascii b) (N_of_ascii c)),
           (N.eqb_spec (N_of_ascii a) (N_of_ascii c));
    try reflexivity; try discriminate; try lia.
  apply IH.
Qed.

#[local] Instance str_le_trans : Transitive str_le.
Proof.
  intros a b c Hab Hbc. apply Is_true_true. eapply leb_trans; apply Is_true_true; eassumption.
Qed.

#[local] Instance str_le_antisym : AntiSymm (=) str_le.
Proof.
  intros a b Hab Hba. apply String.leb_antisym; apply Is_true_true; assumption.
Qed.

#[local] Instance str_le_total : Total str_le.
Proof.
  intros a b. unfold str_le. destruct (String.leb_total a b) as [H|H];
    [left|right]; apply Is_true_true; exact H.
Qed.

Lemma StronglySorted_filter (P : string -> Prop) `{forall x, Decision (P x)} l :
  StronglySorted str_le l -> StronglySorted str_le (filter P l).
Proof.
  induction 1 as [|x l Hl IH Hx]; [constructor|].
  rewrite filter_cons. destruct (decide (P x)); [|exact IH].
  constructor; [exact IH|].
  rewrite Forall_forall in Hx |- *. intros y Hy.
  apply list_elem_of_filter in Hy as [_ Hy]. apply Hx, Hy.
Qed.

(** The sorted keys of a map without [k] are the sorted keys of the map
    without [k]. *)
Lemma sorted_delete (details : gmap string (option string)) k :
  Tags.sorted (delete k details) = filter (fun y => y <> k) (Tags.sorted details).
Proof.
  apply (Sorted_unique str_le).
  - apply Sorted_merge_sort. apply _.
  - apply StronglySorted_Sorted, StronglySorted_filter.
    apply StronglySorted_merge_sort; apply _.
  - unfold Tags.sorted. rewrite !merge_sort_Permutation.
    apply NoDup_Permutation.
    + apply NoDup_fst_map_to_list.
    + apply NoDup_filter, NoDup_fst_map_to_list.
    + intros y. rewrite list_elem_of_filter, !list_elem_of_fmap. split.
      * intros ([y' v] & -> & Hin). apply elem_of_map_to_list in Hin.
        cbn [fst]. destruct (decide (y' = k)) as [->|Hne].
        { rewrite lookup_delete_eq in Hin. discriminate. }
        rewrite lookup_delete_ne in Hin by congruence.
        split; [exact Hne|]. exists (y', v). split; [reflexivity|].
        apply elem_of_map_to_list. exact Hin.
      * intros [Hne ([y' v] & -> & Hin)]. apply elem_of_map_to_list in Hin.
        cbn [fst] in *. exists (y', v). split; [reflexivity|].
        apply elem_of_map_to_list. rewrite lookup_delete_ne by congruence.
        exact Hin.
Qed.

End StringOrder.

Section MergeCleanly.
Import Tags.
Variable fromstring : string -> option element.

Lemma qualified_below ns u e :
  e ∈ iter (qualify ns u) -> namespace (tag e) <> None.
Proof.
  rewrite iter_qualify, list_elem_of_fmap. intros (e' & -> & _).
  rewrite tag_qualify. unfold qualify_tag.
  destruct (namespace (tag e')) eqn:E; cbn [namespace]; congruence.
Qed.

Lemma omap_length_le {B C} (f : B -> option C) (l : list B) :
  (length (omap f l) <= length l)%nat.
Proof.
  induction l as [|x l IH]; cbn [omap list_omap length]; [lia|].
  fold (omap f l). destruct (f x); cbn [length]; lia.
Qed.

(** [merge_details_cleanly] returns a document rooted at a [list] element
    without namespace; its children are exactly the documents of the
    namespaces whose document parses, each moved into its namespace, so
    that no element below the root is left without a namespace; a
    namespace without document, or with one that does not parse, adds
    nothing. *)
Theorem merge_details_cleanly_root (details : gmap string (option string)) :
  let root := getroot (merge_details_cleanly fromstring details) in
  tag root = {| namespace := None; localname := "list" |} /\
  (forall c, c ∈ children root <->
     exists ns y u, details !! ns = Some (Some y) /\ fromstring y = Some u /\
                    c = qualify ns u) /\
  (forall c e, c ∈ children root -> e ∈ iter c -> namespace (tag e) <> None) /\
  (length (children root) <= size details)%nat.
Proof.
  intros root. subst root.
  unfold merge_details_cleanly, _details_prepare_merge, _details_do_merge.
  cbn [getroot]. rewrite fold_merge_namespace. cbn [tag children app].
  assert (forall c, c ∈ omap (merged_detail fromstring details) (sorted details) <->
            exists ns y u, details !! ns = Some (Some y) /\ fromstring y = Some u /\
                           c = qualify ns u) as Hchildren.
  { intros c. rewrite list_elem_of_omap. split.
    - intros (ns & _ & Hc). apply merged_detail_spec in Hc. eauto.
    - intros (ns & y & u & Hy & Hu & ->). exists ns. split.
      + apply sorted_keys. eauto.
      + apply merged_detail_spec. eauto. }
  split; [reflexivity|]. split; [exact Hchildren|]. split.
  - intros c e Hc He. apply Hchildren in Hc as (ns & y & u & _ & _ & ->).
    eapply qualified_below. exact He.
  - etransitivity; [apply omap_length_le|].
    unfold sorted. rewrite merge_sort_Permutation, length_fmap.
    rewrite length_map_to_list. reflexivity.
Qed.

Lemma omap_filter_none {B C} (f : B -> option C) (P : B -> Prop)
    `{forall x, Decision (P x)} (l : list B) :
  (forall x, ~ P x -> f x = None) -> omap f (filter P l) = omap f l.
Proof.
  intros Hf. induction l as [|x l IH]; [reflexivity|].
  rewrite filter_cons. destruct (decide (P x)) as [Hp|Hp]; cbn [omap list_omap].
  - fold (omap f (filter P l)). fold (omap f l). rewrite IH. reflexivity.
  - fold (omap f l). rewrite (Hf x Hp). exact IH.
Qed.

Lemma omap_ext_in {B C} (f g : B -> option C) (l : list B) :
  (forall x, x ∈ l -> f x = g x) -> omap f l = omap g l.
Proof.
  induction l as [|x l IH]; intros Hfg; [reflexivity|].
  cbn [omap list_omap]. fold (omap f l). fold (omap g l).
  rewrite (Hfg x) by left. rewrite IH; [reflexivity|].
  intros y Hy. apply Hfg. right. exact Hy.
Qed.

(** Without a usable lshw document (none at all, [None], or one that does
    not parse) [merge_details] returns what [merge_details_cleanly]
    returns. *)
Theorem merge_details_without_lshw (details : gmap string (option string)) :
  (details !! "lshw"%string = None \/
   details !! "lshw"%string = Some None \/
   exists xmldata, details !! "lshw"%string = Some (Some xmldata) /\
                   fromstring xmldata = None) ->
  merge_details fromstring details = merge_details_cleanly fromstring details.
Proof.
  unfold merge_details, merge_details_cleanly, _details_prepare_merge,
    _details_make_backwards_compatible.
  intros [H|[H|(xmldata & H & Hbad)]]; rewrite H; [reflexivity..|].
  rewrite Hbad. unfold _details_do_merge. f_equal.
  rewrite !fold_merge_namespace. f_equal. f_equal.
  rewrite sorted_delete.
  rewrite <- (omap_filter_none (merged_detail fromstring details)
                (fun y => y <> "lshw"%string) (sorted details)).
  - apply omap_ext_in. intros x Hx.
    apply list_elem_of_filter in Hx as [Hne _].
    unfold merged_detail. rewrite lookup_delete_ne by congruence. reflexivity.
  - intros x Hx. apply dec_stable in Hx as ->.
    unfold merged_detail. rewrite H, Hbad. reflexivity.
Qed.

Lemma qualify_tag_absorbs ns1 ns2 t :
  qualify_tag ns2 (qualify_tag ns1 t) = qualify_tag ns1 t.
Proof. unfold qualify_tag. destruct t as [[other|] name]; reflexivity. Qed.

(** Qualifying never touches an element that has a namespace: a document
    moved into one namespace is left as it is by a move into another, and a
    document all of whose elements have a namespace is left as it is. *)
Theorem qualify_absorbs (ns1 ns2 : string) (e : element) :
  qualify ns2 (qualify ns1 e) = qualify ns1 e /\
  ((forall e', e' ∈ iter e -> namespace (tag e') <> None) -> qualify ns1 e = e).
Proof.
  split.
  - induction e as [t m a x c IH] using element_ind. cbn [qualify].
    rewrite qualify_tag_absorbs. f_equal. rewrite map_map.
    induction IH as [|e c He _ IHc]; [reflexivity|].
    cbn [map]. rewrite He, IHc. reflexivity.
  - induction e as [t m a x c IH] using element_ind. intros Hall.
    cbn [qualify]. f_equal.
    + specialize (Hall _ (iter_self _)). cbn [tag] in Hall.
      unfold qualify_tag. destruct (namespace t) eqn:E; [reflexivity|congruence].
    + assert (forall e', e' ∈ c -> forall e'', e'' ∈ iter e' ->
                namespace (tag e'') <> None) as Hc.
      { intros e' He' e'' He''. apply Hall. rewrite iter_unfold. right.
        apply list_elem_of_In, in_concat. exists (iter e'). split.
        - apply in_map, list_elem_of_In, He'.
        - apply list_elem_of_In, He''. }
      clear Hall. induction IH as [|e c He _ IHc]; [reflexivity|].
      cbn [map]. rewrite He by (apply Hc; left). rewrite IHc; [reflexivity|].
      intros e' He'. apply Hc. right. exact He'.
Qed.

End MergeCleanly.

Lemma merge_details_cleanly_root_witness :
  in_namespace "lldp" "info" [] ∈
    Tags.children (Tags.getroot (Tags.merge_details_cleanly example_fromstring example_details)).
Proof.
  apply (merge_details_cleanly_root example_fromstring example_details).
  exists "lldp"%string, "<info/>"%string, (plain_element "info" []).
  repeat split.
Defined.

Lemma merge_details_without_lshw_witness :
  Tags.merge_details example_fromstring {[ "lshw"%string := Some "<list>"%string ]}
  = Tags.merge_details_cleanly example_fromstring {[ "lshw"%string := Some "<list>"%string ]}.
Proof.
  apply (merge_details_without_lshw example_fromstring).
  right. right. exists "<list>"%string. split; reflexivity.
Defined.

Lemma qualify_absorbs_witness :
  Tags.qualify "lshw" (in_namespace "lldp" "info" [plain_element "port" []])
  = Tags.qualify "lshw" (Tags.qualify "lshw"
      (in_namespace "lldp" "info" [plain_element "port" []])) /\
  Tags.qualify "lshw" (in_namespace "lldp" "info" []) = in_namespace "lldp" "info" [].
Proof.
  split.
  - symmetry.
    apply (qualify_absorbs "lshw" "lshw"
             (in_namespace "lldp" "info" [plain_element "port" []])).
  - apply (qualify_absorbs "lshw" "lshw" (in_namespace "lldp" "info" [])).
    intros e' He'. apply list_elem_of_In in He'. destruct He' as [<-|[]].
    discriminate.
Defined.

(** ** The shared secret: what [to_bin] accepts *)

Section HexDecoding.
Import Security.

Definition hex_char (c : byte) : Prop := is_Some (hex_value c).

Lemma pair_induction {B} (P : list B -> Prop) :
  P [] -> (forall x, P [x]) -> (forall x y l, P l -> P (x :: y :: l)) ->
  forall l, P l.
Proof.
  intros Hnil Hone Hstep l.
  assert (P l /\ forall x, P (x :: l)) as [H _]; [|exact H].
  induction l as [|y l [IH1 IH2]]; split; auto.
Qed.

Lemma a2b_hex_ok (h : list byte) :
  (exists b, a2b_hex h = ok b) <-> Nat.Even (length h) /\ Forall hex_char h.
Proof.
  induction h as [|x|x y h IH] using pair_induction.
  - split; [|eauto]. intros _. split; [exists 0%nat; reflexivity|constructor].
  - split.
    + intros [b Hb]. discriminate.
    + intros [[n Hn] _]. cbn in Hn. lia.
  - cbn [a2b_hex length]. split.
    + intros [b Hb].
      destruct (hex_value x) as [vx|] eqn:Hx; [|discriminate].
      destruct (hex_value y) as [vy|] eqn:Hy; [|discriminate].
      apply bind_ok in Hb as (rest & Hrest & _).
      destruct IH as [IH _]. destruct (IH (ex_intro _ rest Hrest)) as [[n Hn] Hall].
      split; [exists (S n); lia|].
      constructor; [unfold hex_char; rewrite Hx; eauto|].
      constructor; [unfold hex_char; rewrite Hy; eauto|exact Hall].
    + intros [[n Hn] Hall].
      apply Forall_cons in Hall as [[vx Hx] Hall].
      apply Forall_cons in Hall as [[vy Hy] Hall].
      rewrite Hx, Hy. destruct IH as [_ IH].
      destruct IH as [rest Hrest]; [split; [exists (n - 1)%nat; lia|exact Hall]|].
      rewrite Hrest. cbn [bind ok]. eauto.
Qed.

Lemma a2b_hex_length (h b : list byte) :
  a2b_hex h = ok b -> length h = (2 * length b)%nat.
Proof.
  revert b. induction h as [|x|x y h IH] using pair_induction; intros b.
  - intros [= <-]. reflexivity.
  - discriminate.
  - cbn [a2b_hex]. destruct (hex_value x); [|discriminate].
    destruct (hex_value y); [|discriminate].
    intros Hb. apply bind_ok in Hb as (rest & Hrest & [= <-]).
    cbn [length]. rewrite (IH rest Hrest). lia.
Qed.

Lemma a2b_hex_error (h : list byte) e : a2b_hex h = raise e -> e = BinasciiError.
Proof.
  induction h as [|x|x y h IH] using pair_induction.
  - discriminate.
  - intros [= <-]. reflexivity.
  - cbn [a2b_hex]. destruct (hex_value x); [|intros [= <-]; reflexivity].
    destruct (hex_value y); [|intros [= <-]; reflexivity].
    destruct (a2b_hex h) as [e'|rest]; cbn [bind ok]; [|discriminate].
    intros [= <-]. apply IH. reflexivity.
Qed.

Lemma encode_ascii_error (u : string) e :
  encode_ascii u = raise e -> e = UnicodeEncodeError.
Proof.
  induction u as [|c u IH]; cbn [encode_ascii]; [discriminate|].
  destruct (N_of_ascii c <? 128)%N; [|intros [= <-]; reflexivity].
  destruct (encode_ascii u) as [e'|b]; cbn [bind ok]; [|discriminate].
  intros [= <-]. apply IH. reflexivity.
Qed.

(** [to_bin] decodes a text exactly when the text is ASCII and, with the
    whitespace at its ends removed, is an even number of hexadecimal digits;
    the result then has half as many bytes.  It fails with
    [UnicodeEncodeError] on a text that is not ASCII and with
    [binascii.Error] otherwise. *)
Theorem to_bin_accepts (u : string) :
  ((exists b, to_bin u = ok b) <->
   exists h, encode_ascii u = ok h /\
             Nat.Even (length (strip h)) /\ Forall hex_char (strip h)) /\
  (forall b h, to_bin u = ok b -> encode_ascii u = ok h ->
               length (strip h) = (2 * length b)%nat) /\
  (forall e, to_bin u = raise e ->
             (e = UnicodeEncodeError /\ encode_ascii u = raise e) \/
             (e = BinasciiError /\ exists h, encode_ascii u = ok h)).
Proof.
  unfold to_bin. split; [|split].
  - split.
    + intros [b Hb]. apply bind_ok in Hb as (h & Hh & Hb).
      exists h. split; [exact Hh|]. apply a2b_hex_ok. eauto.
    + intros (h & Hh & Hev & Hall). rewrite Hh. cbn [bind ok].
      apply a2b_hex_ok. split; assumption.
  - intros b h Hb Hh. rewrite Hh in Hb. cbn [bind ok] in Hb.
    apply a2b_hex_length. exact Hb.
  - intros e He. destruct (encode_ascii u) as [e'|h] eqn:Hh; cbn [bind ok] in He.
    + left. injection He as <-. split; [|reflexivity].
      eapply encode_ascii_error. exact Hh.
    + right. split; [|eauto]. eapply a2b_hex_error. exact He.
Qed.

Lemma lstrip_app (x y : list byte) :
  lstrip (x ++ y) = match lstrip x with [] => lstrip y | _ => lstrip x ++ y end.
Proof.
  induction x as [|c x IH]; cbn [lstrip app]; [reflexivity|].
  destruct (is_space c); [exact IH|reflexivity].
Qed.

Lemma lstrip_spaces (x : list byte) :
  Forall (fun c => is_space c = true) x -> lstrip x = [].
Proof. induction 1 as [|c x Hc _ IH]; cbn [lstrip]; [|rewrite Hc]; auto. Qed.

Lemma strip_surrounded (pre x post : list byte) :
  Forall (fun c => is_space c = true) pre ->
  Forall (fun c => is_space c = true) post ->
  strip (pre ++ x ++ post) = strip x.
Proof.
  intros Hpre Hpost. unfold strip.
  rewrite lstrip_app, (lstrip_spaces pre Hpre), lstrip_app.
  destruct (lstrip x) as [|c x'] eqn:Hx.
  - rewrite (lstrip_spaces post Hpost). reflexivity.
  - rewrite rev_app_distr, lstrip_app, lstrip_spaces
      by (apply Forall_rev; exact Hpost). reflexivity.
Qed.

Lemma encode_ascii_app (u v : string) :
  encode_ascii (u ++ v) =
  try! a := encode_ascii u in try! b := encode_ascii v in ok (a ++ b).
Proof.
  induction u as [|c u IH].
  - change (EmptyString ++ v)%string with v. cbn [encode_ascii bind ok].
    destruct (encode_ascii v); reflexivity.
  - change (String c u ++ v)%string with (String c (u ++ v)).
    cbn [encode_ascii bind ok].
    destruct (N_of_ascii c <? 128)%N; [|reflexivity]. rewrite IH.
    destruct (encode_ascii u); cbn [bind ok]; [reflexivity|].
    destruct (encode_ascii v); reflexivity.
Qed.

(** A text of ASCII whitespace only. *)
Fixpoint blank (u : string) : bool :=
  match u with
  | EmptyString => true
  | String c u' => (N_of_ascii c <? 128)%N && is_space (ascii_byte c) && blank u'
  end.

Lemma blank_encoded (u : string) :
  blank u = true ->
  exists b, encode_ascii u = ok b /\ Forall (fun c => is_space c = true) b.
Proof.
  induction u as [|c u IH]; cbn [blank encode_ascii].
  - exists []. split; [reflexivity|constructor].
  - intros H. apply andb_prop in H as [H Hu]. apply andb_prop in H as [Hc Hs].
    destruct (IH Hu) as (b & -> & Hb). rewrite Hc. cbn [bind ok].
    eexists. split; [reflexivity|]. constructor; assumption.
Qed.

(** [to_bin] ignores ASCII whitespace around the text, so the hexadecimal
    text of a secret is decoded to the secret with any such whitespace (the
    newline of a line read, say) around it. *)
Theorem to_bin_ignores_whitespace (pre post : string) :
  blank pre = true -> blank post = true ->
  (forall u, to_bin (pre ++ u ++ post) = to_bin u) /\
  (forall secret u, to_hex secret = ok u ->
                    to_bin (pre ++ u ++ post) = ok secret).
Proof.
  intros Hpre Hpost.
  destruct (blank_encoded pre Hpre) as (bpre & Epre & Spre).
  destruct (blank_encoded post Hpost) as (bpost & Epost & Spost).
  assert (forall u, to_bin (pre ++ u ++ post) = to_bin u) as Hsame.
  { intros u. unfold to_bin. rewrite !encode_ascii_app, Epre, Epost.
    cbn [bind ok]. destruct (encode_ascii u) as [e|b]; cbn [bind ok]; [reflexivity|].
    rewrite strip_surrounded by assumption. reflexivity. }
  split; [exact Hsame|].
  intros secret u Hu. rewrite Hsame.
  destruct (to_bin_to_hex secret) as (u' & Hu' & Hbin).
  assert (u' = u) as -> by (unfold ok in *; congruence). exact Hbin.
Qed.

End HexDecoding.

Lemma to_bin_accepts_witness :
  length (Security.strip [x20; x30; x41; x0a]) = (2 * length [x0a])%nat.
Proof.
  apply (to_bin_accepts (String " " (String "0" (String "A" (String "010" EmptyString)))));
    reflexivity.
Defined.

Lemma to_bin_ignores_whitespace_witness :
  Security.to_bin (String "009" (String " " EmptyString) ++ "00ff10" ++ String "010" EmptyString)
  = ok [x00; xff; x10].
Proof.
  apply (to_bin_ignores_whitespace
           (String "009" (String " " EmptyString)) (String "010" EmptyString));
    reflexivity.
Defined.

(** ** The shared secret: the install and check scripts *)

Section SecretScripts.
Import Security SecurityScripts.
Variable data_root : path.

Let secret_path := get_shared_secret_filesystem_path data_root.

(** The line that the script decodes, when it gets one. *)
Definition line_of (input : stdin) : option string :=
  match input with
  | Terminal (Typed line) => Some line
  | Terminal _ => None
  | NotTerminal line => Some line
  end.

Lemma get_after_set (fs fs' : filesystem) secret :
  set_shared_secret_on_filesystem data_root fs secret = ok fs' ->
  get_shared_secret_from_filesystem data_root fs' = ok (fs', Some secret).
Proof.
  intros Hset.
  destruct (set_shared_secret_stores _ _ _ _ Hset) as (u & Hu & Hfile & Hmk).
  unfold get_shared_secret_from_filesystem.
  rewrite Hmk. cbn [bind ok]. unfold read_text_file. rewrite Hfile. cbn [bind ok].
  destruct (to_bin_to_hex secret) as (u' & Hu' & Hbin).
  assert (u' = u) as -> by (unfold ok in *; congruence).
  rewrite Hbin. reflexivity.
Qed.

(** A run of the install script that exits with 0 has decoded the line it
    was given and stored the secret, so that the check script then exits
    with 0 and the secret read back is the one decoded; a run that exits
    with another code exits with 1 and leaves the filesystem as it was. *)
Theorem install_then_check (fs : filesystem) (input : stdin) (done : exited) :
  InstallSharedSecretScript_run data_root fs input = inr done ->
  (code done = 0 ->
   exists line secret,
     line_of input = Some line /\
     to_bin (str_strip line) = ok secret /\
     get_shared_secret_from_filesystem data_root (final done)
       = ok (final done, Some secret) /\
     CheckForSharedSecretScript_run data_root (final done)
       = inr (Exited (final done) [SharedSecretIsInstalled] 0)) /\
  (code done <> 0 -> code done = 1 /\ final done = fs).
Proof.
  intros Hrun.
  assert (forall line,
            match to_bin (str_strip line) with
            | inl BinasciiError => inr (Exited fs [SecretCouldNotBeDecoded] 1)
            | inl e => inl (Raised e)
            | inr secret =>
                match set_shared_secret_on_filesystem data_root fs secret with
                | inl e => inl (Raised e)
                | inr fs' =>
                    inr (Exited fs'
                           [SecretInstalledTo (get_shared_secret_filesystem_path data_root)]
                           0)
                end
            end = inr done ->
            (code done = 0 ->
             exists secret,
               to_bin (str_strip line) = ok secret /\
               get_shared_secret_from_filesystem data_root (final done)
                 = ok (final done, Some secret) /\
               CheckForSharedSecretScript_run data_root (final done)
                 = inr (Exited (final done) [SharedSecretIsInstalled] 0)) /\
            (code done <> 0 -> code done = 1 /\ final done = fs)) as Hline.
  { intros line H.
    destruct (to_bin (str_strip line)) as [e|secret] eqn:Hbin.
    - destruct e; try discriminate. injection H as <-. cbn [code final].
      split; [discriminate|]. intros _. split; reflexivity.
    - destruct (set_shared_secret_on_filesystem data_root fs secret) as [e|fs'] eqn:Hset;
        [discriminate|]. injection H as <-. cbn [code final].
      split; [|intros Hc; contradiction]. intros _. exists secret.
      pose proof (get_after_set _ _ _ Hset) as Hget.
      split; [reflexivity|]. split; [exact Hget|].
      unfold CheckForSharedSecretScript_run. rewrite Hget. reflexivity. }
  unfold InstallSharedSecretScript_run in Hrun.
  destruct input as [[line| |]|line]; cbn [line_of].
  - destruct (Hline line Hrun) as [H0 H1]. split; [|exact H1].
    intros Hc. destruct (H0 Hc) as (secret & ?). eauto.
  - injection Hrun as <-. cbn [code final]. split; [discriminate|].
    intros _. split; reflexivity.
  - discriminate.
  - destruct (Hline line Hrun) as [H0 H1]. split; [|exact H1].
    intros Hc. destruct (H0 Hc) as (secret & ?). eauto.
Qed.



End SecretScripts.

Module SecretScriptsExample.
Import Security.

Definition root : path := ["srv"%string].

Definition directories : filesystem :=
  <[ ["srv"; "var"; "lib"; "maas"]%string := Directory ]>
  (<[ ["srv"; "var"; "lib"]%string := Directory ]>
  (<[ ["srv"; "var"]%string := Directory ]>
  (<[ ["srv"]%string := Directory ]> ∅))).

Definition installed : filesystem :=
  <[ ["srv"; "var"; "lib"; "maas"; "secret"]%string := File 416 "00ff10" ]> directories.


End SecretScriptsExample.

Lemma install_then_check_witness :
  SecurityScripts.CheckForSharedSecretScript_run SecretScriptsExample.root
    SecretScriptsExample.installed
  = inr (SecurityScripts.Exited SecretScriptsExample.installed
           [SecurityScripts.SharedSecretIsInstalled] 0).
Proof.
  destruct (install_then_check SecretScriptsExample.root ∅
              (SecurityScripts.NotTerminal (String "0" (String "0" (String "F" (String "f" (String "1" (String "0" (String "010" EmptyString))))))))
              (SecurityScripts.Exited SecretScriptsExample.installed
                 [SecurityScripts.SecretInstalledTo
                    ["srv"; "var"; "lib"; "maas"; "secret"]%string] 0))
    as [Hok _]; [vm_compute; reflexivity|].
  destruct (Hok eq_refl) as (line & secret & _ & _ & _ & Hcheck). exact Hcheck.
Defined.



(** ** The profile store: other names, enumeration, uniqueness *)

Section ProfileStoreLaws.
Import Config.
Variable value : Type.
Variable json_dumps : value -> string.
Variable json_loads : string -> result value.

Abbreviation get := (__getitem__ value json_loads).
Abbreviation set := (__setitem__ value json_dumps).

Lemma named_other n n' i d : n <> n' -> named n' (Row i n d) = false.
Proof. intros H. unfold named. cbn [name]. apply String.eqb_neq. exact H. Qed.

Lemma find_kept (t : table) n n' :
  n <> n' ->
  find (named n') (List.filter (fun r => negb (named n r)) t) = find (named n') t.
Proof.
  intros Hne. induction t as [|r t IH]; [reflexivity|].
  cbn [List.filter find]. destruct (named n r) eqn:En; cbn [negb find].
  - assert (named n' r = false) as ->; [|exact IH].
    unfold named in *. apply String.eqb_eq in En. apply String.eqb_neq. congruence.
  - destruct (named n' r); [reflexivity|exact IH].
Qed.

(** Storing or deleting a profile changes nothing for the other names. *)
Theorem other_profiles_untouched (t : table) (n n' : string) (v : value) :
  n <> n' ->
  get (set t n v) n' = get t n' /\
  get (__delitem__ t n) n' = get t n'.
Proof.
  intros Hne. unfold __getitem__, __setitem__, __delitem__. split.
  - assert (find (named n')
              (List.filter (fun r => negb (named n r)) t
               ++ [Row (next_id t) n (json_dumps v)])
            = find (named n') t) as ->; [|reflexivity].
    rewrite <- (find_kept t n n' Hne).
    destruct (find (named n') (List.filter (fun r => negb (named n r)) t))
      as [r|] eqn:E.
    + clear -E. induction (List.filter (fun r => negb (named n r)) t) as [|x l IH];
        [discriminate|]. cbn [find app] in *.
      destruct (named n' x); [exact E|apply IH, E].
    + rewrite find_app_none by exact E. cbn [find].
      rewrite named_other by exact Hne. reflexivity.
  - rewrite (find_kept t n n' Hne). reflexivity.
Qed.

Lemma filter_absent (t : table) n :
  n ∉ map name t -> List.filter (fun r => negb (named n r)) t = t.
Proof.
  induction t as [|r t IH]; intros Hout; [reflexivity|].
  cbn [List.filter]. assert (named n r = false) as ->.
  { apply String.eqb_neq. intros Hn. apply Hout. cbn [map]. rewrite Hn. left. }
  cbn [negb]. f_equal. apply IH. intros Hin. apply Hout. right. exact Hin.
Qed.

(** The enumeration lists the names that can be read: a name that is not
    listed raises [KeyError], a listed one gives the decoded data of a row
    of that name.  Deleting removes the name and only it, and is silent for
    a name that is not there; storing adds the name and only it. *)
Theorem enumeration_agrees (t : table) (n : string) :
  (n ∉ __iter__ t -> get t n = raise (KeyError n)) /\
  (n ∈ __iter__ t -> exists r, r ∈ t /\ name r = n /\ get t n = json_loads (data r)) /\
  (forall n', n' ∈ __iter__ (__delitem__ t n) <-> n' ∈ __iter__ t /\ n' <> n) /\
  (n ∉ __iter__ t -> __delitem__ t n = t) /\
  (forall v n', n' ∈ __iter__ (set t n v) <-> n' = n \/ n' ∈ __iter__ t).
Proof.
  unfold __iter__, __getitem__, __delitem__, __setitem__.
  assert (forall n', n' ∈ map name (List.filter (fun r => negb (named n r)) t)
                     <-> n' ∈ map name t /\ n' <> n) as Hdel.
  { intros n'. rewrite !list_elem_of_In, !in_map_iff. split.
    - intros (r & <- & Hr). apply filter_In in Hr as [Hr Hn]. split; [eauto|].
      apply negb_true_iff, String.eqb_neq in Hn. exact Hn.
    - intros [(r & <- & Hr) Hne]. exists r. split; [reflexivity|].
      apply filter_In. split; [exact Hr|].
      apply negb_true_iff, String.eqb_neq. exact Hne. }
  split; [|split; [|split; [|split]]].
  - intros Hout. destruct (find (named n) t) as [r|] eqn:E; [|reflexivity].
    apply find_some in E as [Hr Hn]. apply String.eqb_eq in Hn.
    exfalso. apply Hout. apply list_elem_of_In, in_map_iff. eauto.
  - intros Hin. apply list_elem_of_In, in_map_iff in Hin as (r & Hn & Hr).
    destruct (find (named n) t) as [r'|] eqn:E.
    + apply find_some in E as [Hr' Hn']. apply String.eqb_eq in Hn'.
      exists r'. split; [apply list_elem_of_In, Hr'|]. split; [exact Hn'|reflexivity].
    + apply (find_none _ _ E) in Hr. unfold named in Hr.
      apply String.eqb_neq in Hr. contradiction.
  - exact Hdel.
  - apply filter_absent.
  - intros v n'. rewrite map_app, elem_of_app, Hdel. cbn [map name].
    rewrite list_elem_of_singleton.
    destruct (decide (n' = n)); tauto.
Qed.

(** One row per name and one row per id. *)
Definition well_keyed (t : table) : Prop :=
  NoDup (map name t) /\ NoDup (map id t).

Lemma next_id_fresh (t : table) r : In r t -> id r < next_id t.
Proof.
  unfold next_id. induction t as [|x t IH]; cbn [In map fold_right]; [tauto|].
  intros [->|H]; [lia|]. specialize (IH H). lia.
Qed.

Lemma NoDup_map_filter {B C} (f : B -> C) (p : B -> bool) (l : list B) :
  NoDup (map f l) -> NoDup (map f (List.filter p l)).
Proof.
  induction l as [|x l IH]; cbn [map List.filter]; [auto|].
  intros H. apply NoDup_cons in H as [Hx Hl]. destruct (p x); cbn [map]; auto.
  apply NoDup_cons. split; [|auto].
  intros Hin. apply Hx. apply list_elem_of_In, in_map_iff in Hin as (y & Hy & Hin).
  apply filter_In in Hin as [Hin _]. apply list_elem_of_In, in_map_iff. eauto.
Qed.

(** The store keeps its keys unique: after any store or delete on a table
    with one row per name and per id (the empty table, say) there is again
    one row per name and per id; storing under a name that is there keeps
    the number of profiles, storing under a new name adds one. *)
Theorem store_keeps_keys_unique (t : table) (n : string) (v : value) :
  well_keyed t ->
  well_keyed (set t n v) /\
  well_keyed (__delitem__ t n) /\
  (n ∈ __iter__ t -> length (set t n v) = length t) /\
  (n ∉ __iter__ t -> length (set t n v) = S (length t)).
Proof.
  intros [Hn Hi]. unfold __setitem__, __delitem__, __iter__.
  set (kept := List.filter (fun r => negb (named n r)) t).
  assert (NoDup (map name kept)) as Hkn by (apply NoDup_map_filter, Hn).
  assert (NoDup (map id kept)) as Hki by (apply NoDup_map_filter, Hi).
  split; [|split; [|split]].
  - split; rewrite map_app; cbn [map name id]; apply NoDup_app.
    + split; [exact Hkn|]. split; [|apply NoDup_singleton].
      intros x Hx Hx'. apply list_elem_of_singleton in Hx' as ->.
      apply list_elem_of_In, in_map_iff in Hx as (r & Hr & Hin).
      apply filter_In in Hin as [_ Hin]. apply negb_true_iff, String.eqb_neq in Hin.
      contradiction.
    + split; [exact Hki|]. split; [|apply NoDup_singleton].
      intros x Hx Hx'. apply list_elem_of_singleton in Hx' as ->.
      apply list_elem_of_In, in_map_iff in Hx as (r & Hr & Hin).
      apply filter_In in Hin as [Hin _]. apply next_id_fresh in Hin. lia.
  - split; assumption.
  - intros Hin. rewrite length_app. cbn [length].
    clear Hkn Hki Hi. subst kept. induction t as [|r t IH]; [inversion Hin|].
    cbn [map] in Hn. apply NoDup_cons in Hn as [Hr Hn].
    cbn [List.filter length]. destruct (named n r) eqn:E; cbn [negb length].
    + apply String.eqb_eq in E.
      rewrite filter_absent by congruence. lia.
    + cbn [map] in Hin. apply elem_of_cons in Hin as [Hin|Hin].
      * apply String.eqb_neq in E. congruence.
      * specialize (IH Hn Hin). lia.
  - intros Hout. rewrite length_app. cbn [length].
    subst kept. rewrite filter_absent by exact Hout. lia.
Qed.

End ProfileStoreLaws.

Module ProfileExample.
Import Config.

Definition profiles : table :=
  [Row 1 "admin" "{}"; Row 2 "guest" "[]"].

End ProfileExample.

Lemma other_profiles_untouched_witness :
  Config.__getitem__ string ok
    (Config.__setitem__ string (fun v => v) ProfileExample.profiles "admin" "1") "guest"
  = ok "[]"%string.
Proof.
  etransitivity.
  - apply (other_profiles_untouched string (fun v => v) ok ProfileExample.profiles
             "admin" "guest" "1"%string). discriminate.
  - reflexivity.
Defined.

Lemma enumeration_agrees_witness :
  Config.__getitem__ string ok ProfileExample.profiles "nobody" = raise (KeyError "nobody") /\
  Config.__delitem__ ProfileExample.profiles "nobody" = ProfileExample.profiles.
Proof.
  destruct (enumeration_agrees string (fun v => v) ok ProfileExample.profiles "nobody")
    as (Hmissing & _ & _ & Hsilent & _).
  assert ("nobody"%string ∉ Config.__iter__ ProfileExample.profiles) as Hout.
  { intros Hin. apply list_elem_of_In in Hin. cbn in Hin.
    destruct Hin as [|[|[]]]; discriminate. }
  split; [apply Hmissing|apply Hsilent]; exact Hout.
Defined.

Lemma store_keeps_keys_unique_witness :
  well_keyed (Config.__setitem__ string (fun v => v) ProfileExample.profiles "admin" "1") /\
  length (Config.__setitem__ string (fun v => v) ProfileExample.profiles "admin" "1") = 2%nat.
Proof.
  assert (well_keyed ProfileExample.profiles) as Hwk.
  { split; cbn; repeat constructor; rewrite ?elem_of_cons, ?elem_of_nil;
      intuition discriminate. }
  destruct (store_keeps_keys_unique string (fun v => v) ProfileExample.profiles
              "admin" "1"%string Hwk) as (Hset & _ & Hsame & _).
  split; [exact Hset|]. apply Hsame. left.
Defined.

(** ** Scripts: deletion and numeric names *)

Section ScriptDeletion.
Import Scripts ScriptsAdmin.
Variable previous_versions : VersionedTextFile -> list VersionedTextFile.
Variable Int_to_python : string -> result (option Z).







End ScriptDeletion.

Module DeletionExample.
Import Scripts.




End DeletionExample.



(** ** Static addresses: what a successful call leaves behind *)

Section StaticIPSuccess.
Import MacAddress.

Lemma get_or_create_inv (d d' : database) a alloc owner sub s created :
  get_or_create d a alloc owner sub = ok (d', s, created) ->
  (created = false /\ d' = d /\ In s (static_ips d) /\ ip s = a /\
   List.filter (fun y => ip y =? a) (static_ips d) = [s]) \/
  (created = true /\
   s = {| sip_id := next_sip_id d; ip := a; alloc_type := alloc;
          user := owner; sip_subnet := sub |} /\
   static_ips d' = static_ips d ++ [s] /\ links d' = links d /\
   nodegroups d' = nodegroups d /\ dynamic_ranges d' = dynamic_ranges d /\
   effects d' = effects d /\
   forall y, In y (static_ips d) -> ip y <> a).
Proof.
  unfold get_or_create.
  destruct (List.filter (fun y => ip y =? a) (static_ips d)) as [|x [|y l]] eqn:E;
    try discriminate.
  - intros [= <- <- <-]. right. repeat split.
    intros y Hy Hip. assert (In y []) as []. rewrite <- E. apply filter_In.
    split; [exact Hy|]. apply Z.eqb_eq, Hip.
  - intros [= <- <- <-]. left.
    assert (In x (List.filter (fun y => ip y =? a) (static_ips d))) as H
      by (rewrite E; left; reflexivity).
    apply filter_In in H as [H1 H2]. apply Z.eqb_eq in H2. repeat split; assumption.
Qed.

Lemma macaddress_set_get_inv (d : database) s mac m :
  macaddress_set_get d s mac = ok (Some m) -> In (mac, sip_id s) (links d).
Proof.
  unfold macaddress_set_get.
  destruct (List.filter _ (links d)) as [|x [|y l]] eqn:E; try discriminate.
  intros _.
  assert (In x (List.filter (fun l => String.eqb (fst l) mac && (snd l =? sip_id s))
                            (links d))) as H by (rewrite E; left; reflexivity).
  apply filter_In in H as [H1 H2]. apply andb_prop in H2 as [Hm Hi].
  apply String.eqb_eq in Hm. apply Z.eqb_eq in Hi.
  destruct x as [m' i']. cbn [fst snd] in *. subst. exact H1.
Qed.

(** The two ways a call succeeds: the row was there, or it was made. *)
Definition returned_existing (db db' : database) (self : MACAddress) a s : Prop :=
  static_ips db' = static_ips db /\ links db' = links db /\
  In s (static_ips db) /\ ip s = a /\ alloc_type s = STICKY /\
  In (mac_address self, sip_id s) (links db).

Definition created_new (db db' : database) (self : MACAddress) a owner s : Prop :=
  static_ips db' = static_ips db ++ [s] /\
  links db' = links db ++ [(mac_address self, sip_id s)] /\
  sip_id s = next_sip_id db /\ ip s = a /\ alloc_type s = STICKY /\
  user s = owner /\
  forall y, In y (static_ips db) -> ip y <> a.

Lemma tail_inv (d d' : database) (self : MACAddress) ci s uhm :
  get_cluster_interface self = ok ci ->
  (if uhm : bool then
     try! relevant_clusters :=
       (match ci with
        | Some i => ok [nodegroup i]
        | None => _get_dhcp_managed_clusters d None
        end) in
     let ip_mapping := [(ip s, mac_address self)] in
     match node self with
     | None => raise AttributeError
     | Some n =>
         let d1 := with_effect d
                     (HostMapsUpdated (hostname n) ip_mapping relevant_clusters) in
         update_related_dns_zones d1 self
     end
   else ok d) = ok d' ->
  host_maps_possible self uhm /\
  static_ips d' = static_ips d /\ links d' = links d /\
  nodegroups d' = nodegroups d /\ dynamic_ranges d' = dynamic_ranges d.
Proof.
  intros Hci. unfold host_maps_possible. destruct uhm.
  - destruct (node self) as [n|] eqn:Hn.
    + unfold update_related_dns_zones, _get_device_cluster_or_default.
      rewrite Hci. destruct ci; cbn; intros [= <-]; repeat split; eauto.
    + destruct ci; cbn; discriminate.
  - intros [= <-]. repeat split; auto.
Qed.

Lemma set_static_ip_ok_inv (db db' : database) (self : MACAddress) a owner fabric uhm s :
  set_static_ip db self a owner fabric uhm = ok (db', s) ->
  fabric = None /\
  exists ci,
    in_cluster_network self a ci /\
    outside_dynamic_ranges db a /\
    host_maps_possible self uhm /\
    nodegroups db' = nodegroups db /\
    dynamic_ranges db' = dynamic_ranges db /\
    (returned_existing db db' self a s \/ created_new db db' self a owner s).
Proof.
  unfold set_static_ip. destruct fabric; [discriminate|]. intros H.
  split; [reflexivity|].
  apply bind_ok in H as (ci & Hci & H). exists ci.
  apply bind_ok in H as ([] & Hnet & H).
  apply bind_ok in H as ([] & Hdyn & H).
  assert (in_cluster_network self a ci) as Hin.
  { split; [exact Hci|]. intros i ->.
    destruct (network i) as [net|]; [|discriminate]. exists net.
    split; [reflexivity|].
    destruct (in_network a net); [reflexivity|discriminate]. }
  assert (outside_dynamic_ranges db a) as Hout.
  { unfold outside_dynamic_ranges. unfold raise_if_address_inside_dynamic_range in Hdyn.
    destruct (existsb _ _); [discriminate|reflexivity]. }
  split; [exact Hin|]. split; [exact Hout|].
  set (start := match ci with
                | None => (with_effect db (Warned "set_static_ip called without a cluster_interface"), None)
                | Some i => (db, subnet i)
                end) in H.
  assert (static_ips (fst start) = static_ips db /\ links (fst start) = links db /\
          nodegroups (fst start) = nodegroups db /\
          dynamic_ranges (fst start) = dynamic_ranges db /\
          next_sip_id (fst start) = next_sip_id db) as (Es & El & En & Ed & Ei).
  { subst start. destruct ci; repeat split. }
  destruct start as [d0 sub]. cbn [fst] in *.
  apply bind_ok in H as ([[d1 s1] created] & Hgoc & H).
  apply bind_ok in H as (d2 & Hlink & H).
  apply bind_ok in H as (d3 & Htail & H).
  injection H as <- <-.
  destruct (tail_inv _ _ _ _ _ _ Hci Htail) as (Hpos & Ts & Tl & Tn & Td).
  split; [exact Hpos|].
  apply get_or_create_inv in Hgoc as
    [(-> & -> & Hs & Hip & _)|(-> & Hnew & Cs & Cl & Cn & Cd & _ & Hfresh)].
  - destruct (negb (is_sticky (alloc_type s1))) eqn:Hst; [discriminate|].
    apply bind_ok in Hlink as (m & Hget & Hlink).
    destruct m as [m|]; [|discriminate]. injection Hlink as <-.
    apply macaddress_set_get_inv in Hget.
    split; [congruence|]. split; [congruence|]. left.
    unfold returned_existing. rewrite Ts, Tl, Es, El.
    repeat split; try congruence.
    destruct (alloc_type s1); try discriminate. reflexivity.
  - injection Hlink as <-. cbn [save_link static_ips links nodegroups dynamic_ranges] in *.
    split; [congruence|]. split; [congruence|]. right.
    unfold created_new. rewrite Ts, Tl, Cs, Cl, Es, El.
    subst s1. cbn [sip_id ip alloc_type user]. rewrite Ei.
    repeat split. intros y Hy. apply Hfresh. rewrite Es. exact Hy.
Qed.

End StaticIPSuccess.

Section StaticIPInvariant.
Import MacAddress.

(** The tables are consistent: one row per address, one row per link, and
    every link leads to a row. *)
Definition consistent (db : database) : Prop :=
  NoDup (map ip (static_ips db)) /\ NoDup (links db) /\
  forall l, In l (links db) -> exists s, In s (static_ips db) /\ sip_id s = snd l.

Lemma next_sip_id_fresh (db : database) s :
  In s (static_ips db) -> sip_id s < next_sip_id db.
Proof.
  unfold next_sip_id. induction (static_ips db) as [|x l IH];
    cbn [In map fold_right]; [tauto|].
  intros [->|H]; [lia|]. specialize (IH H). lia.
Qed.


Lemma set_static_ip_consistent (db db' : database) (self : MACAddress)
    a owner fabric uhm s :
  consistent db ->
  set_static_ip db self a owner fabric uhm = ok (db', s) ->
  consistent db'.
Proof.
  intros (Hips & Hlinks & Href) Hcall.
  apply set_static_ip_ok_inv in Hcall
    as (_ & ci & _ & _ & _ & Hn & Hd & [Hold|Hnew]).
  - destruct Hold as (Es & El & _).
    unfold consistent; rewrite Es, El; auto.
  - destruct Hnew as (Es & El & Hid & Hip & Hty & _ & Hfresh).
    unfold consistent. rewrite Es, El. split; [|split].
    + rewrite map_app. apply NoDup_app. split; [exact Hips|].
      split; [|apply NoDup_singleton].
      intros x Hx Hx'. cbn [map] in Hx'. apply list_elem_of_singleton in Hx' as ->.
      apply list_elem_of_In, in_map_iff in Hx as (y & Hy & Hin).
      apply (Hfresh y Hin). congruence.
    + apply NoDup_app. split; [exact Hlinks|]. split; [|apply NoDup_singleton].
      intros x Hx Hx'. apply list_elem_of_singleton in Hx' as ->.
      apply list_elem_of_In, Href in Hx as (y & Hy & Hid').
      apply next_sip_id_fresh in Hy. cbn [snd] in Hid'. lia.
    + intros l Hl. apply in_app_or in Hl as [Hl|[<-|[]]].
      * destruct (Href l Hl) as (y & Hy & Hid'). exists y. split; [|exact Hid'].
        apply in_or_app. left. exact Hy.
      * exists s. split; [|reflexivity]. apply in_or_app. right. left. reflexivity.
Qed.

Lemma set_static_ip_row (db db' : database) (self : MACAddress)
    a owner fabric uhm s :
  set_static_ip db self a owner fabric uhm = ok (db', s) ->
  In s (static_ips db') /\ ip s = a /\ alloc_type s = STICKY /\
  In (mac_address self, sip_id s) (links db') /\
  (exists rows, static_ips db' = static_ips db ++ rows) /\
  (exists pairs, links db' = links db ++ pairs).
Proof.
  intros Hcall.
  apply set_static_ip_ok_inv in Hcall
    as (_ & ci & _ & _ & _ & Hn & Hd & [Hold|Hnew]).
  - destruct Hold as (Es & El & Hs & Hip & Hty & Hl).
    rewrite Es, El. repeat split; auto; exists []; rewrite app_nil_r; reflexivity.
  - destruct Hnew as (Es & El & Hid & Hip & Hty & _ & Hfresh).
    rewrite Es, El; repeat split; eauto using in_or_app, in_eq.
Qed.

(** The rows have ids of their own. *)
Definition unique_ids (db : database) : Prop :=
  NoDup (map sip_id (static_ips db)).

(** A call that succeeds returns a STICKY row of the requested address that
    is linked to the MAC, keeps the tables consistent (one row per address,
    one row per link, every link leading to a row), keeps the ids of the
    rows unique when they were, and only ever adds to the tables: the rows
    and links that were there are still there, unchanged, and the cluster
    tables are untouched. *)
Theorem set_static_ip_keeps_consistent (db db' : database) (self : MACAddress)
    a owner fabric uhm s :
  consistent db ->
  set_static_ip db self a owner fabric uhm = ok (db', s) ->
  consistent db' /\
  (unique_ids db -> unique_ids db') /\
  In s (static_ips db') /\ ip s = a /\ alloc_type s = STICKY /\
  In (mac_address self, sip_id s) (links db') /\
  (exists rows, static_ips db' = static_ips db ++ rows) /\
  (exists pairs, links db' = links db ++ pairs) /\
  nodegroups db' = nodegroups db /\ dynamic_ranges db' = dynamic_ranges db.
Proof.
  intros Hcons Hcall.
  split; [exact (set_static_ip_consistent _ _ _ _ _ _ _ _ Hcons Hcall)|].
  destruct (set_static_ip_row _ _ _ _ _ _ _ _ Hcall)
    as (Hs & Hip & Hty & Hl & Hrows & Hpairs).
  apply set_static_ip_ok_inv in Hcall as (_ & ci & _ & _ & _ & Hn & Hd & Hcase).
  split; [|repeat split; assumption].
  unfold unique_ids. intros Hids.
  destruct Hcase as [(Es & _)|(Es & _ & Hid & _)]; rewrite Es; [exact Hids|].
  rewrite map_app. apply NoDup_app. split; [exact Hids|].
  split; [|apply NoDup_singleton].
  intros x Hx Hx'. cbn [map] in Hx'. apply list_elem_of_singleton in Hx' as ->.
  apply list_elem_of_In, in_map_iff in Hx as (y & Hy & Hin).
  apply next_sip_id_fresh in Hin. lia.
Qed.


End StaticIPInvariant.

Module StaticIPAgain.
Import MacAddress StaticIPExample.

Definition outcome : result (database * StaticIPAddress) :=
  Eval vm_compute in set_static_ip tables mac 160 (Some "bob"%string) None true.

Definition after : database :=
  Eval vm_compute in
    match outcome with
    | inr (d, _) => d
    | inl _ => tables
    end.

Definition made : StaticIPAddress :=
  {| sip_id := 2; ip := 160; alloc_type := STICKY; user := Some "bob"%string;
     sip_subnet := Some 1 |}.


End StaticIPAgain.

Lemma tables_consistent : consistent StaticIPExample.tables.
Proof.
  split; [apply NoDup_singleton|]. split; [apply NoDup_singleton|].
  intros l [<-|[]]. exists StaticIPExample.held. split; [left|]; reflexivity.
Qed.

Lemma set_static_ip_keeps_consistent_witness :
  consistent StaticIPAgain.after /\
  unique_ids StaticIPAgain.after /\
  In StaticIPAgain.made (MacAddress.static_ips StaticIPAgain.after).
Proof.
  destruct (set_static_ip_keeps_consistent StaticIPExample.tables StaticIPAgain.after
              StaticIPExample.mac 160 (Some "bob"%string) None true StaticIPAgain.made
              tables_consistent eq_refl) as (Hc & Hids & Hin & _).
  split; [exact Hc|]. split; [|exact Hin].
  apply Hids. apply NoDup_singleton.
Defined.


(** ** Leases: which cluster interface a MAC ends up on *)

Section LeaseFacts.
Import MacAddress Leases.

(** The last interface of the dictionary whose dynamic or static range
    holds the address. *)
Fixpoint last_cover (ip : Z)
    (d : list (NodeGroupInterface * (IPNetwork * option IPNetwork)))
    : option NodeGroupInterface :=
  match d with
  | [] => None
  | (interface, r) :: rest =>
      match last_cover ip rest with
      | Some l => Some l
      | None => if in_range ip r then Some interface else None
      end
  end.

Lemma save_in (st : state) (m m1 : MACAddress) :
  In m (macs st) -> mac_address m1 = mac_address m -> In m1 (macs (save st m1)).
Proof.
  intros Hin Heq. unfold save. cbn [macs]. apply in_map_iff. exists m.
  split; [|exact Hin]. rewrite Heq, String.eqb_refl. reflexivity.
Qed.

Lemma save_addresses (st : state) (m1 : MACAddress) :
  map mac_address (macs (save st m1)) = map mac_address (macs st).
Proof.
  unfold save. cbn [macs]. rewrite map_map. apply map_ext. intros x.
  destruct (String.eqb_spec (mac_address x) (mac_address m1)); congruence.
Qed.

Lemma save_others (st : state) (m1 x : MACAddress) :
  mac_address x <> mac_address m1 ->
  In x (macs (save st m1)) <-> In x (macs st).
Proof.
  intros Hne. unfold save. cbn [macs]. rewrite in_map_iff. split.
  - intros (y & Hy & Hin).
    destruct (String.eqb_spec (mac_address y) (mac_address m1)); congruence.
  - intros Hin. exists x. split; [|exact Hin].
    destruct (String.eqb_spec (mac_address x) (mac_address m1)); congruence.
Qed.

Lemma macs_link_network st net mac : macs (link_network st net mac) = macs st.
Proof. reflexivity. Qed.

Lemma over_interfaces_spec ip d : forall st m st' m',
  In m (macs st) ->
  over_interfaces st m ip d = inr (st', m') ->
  In m' (macs st') /\ mac_address m' = mac_address m /\ node m' = node m /\
  cluster_interface m' =
    match last_cover ip d with
    | Some l => Some l
    | None => cluster_interface m
    end /\
  map mac_address (macs st') = map mac_address (macs st) /\
  (forall x, mac_address x <> mac_address m ->
             In x (macs st') <-> In x (macs st)).
Proof.
  induction d as [|[interface r] d IH]; intros st m st' m' Hin; cbn [over_interfaces last_cover].
  - intros [= <- <-]. repeat split; auto.
  - destruct (bool_decide (cluster_interface m = Some interface)) eqn:Hsame.
    { apply bool_decide_eq_true in Hsame. intros H.
      destruct (IH _ _ _ _ Hin H) as (H1 & H2 & H3 & H4 & H5 & H6).
      repeat split; auto; try apply H6; auto.
      rewrite H4. destruct (last_cover ip d); [reflexivity|].
      destruct (in_range ip r); congruence. }
    destruct (in_range ip r) eqn:Hr; cbn [negb].
    2:{ intros H. destruct (IH _ _ _ _ Hin H) as (H1 & H2 & H3 & H4 & H5 & H6).
        repeat split; auto; try apply H6; auto.
        rewrite H4. destruct (last_cover ip d); reflexivity. }
    cbn [node mac_address]. destruct (node m) as [n|] eqn:Hn; [|discriminate].
    set (m1 := {| mac_address := mac_address m; node := Some n;
                  cluster_interface := Some interface |}).
    intros H.
    match type of H with over_interfaces ?s _ _ _ = _ =>
      assert (macs s = macs (save st m1)) as Hmacs
        by (destruct (network interface); reflexivity);
      assert (In m1 (macs s)) as Hin1
        by (rewrite Hmacs; apply (save_in st m m1 Hin); reflexivity)
    end.
    destruct (IH _ _ _ _ Hin1 H) as (H1 & H2 & H3 & H4 & H5 & H6).
    rewrite Hmacs in H5, H6. rewrite save_addresses in H5.
    cbn [mac_address node cluster_interface] in *.
    split; [exact H1|]. split; [exact H2|].
    split; [exact H3|].
    split; [rewrite H4; destruct (last_cover ip d); reflexivity|].
    split; [exact H5|].
    intros x Hx. rewrite (H6 x Hx). apply (save_others st m1 x). exact Hx.
Qed.

Lemma interface_ranges_from cluster d i dr sr :
  interface_ranges cluster = inr d -> In (i, (dr, sr)) d ->
  exists rg,
    In (i, rg) cluster /\
    ip_range_low rg = Some (first dr) /\ ip_range_high rg = Some (last dr) /\
    match sr with
    | Some s => static_ip_range_low rg = Some (first s) /\
                static_ip_range_high rg = Some (last s)
    | None => True
    end.
Proof.
  revert d. induction cluster as [|[j rg] cluster IH]; intros d; cbn [interface_ranges].
  - intros [= <-] [].
  - destruct (ip_range_low rg) as [low|] eqn:Hlow;
      [destruct (ip_range_high rg) as [high|] eqn:Hhigh|].
    2,3: intros H Hin; destruct (IH _ H Hin) as (rg' & Hrg & Hrest);
         exists rg'; split; [right; exact Hrg|exact Hrest].
    unfold IPRange at 1. destruct (high <? low); [discriminate|].
    destruct (match static_ip_range_low rg, static_ip_range_high rg with
              | Some slow, Some shigh =>
                  match IPRange slow shigh with
                  | inl e => inl e
                  | inr static_range => inr (Some static_range)
                  end
              | _, _ => inr None
              end) as [e|sr'] eqn:Hs; [discriminate|].
    destruct (interface_ranges cluster) as [e|d'] eqn:Hd; [discriminate|].
    intros [= <-] [Heq|Hin].
    + injection Heq as -> <- <-. exists rg. split; [left; reflexivity|].
      cbn [first last]. repeat split; try assumption.
      destruct sr' as [s|]; [|exact I].
      destruct (static_ip_range_low rg) as [slow|]; [|discriminate].
      destruct (static_ip_range_high rg) as [shigh|]; [|discriminate].
      unfold IPRange in Hs. destruct (shigh <? slow); [discriminate|].
      injection Hs as <-. split; reflexivity.
    + destruct (IH _ eq_refl Hin) as (rg' & Hrg & Hrest).
      exists rg'. split; [right; exact Hrg|exact Hrest].
Qed.

Lemma last_cover_in ip d l :
  last_cover ip d = Some l -> exists r, In (l, r) d /\ in_range ip r = true.
Proof.
  induction d as [|[i r] d IH]; cbn [last_cover]; [discriminate|].
  destruct (last_cover ip d) as [l'|].
  - intros [= <-]. destruct (IH eq_refl) as (r' & Hin & Hr). exists r'.
    split; [right; exact Hin|exact Hr].
  - destruct (in_range ip r) eqn:Hr; [|discriminate]. intros [= <-].
    exists r. split; [left; reflexivity|exact Hr].
Qed.

Lemma find_unique_mac (l : list MACAddress) m :
  NoDup (map mac_address l) -> In m l ->
  find (fun x => String.eqb (mac_address x) (mac_address m)) l = Some m.
Proof.
  induction l as [|x l IH]; cbn [map In find]; [tauto|].
  intros Hnd Hin. apply NoDup_cons in Hnd as [Hx Hnd].
  destruct Hin as [->|Hin]; [rewrite String.eqb_refl; reflexivity|].
  destruct (String.eqb_spec (mac_address x) (mac_address m)) as [Heq|_].
  - exfalso. apply Hx. rewrite Heq. apply list_elem_of_In, in_map, Hin.
  - apply IH; assumption.
Qed.

(** After a lease of a known MAC has been processed, the MAC is on the
    interface it was on, or on a configured interface of the cluster whose
    dynamic or static range holds the leased address: it is never moved to
    an interface whose ranges do not hold the address.
    The other MACs are left as they are, and a lease of an unknown MAC
    changes nothing. *)
Theorem lease_links_mac (st st' : state) (ip : Z) (mac : string)
    (cluster : list (NodeGroupInterface * ranges)) :
  update_mac_cluster_interfaces st ip mac cluster = inr st' ->
  ((forall x, In x (macs st) -> mac_address x <> mac) -> st' = st) /\
  (forall m,
     NoDup (map mac_address (macs st)) -> In m (macs st) -> mac_address m = mac ->
     exists m',
       In m' (macs st') /\ mac_address m' = mac /\ node m' = node m /\
       (cluster_interface m' = cluster_interface m \/
        exists l rg low high,
          cluster_interface m' = Some l /\ In (l, rg) cluster /\
          ip_range_low rg = Some low /\ ip_range_high rg = Some high /\
          (low <= ip <= high \/
           exists slow shigh,
             static_ip_range_low rg = Some slow /\
             static_ip_range_high rg = Some shigh /\ slow <= ip <= shigh)) /\
       map mac_address (macs st') = map mac_address (macs st) /\
       (forall x, mac_address x <> mac -> In x (macs st') <-> In x (macs st))).
Proof.
  unfold update_mac_cluster_interfaces, update_macs_cluster_interfaces.
  destruct (interface_ranges cluster) as [e|d] eqn:Hd; [discriminate|].
  cbn [over_leases]. intros H. split.
  - intros Hnone.
    destruct (find (fun m => String.eqb (mac_address m) mac) (macs st)) as [m|] eqn:Hf.
    + apply find_some in Hf as [Hin Heq]. apply String.eqb_eq in Heq.
      exfalso. exact (Hnone m Hin Heq).
    + congruence.
  - intros m Hnd Hin <-. rewrite (find_unique_mac _ _ Hnd Hin) in H.
    destruct (over_interfaces st m ip d) as [e|[st1 m']] eqn:Ho; [discriminate|].
    injection H as <-.
    destruct (over_interfaces_spec ip d st m st1 m' Hin Ho)
      as (H1 & H2 & H3 & H4 & H5 & H6).
    exists m'. repeat split; auto; try apply H6; auto.
    destruct (last_cover ip d) as [l|] eqn:Hl; [right|left; exact H4].
    apply last_cover_in in Hl as ([dr sr] & Hld & Hr).
    destruct (interface_ranges_from _ _ _ _ _ Hd Hld) as (rg & Hrg & Hlow & Hhigh & Hst).
    exists l, rg, (first dr), (last dr). repeat split; auto.
    unfold in_range, in_network in Hr. cbn [fst snd] in Hr.
    apply orb_prop in Hr as [Hr|Hr].
    + left. lia.
    + right. destruct sr as [s|]; [|discriminate]. destruct Hst as [Hsl Hsh].
      exists (first s), (last s). repeat split; auto; lia.
Qed.

(** A configured interface whose dynamic range has its lower bound above
    its upper bound makes the whole update fail with [AddrFormatError],
    before any lease is looked at. *)
Theorem inverted_range_aborts (st : state) (leases : list (Z * string))
    (cluster : list (NodeGroupInterface * ranges)) i rg low high :
  In (i, rg) cluster ->
  ip_range_low rg = Some low -> ip_range_high rg = Some high -> high < low ->
  update_macs_cluster_interfaces st leases cluster = inl AddrFormatError.
Proof.
  intros Hin Hlow Hhigh Hinv. unfold update_macs_cluster_interfaces.
  assert (interface_ranges cluster = inl AddrFormatError) as ->; [|reflexivity].
  assert (forall c e, interface_ranges c = inl e -> e = AddrFormatError) as Honly.
  { induction c as [|[j r] c IH]; cbn [interface_ranges]; [discriminate|].
    intros e. destruct (ip_range_low r), (ip_range_high r); try apply IH.
    unfold IPRange. destruct (_ <? _); [congruence|].
    destruct (static_ip_range_low r), (static_ip_range_high r);
      try destruct (_ <? _); try congruence;
      destruct (interface_ranges c) eqn:E; try discriminate;
      intros [= <-]; apply IH; reflexivity. }
  induction cluster as [|[j r] cluster IH]; [destruct Hin|].
  cbn [interface_ranges]. destruct Hin as [Heq|Hin].
  - injection Heq as -> ->. rewrite Hlow, Hhigh. unfold IPRange at 1.
    destruct (Z.ltb_spec high low); [reflexivity|lia].
  - specialize (IH Hin).
    destruct (ip_range_low r), (ip_range_high r); try exact IH.
    unfold IPRange at 1. destruct (_ <? _); [reflexivity|].
    destruct (match static_ip_range_low r, static_ip_range_high r with
              | Some slow, Some shigh =>
                  match IPRange slow shigh with
                  | inl e => inl e
                  | inr static_range => inr (Some static_range)
                  end
              | _, _ => inr None
              end) as [e|sr] eqn:Hs.
    + f_equal. destruct (static_ip_range_low r), (static_ip_range_high r);
        try discriminate. unfold IPRange in Hs. destruct (_ <? _); congruence.
    + rewrite IH. reflexivity.
Qed.

End LeaseFacts.

Module LeaseExample.
Import MacAddress Leases.

Definition eth1 : NodeGroupInterface :=
  {| ngi_name := "eth1"; nodegroup := StaticIPExample.cluster;
     network := Some {| first := 300; last := 400 |}; subnet := Some 2 |}.

Definition configured : list (NodeGroupInterface * ranges) :=
  [(StaticIPExample.eth0,
    {| ip_range_low := Some 180; ip_range_high := Some 200;
       static_ip_range_low := Some 120; static_ip_range_high := Some 170 |});
   (eth1,
    {| ip_range_low := Some 380; ip_range_high := Some 400;
       static_ip_range_low := None; static_ip_range_high := None |})].

Definition inverted : list (NodeGroupInterface * ranges) :=
  [(eth1,
    {| ip_range_low := Some 400; ip_range_high := Some 380;
       static_ip_range_low := None; static_ip_range_high := None |})].

Definition unlinked : MACAddress :=
  {| mac_address := "aa:bb:cc:dd:ee:ff"; node := Some StaticIPExample.device;
     cluster_interface := None |}.

Definition before : state :=
  {| macs := [unlinked]; networks := [ {| network_ip := 100; macaddress_set := [] |} ];
     logged := [] |}.

Definition afterwards : state :=
  Eval vm_compute in
    match update_mac_cluster_interfaces before 150 "aa:bb:cc:dd:ee:ff" configured with
    | inr st => st
    | inl _ => before
    end.

End LeaseExample.

Lemma lease_links_mac_witness :
  exists m',
    In m' (Leases.macs LeaseExample.afterwards) /\
    MacAddress.mac_address m' = "aa:bb:cc:dd:ee:ff"%string /\
    map MacAddress.mac_address (Leases.macs LeaseExample.afterwards)
      = map MacAddress.mac_address (Leases.macs LeaseExample.before).
Proof.
  destruct (lease_links_mac LeaseExample.before LeaseExample.afterwards 150
              "aa:bb:cc:dd:ee:ff" LeaseExample.configured eq_refl) as [_ Hknown].
  destruct (Hknown LeaseExample.unlinked) as (m' & Hin & Hmac & _ & _ & Hsame & _).
  - apply NoDup_singleton.
  - left. reflexivity.
  - reflexivity.
  - exists m'. repeat split; assumption.
Defined.

Lemma inverted_range_aborts_witness :
  Leases.update_macs_cluster_interfaces LeaseExample.before
    [(150, "aa:bb:cc:dd:ee:ff"%string)] LeaseExample.inverted
  = inl Leases.AddrFormatError.
Proof.
  apply (inverted_range_aborts LeaseExample.before
           [(150, "aa:bb:cc:dd:ee:ff"%string)] LeaseExample.inverted
           LeaseExample.eth1
           {| Leases.ip_range_low := Some 400; Leases.ip_range_high := Some 380;
              Leases.static_ip_range_low := None;
              Leases.static_ip_range_high := None |} 400 380);
    [left; reflexivity | reflexivity | reflexivity | lia].
Defined.

(** ** Addresses already allocated to a MAC *)

Section Allocations.
Import MacAddress Leases.

Lemma In_dec_interface (k : NodeGroupInterface) (l : list NodeGroupInterface) :
  In k l \/ ~ In k l.
Proof.
  destruct (decide (k ∈ l)) as [H|H]; [left|right]; rewrite <- list_elem_of_In; exact H.
Qed.

Lemma setitem_known_keys (d : list (NodeGroupInterface * option StaticIPAddress)) k v :
  In k (map fst d) -> map fst (setitem d k v) = map fst d.
Proof.
  induction d as [|[k' v'] d IH]; cbn [setitem map fst]; [intros []|].
  intros Hin. destruct (decide (k' = k)) as [->|Hne].
  - rewrite bool_decide_eq_true_2 by reflexivity. reflexivity.
  - rewrite bool_decide_eq_false_2 by exact Hne. cbn [map fst]. f_equal.
    apply IH. destruct Hin as [?|?]; [contradiction|assumption].
Qed.

Lemma setitem_new_key (d : list (NodeGroupInterface * option StaticIPAddress)) k v :
  ~ In k (map fst d) -> map fst (setitem d k v) = map fst d ++ [k].
Proof.
  induction d as [|[k' v'] d IH]; cbn [setitem map fst app]; [reflexivity|].
  intros Hout. rewrite bool_decide_eq_false_2.
  - cbn [map fst]. f_equal. apply IH. intros Hin. apply Hout. right. exact Hin.
  - intros ->. apply Hout. left. reflexivity.
Qed.

Lemma setitem_in (d : list (NodeGroupInterface * option StaticIPAddress)) k v i w :
  In (i, w) (setitem d k v) -> (i = k /\ w = v) \/ In (i, w) d.
Proof.
  induction d as [|[k' v'] d IH]; cbn [setitem].
  - intros [[= <- <-]|[]]. left. split; reflexivity.
  - destruct (bool_decide (k' = k)).
    + intros [[= <- <-]|Hin]; [left; split; reflexivity|right; right; exact Hin].
    + intros [Heq|Hin]; [right; left; exact Heq|].
      destruct (IH Hin) as [?|?]; [left; assumption|right; right; assumption].
Qed.

Lemma comprehension_keys (cis : list NodeGroupInterface) :
  forall d,
    NoDup (map fst d) ->
    (forall i w, In (i, w) d -> w = None) ->
    let d' := fold_left (fun d interface => setitem d interface None) cis d in
    NoDup (map fst d') /\
    (forall i, In i (map fst d') <-> In i (map fst d) \/ In i cis) /\
    (forall i w, In (i, w) d' -> w = None).
Proof.
  induction cis as [|c cis IH]; intros d Hnd Hnone; cbn [fold_left].
  - split; [exact Hnd|]. split; [|exact Hnone]. intros i. split; [left; assumption|].
    intros [?|[]]. assumption.
  - destruct (IH (setitem d c None)) as (H1 & H2 & H3).
    + destruct (In_dec_interface c (map fst d)) as [Hin|Hout].
      * rewrite setitem_known_keys by exact Hin. exact Hnd.
      * rewrite setitem_new_key by exact Hout.
        apply NoDup_app. split; [exact Hnd|]. split; [|apply NoDup_singleton].
        intros x Hx Hc. apply list_elem_of_In in Hx, Hc.
        destruct Hc as [<-|[]]. apply Hout. exact Hx.
    + intros i w Hin. apply setitem_in in Hin as [[_ ->]|Hin]; [reflexivity|].
      exact (Hnone i w Hin).
    + split; [exact H1|]. split; [|exact H3]. intros i. rewrite H2.
      destruct (In_dec_interface c (map fst d)) as [Hin|Hout].
      * rewrite setitem_known_keys by exact Hin. split.
        -- intros [?|?]; [left|right; right]; assumption.
        -- intros [?|[<-|?]]; [left|left|right]; assumption.
      * rewrite setitem_new_key by exact Hout. rewrite in_app_iff. split.
        -- intros [[?|[<-|[]]]|?]; [left|right; left|right; right]; auto.
        -- intros [?|[<-|?]]; [left; left|left; right; left|right]; auto.
Qed.

Lemma responsible_in (cis : list NodeGroupInterface) a i :
  find_cluster_interface_responsible_for_ip cis a = Some i ->
  In i cis /\ exists net, network i = Some net /\ in_network a net = true.
Proof.
  unfold find_cluster_interface_responsible_for_ip. intros Hf.
  apply find_some in Hf as [Hin Hnet]. split; [exact Hin|].
  destruct (network i) as [net|]; [|discriminate]. exists net. split; auto.
Qed.

Lemma allocations_fold (cis : list NodeGroupInterface) (rest : list StaticIPAddress) :
  forall start seen,
    NoDup (map fst start) ->
    (forall i, In i (map fst start) <-> In i cis) ->
    (forall i sip, In (i, Some sip) start ->
       In sip seen /\ find_cluster_interface_responsible_for_ip cis (ip sip) = Some i) ->
    let d :=
      fold_left
        (fun allocations sip =>
           match find_cluster_interface_responsible_for_ip cis (ip sip) with
           | Some interface => setitem allocations interface (Some sip)
           | None => allocations
           end) rest start in
    NoDup (map fst d) /\
    (forall i, In i (map fst d) <-> In i cis) /\
    (forall i sip, In (i, Some sip) d ->
       In sip (seen ++ rest) /\
       find_cluster_interface_responsible_for_ip cis (ip sip) = Some i).
Proof.
  induction rest as [|s rest IH]; intros start seen Hnd Hk Hv; cbn [fold_left].
  - rewrite app_nil_r. split; [exact Hnd|]. split; [exact Hk|exact Hv].
  - change (seen ++ s :: rest) with (seen ++ [s] ++ rest). rewrite app_assoc.
    destruct (find_cluster_interface_responsible_for_ip cis (ip s))
      as [interface|] eqn:Hf.
    + pose proof (responsible_in _ _ _ Hf) as [Hin _].
      apply IH.
      * rewrite setitem_known_keys by (apply Hk; exact Hin). exact Hnd.
      * intros i. rewrite setitem_known_keys by (apply Hk; exact Hin). apply Hk.
      * intros i sip Hi. apply setitem_in in Hi as [[-> [= ->]]|Hi].
        -- split; [apply in_or_app; right; left; reflexivity|exact Hf].
        -- destruct (Hv i sip Hi) as [Hs Hr]. split; [|exact Hr].
           apply in_or_app. left. exact Hs.
    + apply IH; [exact Hnd|exact Hk|].
      intros i sip Hi. destruct (Hv i sip Hi) as [Hs Hr]. split; [|exact Hr].
      apply in_or_app. left. exact Hs.
Qed.

(** [_map_allocated_addresses] returns a dictionary whose keys are exactly
    the given cluster interfaces, each once.  The value of an interface is
    either [None] or one of the addresses of this MAC, and then that
    interface is the one responsible for the address: the first of the
    given interfaces whose network holds it. *)
Theorem map_allocated_addresses_sound (db : database) (self : MACAddress)
    (cluster_interfaces : list NodeGroupInterface) :
  let allocations := _map_allocated_addresses db self cluster_interfaces in
  NoDup (map fst allocations) /\
  (forall i, In i (map fst allocations) <-> In i cluster_interfaces) /\
  (forall i sip,
     In (i, Some sip) allocations ->
     In sip (ip_addresses db self) /\
     find_cluster_interface_responsible_for_ip cluster_interfaces (ip sip) = Some i /\
     exists net, network i = Some net /\ in_network (ip sip) net = true).
Proof.
  unfold _map_allocated_addresses.
  destruct (comprehension_keys cluster_interfaces [])
    as (Hnd & Hkeys & Hnone); [apply NoDup_nil_2|intros ? ? []|].
  cbv zeta in Hnd, Hkeys, Hnone.
  destruct (allocations_fold cluster_interfaces (ip_addresses db self)
              (fold_left (fun d interface => setitem d interface None)
                 cluster_interfaces []) [] Hnd) as (H1 & H2 & H3).
  - intros i. rewrite Hkeys. cbn [map].
    split; [intros [[]|?]; assumption|right; assumption].
  - intros i sip Hin. discriminate (Hnone _ _ Hin).
  - cbv zeta. split; [exact H1|]. split; [exact H2|].
    intros i sip Hin. destruct (H3 i sip Hin) as [Hs Hf]. split; [exact Hs|].
    split; [exact Hf|]. apply responsible_in in Hf as [_ Hnet]. exact Hnet.
Qed.

End Allocations.

Lemma map_allocated_addresses_sound_witness :
  In StaticIPAgain.made
     (Leases.ip_addresses StaticIPAgain.after StaticIPExample.mac) /\
  MacAddress.find_cluster_interface_responsible_for_ip
    [StaticIPExample.eth0; LeaseExample.eth1] 160 = Some StaticIPExample.eth0.
Proof.
  destruct (map_allocated_addresses_sound StaticIPAgain.after StaticIPExample.mac
              [StaticIPExample.eth0; LeaseExample.eth1]) as (_ & _ & H).
  destruct (H StaticIPExample.eth0 StaticIPAgain.made) as (H1 & H2 & _).
  - vm_compute. left. reflexivity.
  - split; assumption.
Defined.

(** ** The prompts of the snap's commands *)

Section Prompts.
Import SecurityScripts Snappy.

(** An answer that [read_input] passes over. *)
Definition passed_over (e : tty_answer) : Prop := e = EOFError.

(** An answer that [required_prompt] does not accept. *)
Definition not_accepted (e : tty_answer) : Prop :=
  e = EOFError \/ e = Typed "" \/ e = Typed "help".

Lemma read_input_cases (prompt : string) (events : list tty_answer) :
  forall out,
    (exists skipped data rest out',
       events = skipped ++ Typed data :: rest /\ Forall passed_over skipped /\
       read_input prompt events out = Returned data rest out') \/
    (exists skipped rest out',
       events = skipped ++ KeyboardInterrupt :: rest /\ Forall passed_over skipped /\
       read_input prompt events out = SystemExit 1 out') \/
    (exists out', Forall passed_over events /\
                  read_input prompt events out = Waiting out').
Proof.
  induction events as [|e events IH]; intros out; cbn [read_input].
  - right. right. eexists. split; [constructor|reflexivity].
  - destruct e as [data| |].
    + left. exists [], data, events. eexists. repeat split. constructor.
    + destruct (IH (out ++ [prompt; newline]))
        as [(sk & data & rest & out' & -> & Hsk & Hr)
           |[(sk & rest & out' & -> & Hsk & Hr)|(out' & Hall & Hr)]].
      * left. exists (EOFError :: sk), data, rest, out'. repeat split; auto.
        constructor; [reflexivity|exact Hsk].
      * right. left. exists (EOFError :: sk), rest, out'. repeat split; auto.
        constructor; [reflexivity|exact Hsk].
      * right. right. exists out'. split; [|exact Hr].
        constructor; [reflexivity|exact Hall].
    + right. left. exists [], events. eexists. repeat split. constructor.
Qed.

Definition prompt_outcome (events : list tty_answer)
    (r : interaction (option string)) : Prop :=
  match r with
  | Returned value rest _ =>
      exists s skipped,
        value = Some s /\ s <> ""%string /\ s <> "help"%string /\
        events = skipped ++ Typed s :: rest /\ Forall not_accepted skipped
  | SystemExit code _ =>
      code = 1 /\ exists skipped rest,
        events = skipped ++ KeyboardInterrupt :: rest /\
        Forall not_accepted skipped
  | Raised _ _ => False
  | Waiting _ => Forall not_accepted events
  | OutOfFuel => False
  end.

Lemma prompt_outcome_later (skipped events : list tty_answer) r :
  Forall not_accepted skipped ->
  prompt_outcome events r -> prompt_outcome (skipped ++ events) r.
Proof.
  intros Hsk. destruct r as [v rest out|code out|e out|out|]; cbn [prompt_outcome]; auto.
  - intros (s & sk & Hv & Hs & Hh & -> & Hsk'). exists s, (skipped ++ sk).
    repeat split; auto; [apply app_assoc|apply Forall_app; split; assumption].
  - intros (Hc & sk & rest & -> & Hsk'). split; [exact Hc|].
    exists (skipped ++ sk), rest. split; [apply app_assoc|].
    apply Forall_app; split; assumption.
  - intros Hall. apply Forall_app; split; assumption.
Qed.

Lemma passed_over_not_accepted (l : list tty_answer) :
  Forall passed_over l -> Forall not_accepted l.
Proof. intros H. eapply Forall_impl; [exact H|]. intros e He. left. exact He. Qed.

Lemma first_accepted (sk sk' : list tty_answer) s s' rest rest' :
  Forall not_accepted sk -> Forall not_accepted sk' ->
  s <> ""%string -> s <> "help"%string ->
  s' <> ""%string -> s' <> "help"%string ->
  sk ++ Typed s :: rest = sk' ++ Typed s' :: rest' ->
  s' = s /\ rest' = rest.
Proof.
  revert sk'. induction sk as [|e sk IH]; intros [|e' sk'] Hsk Hsk' Hs Hh Hs' Hh' Heq;
    cbn [app] in Heq.
  - injection Heq as -> ->. split; reflexivity.
  - injection Heq as <- _. apply Forall_cons in Hsk' as [[H|[H|H]] _]; congruence.
  - injection Heq as -> _. apply Forall_cons in Hsk as [[H|[H|H]] _]; congruence.
  - injection Heq as _ Heq. apply Forall_cons in Hsk as [_ Hsk].
    apply Forall_cons in Hsk' as [_ Hsk']. apply (IH sk'); assumption.
Qed.

Lemma interrupt_not_first (sk sk' : list tty_answer) s rest rest' :
  Forall not_accepted sk -> Forall not_accepted sk' ->
  s <> ""%string -> s <> "help"%string ->
  sk ++ Typed s :: rest = sk' ++ KeyboardInterrupt :: rest' -> False.
Proof.
  revert sk'. induction sk as [|e sk IH]; intros [|e' sk'] Hsk Hsk' Hs Hh Heq;
    cbn [app] in Heq.
  - discriminate.
  - injection Heq as <- _. apply Forall_cons in Hsk' as [[H|[H|H]] _]; congruence.
  - injection Heq as -> _. apply Forall_cons in Hsk as [[H|[H|H]] _]; congruence.
  - injection Heq as _ Heq. apply Forall_cons in Hsk as [_ Hsk].
    apply Forall_cons in Hsk' as [_ Hsk']. apply (IH sk'); assumption.
Qed.

Lemma required_prompt_loop_outcome (prompt : string) (help_text : option string) :
  forall fuel events value out,
    (length events < fuel)%nat ->
    negb (truthy value) || bool_decide (value = Some "help"%string) = true ->
    prompt_outcome events
      (required_prompt_loop fuel prompt help_text value events out).
Proof.
  induction fuel as [|fuel IH]; intros events value out Hfuel Hcond; [lia|].
  cbn [required_prompt_loop]. rewrite Hcond.
  destruct (read_input_cases prompt events out)
    as [(sk & data & rest & out' & -> & Hsk & ->)
       |[(sk & rest & out' & -> & Hsk & ->)|(out' & Hall & ->)]].
  - rewrite length_app in Hfuel. cbn [length] in Hfuel.
    assert (forall out'',
              prompt_outcome (sk ++ Typed data :: rest)
                (required_prompt_loop fuel prompt help_text (Some data) rest out''))
      as Hnext.
    { intros out''.
      destruct (negb (truthy (Some data))
                || bool_decide (Some data = Some "help"%string)) eqn:Hc.
      - change (sk ++ Typed data :: rest) with (sk ++ [Typed data] ++ rest).
        rewrite app_assoc. apply prompt_outcome_later.
        + apply Forall_app. split; [apply passed_over_not_accepted, Hsk|].
          constructor; [|constructor]. apply orb_prop in Hc as [Hc|Hc].
          * right. left. destruct data; [reflexivity|discriminate].
          * right. right. apply bool_decide_eq_true_1 in Hc. congruence.
        + apply IH; [lia|exact Hc].
      - destruct fuel as [|fuel']; [lia|]. cbn [required_prompt_loop].
        rewrite Hc. cbn [prompt_outcome]. exists data, sk.
        apply orb_false_elim in Hc as [Hc1 Hc2].
        apply bool_decide_eq_false_1 in Hc2.
        repeat split; auto using passed_over_not_accepted.
        + intros ->. discriminate.
        + intros ->. apply Hc2. reflexivity. }
    destruct help_text as [h|]; [|rewrite andb_false_r; apply Hnext].
    destruct (String.eqb data "help" && truthy (Some h)); apply Hnext.
  - cbn [prompt_outcome]. split; [reflexivity|].
    exists sk, rest. split; [reflexivity|apply passed_over_not_accepted, Hsk].
  - cbn [prompt_outcome]. apply passed_over_not_accepted, Hall.
Qed.

(** [required_prompt] returns only an answer that is neither empty nor
    [help]: the first such answer typed, the answers before it being passed
    over.  It never raises an exception; it exits, with 1, only on an
    interrupt; and the steps given to the loop are never used up. *)
Theorem required_prompt_answer (prompt : string) (help_text : option string)
    (events : list tty_answer) :
  (forall value rest out,
     required_prompt prompt help_text events = Returned value rest out ->
     exists s skipped,
       value = Some s /\ s <> ""%string /\ s <> "help"%string /\
       events = skipped ++ Typed s :: rest /\ Forall not_accepted skipped) /\
  (forall code out,
     required_prompt prompt help_text events = SystemExit code out ->
     code = 1 /\ In KeyboardInterrupt events) /\
  (forall e out, required_prompt prompt help_text events <> Raised e out) /\
  required_prompt prompt help_text events <> OutOfFuel /\
  (forall skipped s rest,
     events = skipped ++ Typed s :: rest -> Forall not_accepted skipped ->
     s <> ""%string -> s <> "help"%string ->
     exists out, required_prompt prompt help_text events
                 = Returned (Some s) rest out).
Proof.
  pose proof (required_prompt_loop_outcome prompt help_text (S (length events))
                events None [] (Nat.lt_succ_diag_r _) eq_refl) as H.
  fold (required_prompt prompt help_text events) in H.
  split; [|split; [|split; [|split]]].
  - intros value rest out Heq. rewrite Heq in H. exact H.
  - intros code out Heq. rewrite Heq in H. destruct H as (Hc & sk & rest & -> & _).
    split; [exact Hc|]. apply in_or_app. right. left. reflexivity.
  - intros e out Heq. rewrite Heq in H. exact H.
  - intros Heq. rewrite Heq in H. exact H.
  - intros skipped s rest -> Hsk Hs Hh.
    destruct (required_prompt prompt help_text (skipped ++ Typed s :: rest))
      as [v rest' out|code out|e out|out|]; cbn [prompt_outcome] in H.
    + destruct H as (s' & sk' & -> & Hs' & Hh' & Heq & Hsk').
      destruct (first_accepted _ _ _ _ _ _ Hsk Hsk' Hs Hh Hs' Hh' Heq) as [-> ->].
      exists out. reflexivity.
    + exfalso. destruct H as (_ & sk' & rest' & Heq & Hsk').
      exact (interrupt_not_first _ _ _ _ _ Hsk Hsk' Hs Hh Heq).
    + destruct H.
    + exfalso. apply Forall_app in H as [_ H]. apply Forall_cons in H as [H _].
      destruct H as [H|[H|H]]; congruence.
    + destruct H.
Qed.

(** [prompt_for_choices] asks once.  An empty answer gives the default
    when there is one, and an answer among the choices is returned (unless
    it is [help] and there is a help text); every other answer ends the
    call with [TypeError], after the message for it has been printed: the
    call of [print_msg] without argument that follows the message raises,
    so the prompt is never shown a second time. *)
Theorem prompt_for_choices_asks_once (prompt : string) (choices : list string)
    (default help_text : option string) (events : list tty_answer)
    (data : string) (rest : list tty_answer) (out : list string) :
  read_input prompt events [] = Returned data rest out ->
  let asked := prompt_for_choices prompt choices default help_text events in
  let refused := exists out', asked = Raised TypeError out' /\ out' <> out in
  (data = ""%string ->
     (forall d, default = Some d -> d <> ""%string -> asked = Returned d rest out) /\
     (truthy default = false -> refused)) /\
  (data <> ""%string ->
     (data = "help"%string /\ truthy help_text = true -> refused) /\
     (~ (data = "help"%string /\ truthy help_text = true) ->
        (In data choices -> asked = Returned data rest out) /\
        (~ In data choices -> refused))).
Proof.
  intros Hread asked refused. subst asked refused.
  unfold prompt_for_choices. cbn [prompt_for_choices_loop]. rewrite Hread.
  assert (forall (l : list string) x, l ++ [x] <> l) as Hgrow.
  { intros l x Heq. apply (f_equal (@length string)) in Heq.
    rewrite length_app in Heq. cbn [length] in Heq. lia. }
  split.
  - intros ->. cbn [truthy negb]. split.
    + intros d -> Hd. destruct d; [contradiction|]. reflexivity.
    + intros Hdef. destruct default as [d|].
      * rewrite Hdef. cbn [print_msg bind ok]. eexists. split; [reflexivity|apply Hgrow].
      * cbn [print_msg bind ok]. eexists. split; [reflexivity|apply Hgrow].
  - intros Hdata. destruct data as [|c data]; [contradiction|]. cbn [truthy negb].
    split.
    + intros [-> Hhelp]. rewrite Hhelp. cbn [String.eqb Ascii.eqb Bool.eqb andb].
      destruct help_text as [h|]; [|discriminate]. cbn [print_msg].
      eexists. split; [reflexivity|apply Hgrow].
    + intros Hno.
      assert (String.eqb (String c data) "help" && truthy help_text = false) as ->.
      { destruct (String.eqb_spec (String c data) "help") as [Heq|Hne]; [|reflexivity].
        destruct (truthy help_text) eqn:Hh; [|reflexivity].
        exfalso. apply Hno. split; [exact Heq|reflexivity]. }
      assert (existsb (String.eqb (String c data)) choices = true
              <-> In (String c data) choices) as Hin.
      { rewrite existsb_exists. split.
        - intros (x & Hx & Heq). apply String.eqb_eq in Heq. congruence.
        - intros Hx. exists (String c data). split; [exact Hx|apply String.eqb_refl]. }
      split.
      * intros Hc. apply Hin in Hc. rewrite Hc. reflexivity.
      * intros Hc. destruct (existsb _ choices) eqn:He.
        -- exfalso. apply Hc, Hin. reflexivity.
        -- cbn [negb print_msg]. eexists. split; [reflexivity|apply Hgrow].
Qed.

End Prompts.

(** ** The mode, the secret and the settings of the snap *)

Section Stripping.
Import SecurityScripts.

Lemma lstrip_chars_split (l : list ascii) :
  exists spaces, l = spaces ++ lstrip_chars l.
Proof.
  induction l as [|c l [sp IH]]; [exists []; reflexivity|]. cbn [lstrip_chars].
  destruct (isspace c); [|exists []; reflexivity].
  exists (c :: sp). cbn [app]. f_equal. exact IH.
Qed.

Lemma lstrip_chars_head (l : list ascii) :
  lstrip_chars l = l <->
  match l with
  | [] => True
  | c :: _ => isspace c = false
  end.
Proof.
  destruct l as [|c l]; [split; reflexivity|]. cbn [lstrip_chars].
  destruct (isspace c); split; try reflexivity; try discriminate.
  intros Heq. destruct (lstrip_chars_split l) as [sp Hsp].
  apply (f_equal (@length ascii)) in Heq, Hsp. rewrite length_app in Hsp.
  cbn [length] in Heq. lia.
Qed.

Lemma lstrip_chars_idempotent (l : list ascii) :
  lstrip_chars (lstrip_chars l) = lstrip_chars l.
Proof.
  induction l as [|c l IH]; [reflexivity|]. cbn [lstrip_chars].
  destruct (isspace c) eqn:Hc; [exact IH|]. cbn [lstrip_chars]. rewrite Hc.
  reflexivity.
Qed.

(** Stripping a second time changes nothing. *)
Lemma str_strip_idempotent (u : string) : str_strip (str_strip u) = str_strip u.
Proof.
  unfold str_strip. rewrite list_ascii_of_string_of_list_ascii. f_equal.
  set (a := lstrip_chars (list_ascii_of_string u)).
  assert (lstrip_chars a = a) as Ha by apply lstrip_chars_idempotent.
  set (b := lstrip_chars (rev a)).
  assert (lstrip_chars (rev b) = rev b) as ->.
  { apply lstrip_chars_head. destruct (lstrip_chars_split (rev a)) as [sp Hsp].
    fold b in Hsp. apply (f_equal (@rev ascii)) in Hsp.
    rewrite rev_involutive, rev_app_distr in Hsp.
    apply lstrip_chars_head in Ha. rewrite Hsp in Ha.
    destruct (rev b); [exact I|exact Ha]. }
  rewrite rev_involutive. subst b. rewrite lstrip_chars_idempotent. reflexivity.
Qed.

Lemma lstrip_chars_In (l : list ascii) c : In c (lstrip_chars l) -> In c l.
Proof.
  destruct (lstrip_chars_split l) as [sp Hsp]. intros Hc. rewrite Hsp.
  apply in_or_app. right. exact Hc.
Qed.

(** A text without carriage return is read as it is stored, and so is what
    stripping leaves of it. *)
Lemma read_without_CR (l : list ascii) :
  ~ In Snappy.CR l ->
  Snappy.read (string_of_list_ascii l) = string_of_list_ascii l.
Proof.
  induction l as [|c l IH]; [reflexivity|]. intros Hno.
  cbn [string_of_list_ascii Snappy.read].
  destruct (Ascii.eqb_spec c Snappy.CR) as [->|_].
  - exfalso. apply Hno. left. reflexivity.
  - rewrite IH; [reflexivity|]. intros Hin. apply Hno. right. exact Hin.
Qed.

Lemma read_stripped (u : string) :
  ~ In Snappy.CR (list_ascii_of_string u) ->
  Snappy.read (str_strip u) = str_strip u.
Proof.
  intros Hno. unfold str_strip. apply read_without_CR. intros Hin.
  apply Hno. apply in_rev, lstrip_chars_In, in_rev, lstrip_chars_In in Hin.
  exact Hin.
Qed.

End Stripping.

Section SnapFiles.
Import Security SecurityScripts Snappy.
Variable SNAP_COMMON SNAP_DATA : path.

Let mode_path := get_mode_filepath SNAP_COMMON.
Let secret_path := rpc_secret_path SNAP_DATA.

Lemma open_write_stores (fs fs' : filesystem) (p : path) (text : string) :
  open_write fs p text = ok fs' ->
  (exists m, fs' !! p = Some (File m text)) /\
  (forall q, q <> p -> fs' !! q = fs !! q).
Proof.
  unfold open_write. intros H.
  assert (match fs !! p with
          | None => ok (<[p := File CREATE_MODE text]> fs)
          | Some Directory => raise (IOError EISDIR)
          | Some (File m _) => ok (<[p := File m text]> fs)
          end = ok fs') as H'.
  { destruct (dirname p); [exact H|].
    destruct (fs !! (s :: l)) as [[]|]; try discriminate; exact H. }
  clear H. destruct (fs !! p) as [[m t|]|]; try discriminate;
    injection H' as <-; (split; [eexists; apply lookup_insert_eq|]);
    intros q Hq; apply lookup_insert_ne; congruence.
Qed.

(** The mode read back is the mode written, without the whitespace at its
    ends and with its carriage returns read as line feeds: it is the mode
    written without the whitespace at its ends when that holds no carriage
    return.  No other file is touched; without mode file the mode is
    [none]; a mode of whitespace only is stored as the empty text and read
    back as such, it is not [none]. *)
Theorem current_mode_roundtrip (fs fs' : filesystem) (m : string) :
  set_current_mode SNAP_COMMON fs m = ok fs' ->
  get_current_mode SNAP_COMMON fs' = ok (str_strip (read (str_strip m))) /\
  (~ In CR (list_ascii_of_string m) ->
   get_current_mode SNAP_COMMON fs' = ok (str_strip m)) /\
  (forall q, q <> mode_path -> fs' !! q = fs !! q) /\
  (fs !! mode_path = None -> get_current_mode SNAP_COMMON fs = ok "none"%string) /\
  (str_strip m = ""%string -> get_current_mode SNAP_COMMON fs' = ok ""%string).
Proof.
  unfold set_current_mode. intros Hset.
  destruct (open_write_stores _ _ _ _ Hset) as [[md Hfile] Hrest].
  assert (get_current_mode SNAP_COMMON fs' = ok (str_strip (read (str_strip m))))
    as Hget.
  { unfold get_current_mode, exists_, open_read. rewrite Hfile. reflexivity. }
  split; [exact Hget|]. split; [|split; [exact Hrest|split]].
  - intros Hno. rewrite Hget, (read_stripped m Hno), str_strip_idempotent.
    reflexivity.
  - intros Hnone. unfold get_current_mode, exists_. fold mode_path.
    rewrite Hnone. reflexivity.
  - intros Hblank. rewrite Hget, Hblank. reflexivity.
Qed.

(** The secret read back after [set_rpc_secret] is the secret given, with
    its carriage returns read as line feeds and without the whitespace at
    its ends, and there is none when that is empty: after a call without
    secret, with the empty one, or with one of whitespace only.  A secret
    without carriage return is read back as it was given, without the
    whitespace at its ends. *)
Theorem rpc_secret_roundtrip (fs fs' : filesystem) (given : option string) :
  set_rpc_secret SNAP_DATA fs given = ok fs' ->
  get_rpc_secret SNAP_DATA fs'
    = ok (match given with
          | Some s =>
              if truthy (Some (str_strip (read s)))
              then Some (str_strip (read s)) else None
          | None => None
          end) /\
  (forall s, given = Some s -> ~ In CR (list_ascii_of_string s) ->
             get_rpc_secret SNAP_DATA fs'
             = ok (if truthy (Some (str_strip s)) then Some (str_strip s) else None)) /\
  (forall q, q <> secret_path -> fs' !! q = fs !! q) /\
  (truthy given = false -> fs' !! secret_path = None).
Proof.
  intros Hset.
  assert (truthy given = false -> fs' !! secret_path = None /\
            forall q, q <> secret_path -> fs' !! q = fs !! q) as Hdel.
  { intros Hno. unfold set_rpc_secret in Hset. fold secret_path in Hset.
    assert ((if exists_ fs secret_path then remove fs secret_path else ok fs)
            = ok fs') as H.
    { destruct given as [[|c s]|]; [exact Hset|discriminate|exact Hset]. }
    unfold exists_, remove in H.
    destruct (fs !! secret_path) as [[md t|]|] eqn:Hf; try discriminate;
      injection H as <-.
    - split; [apply lookup_delete_eq|]. intros q Hq. apply lookup_delete_ne. congruence.
    - split; [exact Hf|]. reflexivity. }
  assert (get_rpc_secret SNAP_DATA fs'
          = ok (match given with
                | Some s =>
                    if truthy (Some (str_strip (read s)))
                    then Some (str_strip (read s)) else None
                | None => None
                end) /\
          (forall q, q <> secret_path -> fs' !! q = fs !! q) /\
          (truthy given = false -> fs' !! secret_path = None)) as (Hget & Hrest & Hnone).
  { destruct given as [[|c s]|].
    - destruct (Hdel eq_refl) as [Hnone Hrest]. split; [|split; [exact Hrest|auto]].
      unfold get_rpc_secret, exists_. fold secret_path. rewrite Hnone. reflexivity.
    - unfold set_rpc_secret in Hset.
      destruct (open_write_stores _ _ _ _ Hset) as [[md Hfile] Hrest].
      split; [|split; [exact Hrest|discriminate]].
      unfold get_rpc_secret, exists_, open_read. rewrite Hfile. cbn [bind ok].
      destruct (truthy (Some (str_strip (read (String c s))))); reflexivity.
    - destruct (Hdel eq_refl) as [Hnone Hrest]. split; [|split; [exact Hrest|auto]].
      unfold get_rpc_secret, exists_. fold secret_path. rewrite Hnone. reflexivity. }
  split; [exact Hget|]. split; [|split; assumption].
  intros s -> Hno. rewrite Hget.
  assert (read s = s) as ->; [|reflexivity].
  rewrite <- (string_of_list_ascii_of_string s). apply read_without_CR, Hno.
Qed.

End SnapFiles.

Section SnapSettings.
Import Security SecurityScripts Snappy.
Variable SNAP_DATA : path.
Variable value : Type.
Variable safe_load : string -> result (option (gmap string value)).
Variable safe_dump : gmap string value -> string.

(** What is dumped loads as it was. *)
Hypothesis load_dump : forall d, safe_load (safe_dump d) = ok (Some d).

Let regiond := SNAP_DATA ++ ["regiond.conf"%string].
Let rackd := SNAP_DATA ++ ["rackd.conf"%string].

Abbreviation get_value := (get_config_value SNAP_DATA value safe_load).
Abbreviation update := (update_config_value SNAP_DATA value safe_load safe_dump).

Lemma written_settings (fs : filesystem) m (d : gmap string value) :
  fs !! regiond = Some (File m (safe_dump d)) ->
  get_config_data SNAP_DATA value safe_load fs = ok d.
Proof.
  intros Hfile. unfold get_config_data, exists_, open_read. fold regiond.
  rewrite Hfile. cbn [bind ok]. rewrite load_dump. reflexivity.
Qed.

(** After [update_config_value] the setting reads as the value given, and
    as unset when [None] was given; the other settings read as before.  The
    URL of the region, and only it, is written to [rackd.conf] as well, which
    then holds nothing else. *)
Theorem update_config_value_reads_back (fs fs' : filesystem) (name : string)
    (v : option value) :
  update fs name v = ok fs' ->
  get_value fs' name = ok v /\
  (forall n, n <> name -> get_value fs' n = get_value fs n) /\
  (name = "maas_url"%string ->
   open_read fs' rackd
     = ok (safe_dump match v with
                     | None => ∅
                     | Some x => {[ "maas_url"%string := x ]}
                     end)) /\
  (name <> "maas_url"%string -> fs' !! rackd = fs !! rackd).
Proof.
  unfold update_config_value, write_config_data. fold regiond rackd.
  destruct (get_config_data SNAP_DATA value safe_load fs) as [e|d] eqn:Hd;
    [discriminate|]. cbn [bind ok].
  set (d' := match v with
             | None => delete name d
             | Some x => <[name := x]> d
             end).
  destruct (open_write fs regiond (safe_dump d')) as [e|fs1] eqn:Hw1;
    [discriminate|]. cbn [bind ok].
  destruct (open_write_stores _ _ _ _ Hw1) as [[m1 Hfile1] Hrest1].
  assert (regiond <> rackd) as Hne.
  { unfold regiond, rackd. intros Heq. apply app_inv_head in Heq. discriminate. }
  assert (d' !! name = v) as Hname.
  { subst d'. destruct v; [apply lookup_insert_eq|apply lookup_delete_eq]. }
  assert (forall n, n <> name -> d' !! n = d !! n) as Hother.
  { intros n Hn. subst d'.
    destruct v; [apply lookup_insert_ne|apply lookup_delete_ne]; congruence. }
  assert (forall fs2 m, fs2 !! regiond = Some (File m (safe_dump d')) ->
            get_value fs2 name = ok v /\
            forall n, n <> name -> get_value fs2 n = get_value fs n) as Hread.
  { intros fs2 m Hfile. unfold get_config_value.
    rewrite (written_settings fs2 m d' Hfile), Hd. cbn [bind ok]. split.
    - rewrite Hname. reflexivity.
    - intros n Hn. rewrite (Hother n Hn). reflexivity. }
  destruct (String.eqb_spec name "maas_url") as [->|Hurl].
  - intros Hw2. destruct (open_write_stores _ _ _ _ Hw2) as [[m2 Hfile2] Hrest2].
    assert (fs' !! regiond = Some (File m1 (safe_dump d'))) as Hfile
      by (rewrite Hrest2 by exact Hne; exact Hfile1).
    destruct (Hread fs' m1 Hfile) as [H1 H2].
    split; [exact H1|]. split; [exact H2|]. split; [|congruence].
    intros _. unfold open_read. rewrite Hfile2. reflexivity.
  - intros [= <-]. destruct (Hread fs1 m1 Hfile1) as [H1 H2].
    split; [exact H1|]. split; [exact H2|]. split; [congruence|].
    intros _. apply Hrest1. congruence.
Qed.

End SnapSettings.

Section ConfigChecks.
Import Security SecurityScripts Snappy.
Variable SNAP_COMMON : path.

Lemma getattr_known (o : options) (flag : string) :
  In flag (setting_flags ++ ["secret"%string]) -> exists v, getattr o flag = ok v.
Proof.
  cbn [setting_flags app In].
  intros [<-|[<-|[<-|[<-|[<-|[<-|[]]]]]]]; eexists; reflexivity.
Qed.

Lemma none_missing (o : options) (flags : list string) :
  missing_flags o flags = ok [] ->
  forall flag v, In flag flags -> getattr o flag = ok v -> truthy v = true.
Proof.
  induction flags as [|f flags IH]; cbn [missing_flags]; [intros _ ? ? []|].
  destruct (getattr o f) as [e|given] eqn:Hg; [discriminate|]. cbn [bind ok].
  destruct (missing_flags o flags) as [e|missing]; [discriminate|]. cbn [bind ok].
  destruct (truthy given) eqn:Ht; cbn [negb]; [|discriminate].
  intros [= ->] flag v [<-|Hin] Hv.
  - unfold ok in *. congruence.
  - exact (IH eq_refl flag v Hin Hv).
Qed.

Lemma none_invalid (o : options) (running_mode : string) (required flags : list string) :
  required_options running_mode = ok required ->
  invalid_flags o running_mode flags = ok [] ->
  forall flag v, In flag flags -> ~ In flag required ->
                 getattr o flag = ok v -> truthy v = false.
Proof.
  intros Hreq. induction flags as [|f flags IH]; cbn [invalid_flags];
    [intros _ ? ? []|].
  rewrite Hreq. cbn [bind ok].
  destruct (existsb (String.eqb f) required) eqn:Hex; cbn [negb andb bind ok].
  - destruct (invalid_flags o running_mode flags) as [e|invalid]; [discriminate|].
    cbn [bind ok]. intros [= ->] flag v [<-|Hin] Hout Hv.
    + exfalso. apply Hout. apply existsb_exists in Hex as (x & Hx & Heq).
      apply String.eqb_eq in Heq. congruence.
    + exact (IH eq_refl flag v Hin Hout Hv).
  - destruct (getattr o f) as [e|given] eqn:Hg; [discriminate|]. cbn [bind ok].
    destruct (invalid_flags o running_mode flags) as [e|invalid]; [discriminate|].
    cbn [bind ok]. destruct (truthy given) eqn:Ht; [discriminate|].
    intros [= ->] flag v [<-|Hin] Hout Hv.
    + unfold ok in *. congruence.
    + exact (IH eq_refl flag v Hin Hout Hv).
Qed.

(** A change of mode that passes both checks of [cmd_config] comes with
    exactly the flags that the new mode requires: each of them is given, and
    no other setting flag, nor the secret, is.  In particular no flag goes
    with a change to [none], and the secret goes with a change to [rack]
    only. *)
Theorem validated_mode_change (fs : filesystem) (o : options)
    (m current : string) :
  mode o = Some m ->
  get_current_mode SNAP_COMMON fs = ok current -> current <> m ->
  _validate_mode SNAP_COMMON fs o = inr tt ->
  _validate_flags o m = inr tt ->
  exists required,
    required_options m = ok required /\
    In m ["all"; "region+rack"; "region"; "rack"; "none"]%string /\
    (forall flag, In flag required -> In flag (setting_flags ++ ["secret"%string])) /\
    forall flag,
      In flag (setting_flags ++ ["secret"%string]) ->
      exists v, getattr o flag = ok v /\ (truthy v = true <-> In flag required).
Proof.
  intros Hm Hcur Hne Hmode Hflags.
  unfold _validate_mode in Hmode. rewrite Hm in Hmode. cbv beta iota in Hmode.
  rewrite Hcur in Hmode. unfold ok at 1 in Hmode. cbv beta iota in Hmode.
  assert (String.eqb m current = false) as Hneq
    by (apply String.eqb_neq; congruence).
  rewrite Hneq in Hmode. cbn [negb] in Hmode.
  destruct (required_options m) as [e|required] eqn:Hreq; [discriminate|].
  cbn [bind ok] in Hmode.
  destruct (missing_flags o required) as [e|missing] eqn:Hmiss; [discriminate|].
  destruct missing as [|x missing]; [|discriminate]. clear Hmode.
  unfold _validate_flags in Hflags.
  destruct (invalid_flags o m (setting_flags ++ ["secret"%string]))
    as [e|invalid] eqn:Hinv; [discriminate|].
  destruct invalid as [|x invalid]; [|discriminate]. clear Hflags.
  exists required. split; [reflexivity|].
  assert (In m ["all"; "region+rack"; "region"; "rack"; "none"]%string /\
          forall flag, In flag required ->
                       In flag (setting_flags ++ ["secret"%string])) as [Hin Hsub].
  { unfold required_options in Hreq. cbn [In setting_flags app].
    destruct (String.eqb_spec m "all");
      [injection Hreq as <-; split; [auto|cbn [In]; tauto]|].
    destruct (String.eqb_spec m "region+rack");
      [injection Hreq as <-; split; [auto|cbn [In]; tauto]|].
    destruct (String.eqb_spec m "region");
      [injection Hreq as <-; split; [auto|cbn [In]; tauto]|].
    destruct (String.eqb_spec m "rack");
      [injection Hreq as <-; split; [auto 6|cbn [In]; tauto]|].
    destruct (String.eqb_spec m "none");
      [injection Hreq as <-; split; [auto 6|cbn [In]; tauto]|].
    discriminate. }
  split; [exact Hin|]. split; [exact Hsub|].
  intros flag Hflag. destruct (getattr_known o flag Hflag) as [v Hv].
  exists v. split; [exact Hv|].
  destruct (in_dec string_dec flag required) as [Hreqd|Hout].
  - split; [intros _; exact Hreqd|].
    intros _. exact (none_missing o required Hmiss flag v Hreqd Hv).
  - rewrite (none_invalid o m required _ Hreq Hinv flag v Hflag Hout Hv).
    split; [discriminate|contradiction].
Qed.

End ConfigChecks.

Module SnapExample.
Import Security SecurityScripts Snappy.

Definition snap_common : path := ["var"; "snap"; "maas"; "common"]%string.
Definition snap_data : path := ["var"; "snap"; "maas"; "current"]%string.

(** The directories of a snap that is not configured. *)
Definition unconfigured : filesystem :=
  {[ snap_common := Directory;
     snap_data := Directory;
     snap_data ++ ["var"; "lib"; "maas"]%string := Directory ]}.

Definition with_mode : filesystem :=
  match set_current_mode snap_common unconfigured " rack " with
  | inr fs => fs
  | inl _ => unconfigured
  end.

Definition with_secret : filesystem :=
  match set_rpc_secret snap_data unconfigured (Some " s3cret ")%string with
  | inr fs => fs
  | inl _ => unconfigured
  end.

(** A secret of two lines, the first ended by a carriage return and a line
    feed. *)
Definition two_lines : string :=
  String "s" (String CR (String LF (String "3" EmptyString))).

Definition with_returns : filesystem :=
  match set_rpc_secret snap_data unconfigured (Some two_lines) with
  | inr fs => fs
  | inl _ => unconfigured
  end.

(** A serialisation for which what is dumped loads as it was: the binary
    numeral of the code of the mapping. *)
Fixpoint dump_positive (p : positive) : string :=
  match p with
  | xH => EmptyString
  | xO p => String "0" (dump_positive p)
  | xI p => String "1" (dump_positive p)
  end.

Fixpoint load_positive (s : string) : positive :=
  match s with
  | EmptyString => xH
  | String c s => if Ascii.eqb c "1" then xI (load_positive s) else xO (load_positive s)
  end.

Definition safe_dump (d : gmap string string) : string :=
  dump_positive (encode d).

Definition safe_load (s : string) : result (option (gmap string string)) :=
  ok (decode (load_positive s)).

Definition with_url : filesystem :=
  match update_config_value snap_data string safe_load safe_dump unconfigured
          "maas_url" (Some "http://10.0.0.1:5240/MAAS"%string) with
  | inr fs => fs
  | inl _ => unconfigured
  end.

Definition to_rack : options :=
  {| mode := Some "rack"%string; maas_url := Some "http://10.0.0.1:5240/MAAS"%string;
     database_host := None; database_name := None; database_user := None;
     database_pass := None; secret := Some "s3cret"%string |}.

Definition answers : list tty_answer :=
  [EOFError; Typed ""; Typed "help"; Typed "s3cret"; Typed "more"].

End SnapExample.

Lemma load_dump_positive (p : positive) :
  SnapExample.load_positive (SnapExample.dump_positive p) = p.
Proof.
  induction p as [p IH|p IH|]; cbn [SnapExample.dump_positive SnapExample.load_positive];
    [| |reflexivity]; rewrite IH; reflexivity.
Qed.

Lemma load_dump_example (d : gmap string string) :
  SnapExample.safe_load (SnapExample.safe_dump d) = ok (Some d).
Proof.
  unfold SnapExample.safe_load, SnapExample.safe_dump.
  rewrite load_dump_positive, decode_encode. reflexivity.
Qed.

Lemma required_prompt_answer_witness :
  exists out,
    Snappy.required_prompt "Secret: " (Some "The secret of the region."%string)
      SnapExample.answers
    = Snappy.Returned (Some "s3cret"%string) [SecurityScripts.Typed "more"] out.
Proof.
  destruct (required_prompt_answer "Secret: " (Some "The secret of the region."%string)
              SnapExample.answers) as (_ & _ & _ & _ & H).
  apply (H [SecurityScripts.EOFError; SecurityScripts.Typed "";
            SecurityScripts.Typed "help"] "s3cret"%string
           [SecurityScripts.Typed "more"]);
    [reflexivity| |discriminate|discriminate].
  constructor; [left; reflexivity|]. constructor; [right; left; reflexivity|].
  constructor; [right; right; reflexivity|]. constructor.
Defined.

Lemma prompt_for_choices_asks_once_witness :
  exists out',
    Snappy.prompt_for_choices "Sure (yes/no) [default=no]? " ["yes"; "no"]%string
      (Some "no"%string) None
      [SecurityScripts.Typed "maybe"; SecurityScripts.Typed "yes"]
    = Snappy.Raised TypeError out' /\
    out' <> ["Sure (yes/no) [default=no]? "%string].
Proof.
  pose proof (prompt_for_choices_asks_once "Sure (yes/no) [default=no]? "
                ["yes"; "no"]%string (Some "no"%string) None
                [SecurityScripts.Typed "maybe"; SecurityScripts.Typed "yes"]
                "maybe" [SecurityScripts.Typed "yes"]
                ["Sure (yes/no) [default=no]? "%string] eq_refl) as H.
  cbv zeta in H. destruct H as [_ H].
  destruct (H ltac:(discriminate)) as [_ H2].
  destruct H2 as [_ H3]; [intros [Hh _]; discriminate|].
  apply H3. intros [Hy|[Hn|[]]]; discriminate.
Defined.

Lemma current_mode_roundtrip_witness :
  Snappy.get_current_mode SnapExample.snap_common SnapExample.with_mode
  = ok "rack"%string.
Proof.
  destruct (current_mode_roundtrip SnapExample.snap_common SnapExample.unconfigured
              SnapExample.with_mode " rack " eq_refl) as [H _].
  exact H.
Defined.

Lemma rpc_secret_roundtrip_witness :
  Snappy.get_rpc_secret SnapExample.snap_data SnapExample.with_secret
  = ok (Some "s3cret"%string) /\
  Snappy.get_rpc_secret SnapExample.snap_data SnapExample.with_returns
  = ok (Some (String "s" (String Snappy.LF (String "3" EmptyString)))).
Proof.
  split.
  - destruct (rpc_secret_roundtrip SnapExample.snap_data SnapExample.unconfigured
                SnapExample.with_secret (Some " s3cret "%string) eq_refl) as [H _].
    exact H.
  - destruct (rpc_secret_roundtrip SnapExample.snap_data SnapExample.unconfigured
                SnapExample.with_returns (Some SnapExample.two_lines) eq_refl)
      as [H _].
    exact H.
Defined.

Lemma update_config_value_reads_back_witness :
  Snappy.get_config_value SnapExample.snap_data string SnapExample.safe_load
    SnapExample.with_url "maas_url"
  = ok (Some "http://10.0.0.1:5240/MAAS"%string).
Proof.
  destruct (update_config_value_reads_back SnapExample.snap_data string
              SnapExample.safe_load SnapExample.safe_dump load_dump_example
              SnapExample.unconfigured SnapExample.with_url "maas_url"
              (Some "http://10.0.0.1:5240/MAAS"%string) eq_refl) as [H _].
  exact H.
Defined.

Lemma validated_mode_change_witness :
  exists required,
    Snappy.required_options "rack" = ok required /\
    In "rack"%string ["all"; "region+rack"; "region"; "rack"; "none"]%string /\
    (forall flag, In flag required ->
                  In flag (Snappy.setting_flags ++ ["secret"%string])) /\
    forall flag,
      In flag (Snappy.setting_flags ++ ["secret"%string]) ->
      exists v, Snappy.getattr SnapExample.to_rack flag = ok v /\
                (Snappy.truthy v = true <-> In flag required).
Proof.
  apply (validated_mode_change SnapExample.snap_common SnapExample.unconfigured
           SnapExample.to_rack "rack" "none");
    [reflexivity|reflexivity|discriminate|reflexivity|reflexivity].
Defined.
